(** * rs-lang-compiler: basic blocks, liveness, stack frames, register
      allocation and target-code emission

    A shallow embedding of [compiler_block_spilt.py],
    [compiler_aimcodegenerator.py] and [compiler_error_handler.py], followed
    by the properties of the middle/back end stated against it.

    Conventions of the embedding:
    - a Python [dict] whose iteration order is observable is an association
      list in insertion order ([dict_get], [dict_set], [dict_del]);
    - a Python [dict] or [set] that is only looked up is a [gmap] or [gset];
    - exceptions are the [Raise] results of the [result_of] type;
    - a Python [str] is the string of its UTF-8 encoding; where the code
      looks at single characters the string is decoded first;
    - every emitted text line is an [instr]; the text after [#] on a line is
      a comment for the human reader and is not part of the model. *)

From Stdlib Require Import ZArith String Ascii.
From Stdlib Require OrderedTypeEx.
From stdpp Require Import gmap strings list sorting pretty.

Open Scope string_scope.
Open Scope list_scope.
Open Scope nat_scope.
Open Scope stdpp_scope.

(** ** Python containers *)

Section dict.
Context {K V : Type} `{EqDecision K}.

(** [d.get(k)] *)
Fixpoint dict_get (k : K) (d : list (K * V)) : option V :=
  match d with
  | [] => None
  | (k', v) :: d' => if decide (k' = k) then Some v else dict_get k d'
  end.

(** [d[k] = v]: an existing key keeps its place, a new key goes last. *)
Fixpoint dict_set (k : K) (v : V) (d : list (K * V)) : list (K * V) :=
  match d with
  | [] => [(k, v)]
  | (k', v') :: d' =>
      if decide (k' = k) then (k, v) :: d' else (k', v') :: dict_set k v d'
  end.

(** [del d[k]] *)
Fixpoint dict_del (k : K) (d : list (K * V)) : list (K * V) :=
  match d with
  | [] => []
  | (k', v') :: d' =>
      if decide (k' = k) then d' else (k', v') :: dict_del k d'
  end.

(** [k in d] *)
Definition dict_mem (k : K) (d : list (K * V)) : bool :=
  bool_decide (is_Some (dict_get k d)).
End dict.

(** [l[s:e]] for non-negative [s] and [e]. *)
Definition slice {A : Type} (l : list A) (s e : nat) : list A :=
  take (e - s) (drop s l).

(** [enumerate(l)] *)
Definition enumerate {A : Type} (l : list A) : list (nat * A) :=
  imap (λ i x, (i, x)) l.

(** ** Quadruples *)

(** A field of a quadruple: a name, an integer (constant or quadruple
    index) or [None]. *)
Inductive operand : Type :=
  | OStr (s : string)
  | OInt (z : Z)
  | ONone.

Global Instance operand_eq_dec : EqDecision operand.
Proof. solve_decision. Defined.

Record Quadruple : Type := mkQuad {
  op : string;
  arg1 : operand;
  arg2 : operand;
  result : operand
}.

Global Instance Quadruple_eq_dec : EqDecision Quadruple.
Proof. solve_decision. Defined.

(** A quadruple with its index in the global stream, and a basic block. *)
Abbreviation iquad := (Z * Quadruple)%type.
Abbreviation block := (list (Z * Quadruple)).

Definition is_None (o : operand) : bool :=
  match o with ONone => true | _ => false end.

(** Python truthiness of a field: [None], [0] and the empty string are
    false. *)
Definition truthy (o : operand) : bool :=
  match o with
  | ONone => false
  | OInt z => negb (z =? 0)%Z
  | OStr s => negb (String.eqb s "")
  end.

(** [str(o)], as an f-string renders a field. *)
Definition str (o : operand) : string :=
  match o with
  | OStr s => s
  | OInt z => pretty z
  | ONone => "None"
  end.

(** ** The symbol table *)

(** Modelled from the spec: [compiler_semantic_symbol] (SymbolTable, Scope and
    the symbol classes) is not among the sources.  The code generator reads
    from it the symbols of a scope in insertion order, tells parameter,
    variable and function symbols apart by [isinstance], and reads a function
    symbol's [quad_index]. *)
Inductive SymbolKind : Type :=
  | ParameterSymbol
  | VariableSymbol
  | FunctionSymbol (quad_index : option Z)
  | OtherSymbol.

Record Symbol : Type := mkSymbol {
  name : string;
  kind : SymbolKind
}.

Record SymbolTable : Type := mkSymbolTable {
  global_scope : list Symbol;
  scopes : list (string * list Symbol)
}.

(** Modelled from the spec: [SymbolTable.find_scope], the symbols of the
    scope opened under the function's name. *)
Definition find_scope (t : SymbolTable) (func_name : string)
  : option (list Symbol) :=
  dict_get func_name (scopes t).

(** ** compiler_error_handler.py *)

Module ErrorCode.
Inductive t : Type :=
  | GENERAL_ERROR
  | UNKNOWN_ERROR | INTERNAL_COMPILER_ERR
  | SYNTAX_ERROR | INVALID_PARAM_FORMAT | MISSING_SEMICOLON
  | UNEXPECTED_TOKEN
  | TYPE_MISMATCH | INVALID_CAST | ARRAY_TYPE_VIOLATION
  | UNDEFINED_SYMBOL | UNDEFINED_VARIABLE | UNDEFINED_FUNCTION
  | DUPLICATE_SYMBOL
  | DIVISION_BY_ZERO | OUT_OF_MEMORY | STACK_OVERFLOW | INVALID_ARGUMENTS
  | PARAM_LIMIT | DEPRECATED_FEATURE | RECURSION_DEPTH.

Definition value (c : t) : Z :=
  match c with
  | GENERAL_ERROR => 0x0001
  | UNKNOWN_ERROR => 0x9001
  | INTERNAL_COMPILER_ERR => 0x9002
  | SYNTAX_ERROR => 0x1001
  | INVALID_PARAM_FORMAT => 0x1002
  | MISSING_SEMICOLON => 0x1003
  | UNEXPECTED_TOKEN => 0x1004
  | TYPE_MISMATCH => 0x2001
  | INVALID_CAST => 0x2002
  | ARRAY_TYPE_VIOLATION => 0x2003
  | UNDEFINED_SYMBOL => 0x3001
  | UNDEFINED_VARIABLE => 0x3002
  | UNDEFINED_FUNCTION => 0x3003
  | DUPLICATE_SYMBOL => 0x3004
  | DIVISION_BY_ZERO => 0x4001
  | OUT_OF_MEMORY => 0x4002
  | STACK_OVERFLOW => 0x4003
  | INVALID_ARGUMENTS => 0x4004
  | PARAM_LIMIT => 0x5001
  | DEPRECATED_FEATURE => 0x5002
  | RECURSION_DEPTH => 0x5003
  end%Z.

(** [get_category] *)
Definition get_category (code : Z) : string :=
  let c := Z.land code 0xF000 in
  if (c =? 0x1000)%Z then "Syntax"
  else if (c =? 0x2000)%Z then "Type"
  else if (c =? 0x3000)%Z then "Symbol"
  else if (c =? 0x4000)%Z then "Runtime"
  else if (c =? 0x5000)%Z then "Limitation"
  else if (c =? 0x9000)%Z then "System"
  else "Unknown".

(** [is_fatal]: every class but the limitation warnings. *)
Definition is_fatal (c : t) : bool :=
  negb (Z.land (value c) 0xF000 =? 0x5000)%Z.

(** The [category_prefix] of [chinese_description]. *)
Definition category_prefix (c : t) : string :=
  let k := Z.land (value c) 0xF000 in
  if (k =? 0x0000)%Z then "[通用]"
  else if (k =? 0x1000)%Z then "[语法]"
  else if (k =? 0x2000)%Z then "[类型]"
  else if (k =? 0x3000)%Z then "[符号]"
  else if (k =? 0x4000)%Z then "[运行时]"
  else if (k =? 0x5000)%Z then "[限制]"
  else if (k =? 0x9000)%Z then "[系统]"
  else "".

(** The table [descriptions] of [chinese_description]. *)
Definition descriptions (c : t) : option string :=
  match c with
  | GENERAL_ERROR => Some "通用错误"
  | UNKNOWN_ERROR => Some "未知错误"
  | INTERNAL_COMPILER_ERR => Some "编译器内部错误"
  | SYNTAX_ERROR => Some "语法错误"
  | INVALID_PARAM_FORMAT => Some "无效的参数格式"
  | MISSING_SEMICOLON => Some "缺少分号"
  | UNEXPECTED_TOKEN => Some "意外的符号"
  | TYPE_MISMATCH => Some "类型不匹配"
  | INVALID_CAST => Some "无效的类型转换"
  | ARRAY_TYPE_VIOLATION => Some "数组类型违规"
  | UNDEFINED_SYMBOL => Some "未定义的符号"
  | UNDEFINED_VARIABLE => Some "未定义的变量"
  | UNDEFINED_FUNCTION => Some "未定义的函数"
  | DUPLICATE_SYMBOL => Some "重复定义的符号"
  | DIVISION_BY_ZERO => Some "除以零错误"
  | OUT_OF_MEMORY => Some "内存不足"
  | STACK_OVERFLOW => Some "栈溢出"
  | INVALID_ARGUMENTS => Some "无效的函数参数"
  | PARAM_LIMIT => Some "参数数量超过限制"
  | DEPRECATED_FEATURE => Some "使用了已弃用的功能"
  | RECURSION_DEPTH => Some "递归深度超过安全限制"
  end.

(** [chinese_description] *)
Definition chinese_description (c : t) : string :=
  category_prefix c +:+ default "未定义的错误代码" (descriptions c).
End ErrorCode.

(** What a [raise] carries.  [ErrorException] is the compiler's own
    exception class, with the fields its constructor stores; the others are
    Python's built-in ones. *)
Inductive exn : Type :=
  | ErrorException (message : string) (error_code : ErrorCode.t)
      (code_location : option (string * Z)) (fix_suggestion : option string)
  | ValueError (message : string)
  | AttributeError (attribute : string)
  | KeyError
  | IndexError
  | TypeError.

Inductive result_of (A : Type) : Type :=
  | Ok (a : A)
  | Raise (e : exn).
Arguments Ok {A} a.
Arguments Raise {A} e.

Global Instance result_ret : MRet result_of := λ A a, Ok a.
Global Instance result_bind : MBind result_of := λ A B f m,
  match m with
  | Ok a => f a
  | Raise e => Raise e
  end.

(** A [for] loop whose body may raise. *)
Fixpoint foldlM {A B : Type} (f : A → B → result_of A) (a : A) (l : list B)
  : result_of A :=
  match l with
  | [] => Ok a
  | x :: l' => a' ← f a x; foldlM f a' l'
  end.

(** [d[k]] on a dict, [l[i]] on a list. *)
Definition or_raise {A : Type} (e : exn) (o : option A) : result_of A :=
  match o with
  | Some a => Ok a
  | None => Raise e
  end.

(** The lines of [ErrorException._format_chinese_message]: the description
    and the message, then the location and the suggestion that are given (an
    empty suggestion counts as none), and a rule after the first line when
    there is more than one. *)
Definition format_lines (message : string) (error_code : ErrorCode.t)
    (code_location : option (string * Z)) (fix_suggestion : option string)
  : list string :=
  let lines :=
    [ErrorCode.chinese_description error_code +:+ ": " +:+ message]
    ++ match code_location with
       | Some (file, line) => ["  位置: " +:+ file +:+ ":" +:+ pretty line]
       | None => []
       end
    ++ match fix_suggestion with
       | Some suggestion =>
           if String.eqb suggestion "" then []
           else ["  建议修复: " +:+ suggestion]
       | None => []
       end in
  if 1 <? length lines
  then take 1 lines ++ ["  " +:+ "------------------------------"]
       ++ drop 1 lines
  else lines.

(** [_format_chinese_message], the text that [str] gives of the exception. *)
Definition _format_chinese_message (message : string)
    (error_code : ErrorCode.t) (code_location : option (string * Z))
    (fix_suggestion : option string) : string :=
  String.concat (String "010" EmptyString)
    (format_lines message error_code code_location fix_suggestion).

(** ** compiler_block_spilt.py: [BlockController] *)

Module BlockController.

Definition is_jump (quad : Quadruple) : bool :=
  String.eqb (op quad) "j" || String.eqb (op quad) "jnz".

(** [{inst_idx: pos for pos, (inst_idx, _) in enumerate(quads)}]: of two
    positions with one index the later one stays. *)
Definition index_to_pos (quads : list iquad) : gmap Z nat :=
  fold_left (λ (m : gmap Z nat) (p : nat * iquad), <[p.2.1 := p.1]> m)
    (enumerate quads) ∅.

(** The body of the loop of [_block_split] that collects the block starts,
    at the quadruple [p] of the enumeration. *)
Definition add_starts (index_to_pos : gmap Z nat) (n : nat)
    (block_starts : gset nat) (p : nat * iquad) : gset nat :=
  let '(current_pos, (_, quad)) := p in
  if is_jump quad && negb (is_None (result quad)) then
    let block_starts :=
      match result quad with
      | OInt target =>
          match index_to_pos !! target with
          | Some pos => {[pos]} ∪ block_starts
          | None => block_starts
          end
      | _ => block_starts
      end in
    if decide (current_pos + 1 < n)
    then {[current_pos + 1]} ∪ block_starts
    else block_starts
  else block_starts.

Definition block_starts (quads : list iquad) : gset nat :=
  fold_left (add_starts (index_to_pos quads) (length quads))
    (enumerate quads) {[0]}.

Definition sorted_starts (quads : list iquad) : list nat :=
  merge_sort Nat.le (elements (block_starts quads)).

Definition _block_split (quads : list iquad) : list block :=
  match quads with
  | [] => []
  | _ =>
      let sorted_starts := sorted_starts quads in
      zip_with (slice quads) sorted_starts
        (tail sorted_starts ++ [length quads])
  end.

(** [_get_function_entry]: the function symbols of the global scope that
    have an entry index, in the scope's order. *)
Definition _get_function_entry (t : SymbolTable) : list (string * Z) :=
  omap (λ symbol,
    match kind symbol with
    | FunctionSymbol (Some quad_index) => Some (name symbol, quad_index)
    | _ => None
    end) (global_scope t).

(** [collect_vars] of [_get_function_vars] *)
Definition collect_vars (symbols : list Symbol) : gset string :=
  list_to_set (omap (λ sym,
    match kind sym with
    | VariableSymbol | ParameterSymbol => Some (name sym)
    | _ => None
    end) symbols).

(** [_get_function_vars]; a function without a scope makes [scope.symbols]
    fail. *)
Definition _get_function_vars (t : SymbolTable)
    (func_entries : list (string * Z))
  : result_of (list (string * gset string)) :=
  mapM (M := result_of) (λ '(func_name, _),
    symbols ← or_raise (AttributeError "symbols") (find_scope t func_name);
    mret (func_name, collect_vars symbols)) func_entries.

(** [sorted(entries, key=lambda x: x[1])]: a stable sort. *)
Fixpoint insert_entry (e : string * Z) (l : list (string * Z))
  : list (string * Z) :=
  match l with
  | [] => [e]
  | h :: t => if (e.2 <=? h.2)%Z then e :: h :: t else h :: insert_entry e t
  end.

Definition sorted_entries (func_entries : list (string * Z))
  : list (string * Z) :=
  foldr insert_entry [] func_entries.

(** The first loop of [_split_all_functions]: the slice of every function
    and its blocks, in the order of the entries. *)
Fixpoint split_entries (quads : list iquad) (index_map : gmap Z nat)
    (entries : list (string * Z)) (func_blocks : list (string * list block))
  : result_of (list (string * list block)) :=
  match entries with
  | [] => mret func_blocks
  | (func_name, start_idx) :: rest =>
      start_pos ← or_raise KeyError (index_map !! start_idx);
      end_pos ← match rest with
                | [] => mret (length quads)
                | (_, next_idx) :: _ => or_raise KeyError (index_map !! next_idx)
                end;
      split_entries quads index_map rest
        (dict_set func_name (_block_split (slice quads start_pos end_pos))
           func_blocks)
  end.

(** What one quadruple of [caller] adds to the call graph. *)
Definition add_call (func_blocks : list (string * list block))
    (caller : string) (cg : gmap string (gset string)) (q : iquad)
  : gmap string (gset string) :=
  match arg1 q.2 with
  | OStr callee =>
      if String.eqb (op q.2) "call" && dict_mem callee func_blocks
      then <[callee := {[caller]} ∪ default ∅ (cg !! callee)]> cg
      else cg
  | _ => cg
  end.

(** The call graph, callee to the set of its callers. *)
Definition call_graph (func_blocks : list (string * list block))
  : gmap string (gset string) :=
  fold_left (λ cg (f : string * list block),
    fold_left (add_call func_blocks f.1) (concat f.2) cg) func_blocks ∅.

Section call_order.
(** The order in which Python iterates over a set of strings depends on the
    hash seed of the run; [set_order] stands for it. *)
Variable set_order : gset string → list string.

(** [visit]; the recursion is as deep as there are functions at most, which
    is what [fuel] counts. *)
Fixpoint visit (fuel : nat) (cg : gmap string (gset string)) (f : string)
    (st : list string * gset string) : list string * gset string :=
  match fuel with
  | 0 => st
  | S fuel' =>
      if decide (f ∈ st.2) then st
      else
        let st' :=
          fold_left (λ st caller, visit fuel' cg caller st)
            (set_order (default ∅ (cg !! f))) (st.1, {[f]} ∪ st.2) in
        (st'.1 ++ [f], st'.2)
  end.

(** The topological sort of [_split_all_functions], with [fuel] the depth
    allowed to [visit]. *)
Definition call_order_fuel (fuel : nat)
    (func_blocks : list (string * list block)) : list string :=
  let cg := call_graph func_blocks in
  let st := if dict_mem "main" func_blocks
            then visit fuel cg "main" ([], ∅)
            else ([], ∅) in
  (fold_left (λ st f, if decide (f ∈ st.2) then st else visit fuel cg f st)
     func_blocks.*1 st).1.

Definition call_order (func_blocks : list (string * list block))
  : list string :=
  call_order_fuel (S (length func_blocks)) func_blocks.

Definition _split_all_functions (quads : list iquad)
    (func_entries : list (string * Z))
  : result_of (list (string * list block)) :=
  func_blocks ← split_entries quads (index_to_pos quads)
                  (sorted_entries func_entries) [];
  mapM (M := result_of) (λ f,
    blocks ← or_raise KeyError (dict_get f func_blocks);
    mret (f, blocks)) (call_order func_blocks).
End call_order.

(** [{idx: b_idx for b_idx, block in enumerate(blocks) for idx, _ in block}] *)
Definition idx_to_block (blocks : list block) : gmap Z nat :=
  fold_left (λ (m : gmap Z nat) (b : nat * block),
    fold_left (λ (m : gmap Z nat) (q : iquad), <[q.1 := b.1]> m) b.2 m)
    (enumerate blocks) ∅.

(** The successors of block [i], whose last quadruple is [last_quad]. *)
Definition successors (idx_to_block : gmap Z nat) (n_blocks i : nat)
    (last_quad : Quadruple) : gset nat :=
  let target : gset nat :=
    match result last_quad with
    | OInt target =>
        match idx_to_block !! target with
        | Some b => {[b]}
        | None => ∅
        end
    | _ => ∅
    end in
  let successors : gset nat :=
    if String.eqb (op last_quad) "j" && negb (is_None (result last_quad))
    then target
    else if String.eqb (op last_quad) "jnz"
            && negb (is_None (result last_quad))
    then target ∪ (if decide (i + 1 < n_blocks) then {[i + 1]} else ∅)
    else ∅ in
  if decide (successors = ∅ ∧ i + 1 < n_blocks) then {[i + 1]}
  else successors.

(** [_build_cfg]: entry [i] of the result is [cfg[i]], as the set that the
    list [list(successors)] enumerates; [block[-1]] fails on an empty
    block. *)
Definition _build_cfg (blocks : list block) : result_of (list (gset nat)) :=
  let idx_to_block := idx_to_block blocks in
  mapM (M := result_of) (λ '(i, block),
    last_quad ← or_raise IndexError (last block);
    mret (successors idx_to_block (length blocks) i last_quad.2))
    (enumerate blocks).

(** What one quadruple adds to the variables a block reads before it writes
    them, and to the ones it writes, among [valid_vars]. *)
Definition add_use_def (valid_vars : gset string)
    (sets : gset string * gset string) (q : iquad)
  : gset string * gset string :=
  let written_vars := sets.2 in
  let read_vars :=
    fold_left (λ (read_vars : gset string) operand,
      match operand with
      | OStr s =>
          if truthy operand && bool_decide (s ∈ valid_vars)
             && bool_decide (s ∉ written_vars)
          then {[s]} ∪ read_vars else read_vars
      | _ => read_vars
      end) [arg1 q.2; arg2 q.2] sets.1 in
  let written_vars : gset string :=
    match result q.2 with
    | OStr s =>
        if truthy (result q.2) && bool_decide (s ∈ valid_vars)
        then {[s]} ∪ written_vars else written_vars
    | _ => written_vars
    end in
  (read_vars, written_vars).

Definition use_def (valid_vars : gset string) (block : block)
  : gset string * gset string :=
  fold_left (add_use_def valid_vars) block (∅, ∅).

Record live_state : Type := mkLive {
  in_sets : list (gset string);
  out_sets : list (gset string);
  changed : bool
}.

(** The body of the [for] loop over the blocks. *)
Definition update_block (cfg : list (gset nat))
    (used_vars defined_vars : list (gset string)) (st : live_state)
    (i : nat) : live_state :=
  let old_in := in_sets st !!! i in
  let old_out := out_sets st !!! i in
  let new_out : gset string :=
    ⋃ ((λ succ, in_sets st !!! succ) <$> elements (cfg !!! i)) in
  let new_in := used_vars !!! i ∪ (new_out ∖ defined_vars !!! i) in
  {| in_sets := <[i := new_in]> (in_sets st);
     out_sets := <[i := new_out]> (out_sets st);
     changed := if decide (old_in ≠ new_in ∨ old_out ≠ new_out) then true
                else changed st |}.

(** One turn of the [while] loop: [changed] is reset, then the blocks are
    visited in reverse order. *)
Definition live_pass (cfg : list (gset nat))
    (used_vars defined_vars : list (gset string))
    (ins outs : list (gset string)) : live_state :=
  fold_left (update_block cfg used_vars defined_vars)
    (reverse (seq 0 (length used_vars))) (mkLive ins outs false).

Fixpoint live_loop (fuel : nat) (cfg : list (gset nat))
    (used_vars defined_vars : list (gset string))
    (ins outs : list (gset string))
  : option (list (gset string) * list (gset string)) :=
  match fuel with
  | 0 => None
  | S fuel' =>
      let st := live_pass cfg used_vars defined_vars ins outs in
      if changed st
      then live_loop fuel' cfg used_vars defined_vars (in_sets st) (out_sets st)
      else Some (in_sets st, out_sets st)
  end.

(** [cfg[i]] and [in_sets[succ]] exist for every block and successor. *)
Definition cfg_ok (n : nat) (cfg : list (gset nat)) : Prop :=
  n ≤ length cfg
  ∧ Forall (λ succs : gset nat, ∀ succ, succ ∈ succs → succ < n) (take n cfg).

Global Instance cfg_ok_dec n cfg : Decision (cfg_ok n cfg).
Proof.
  apply and_dec; [apply _|]. apply Forall_dec. intros succs.
  apply (set_Forall_dec (λ succ, succ < n)).
Defined.

(** Turns of the [while] loop that suffice: every turn but the last adds a
    variable to one of the [2 * n] sets. *)
Definition live_fuel (used_vars : list (gset string)) : nat :=
  S (2 * length used_vars * size (⋃ used_vars)).

(** [_live_variable_analysis]; the first turn of the loop raises when
    [cfg[i]] or [in_sets[succ]] does not exist. *)
Definition _live_variable_analysis (blocks : list block)
    (cfg : list (gset nat)) (valid_vars : gset string)
  : option (list (gset string) * list (gset string)) :=
  let used_vars := (λ b, (use_def valid_vars b).1) <$> blocks in
  let defined_vars := (λ b, (use_def valid_vars b).2) <$> blocks in
  let empty := (λ _, ∅ : gset string) <$> blocks in
  if decide (cfg_ok (length blocks) cfg)
  then live_loop (live_fuel used_vars) cfg used_vars defined_vars empty empty
  else None.

(** The analysis results a [BlockController] holds. *)
Record t : Type := mk {
  quads : list iquad;
  func_entries : list (string * Z);
  func_vars : list (string * gset string);
  func_blocks : list (string * list block);
  func_cfgs : list (string * list (gset nat));
  live_vars : list (string * (list (gset string) * list (gset string)))
}.

(** [__init__] and [_initialize_analysis] *)
Definition _initialize_analysis (set_order : gset string → list string)
    (quads : list iquad) (symbolTable : SymbolTable) : result_of t :=
  let func_entries := _get_function_entry symbolTable in
  func_vars ← _get_function_vars symbolTable func_entries;
  func_blocks ← _split_all_functions set_order quads func_entries;
  func_cfgs ← mapM (M := result_of) (λ '(f_name, blocks),
                cfg ← _build_cfg blocks; mret (f_name, cfg)) func_blocks;
  live_vars ← mapM (M := result_of) (λ '(f_name, blocks),
                cfg ← or_raise KeyError (dict_get f_name func_cfgs);
                vars ← or_raise KeyError (dict_get f_name func_vars);
                sets ← or_raise IndexError
                         (_live_variable_analysis blocks cfg vars);
                mret (f_name, sets)) func_blocks;
  mret (mk quads func_entries func_vars func_blocks func_cfgs live_vars).

(** The function whose entries enclose [index]. *)
Fixpoint enclosing_function (entries : list (string * Z)) (index : Z)
  : option string :=
  match entries with
  | [] => None
  | (fname, start_idx) :: rest =>
      let before_end :=
        match rest with
        | [] => true
        | (_, end_idx) :: _ => (index <? end_idx)%Z
        end in
      if (start_idx <=? index)%Z && before_end then Some fname
      else enclosing_function rest index
  end.

(** [get_scope_by_index]; comparing an entry index with an [index] that is
    not a number fails. *)
Definition get_scope_by_index (self : t) (index : operand)
  : result_of (option string * option nat) :=
  match func_entries self with
  | [] => mret (None, None)
  | _ =>
      match index with
      | OInt index =>
          match enclosing_function (sorted_entries (func_entries self))
                  index with
          | None => mret (None, None)
          | Some func_name =>
              blocks ← or_raise KeyError
                         (dict_get func_name (func_blocks self));
              mret (Some func_name,
                    fst <$> list_find
                      (λ block : block, index ∈ block.*1) blocks)
          end
      | _ => Raise TypeError
      end
  end.

(** [get_funcname_by_entry]: the first function, in the order of the
    entries, whose entry is [entry_idx]. *)
Definition get_funcname_by_entry (self : t) (entry_idx : Z) : option string :=
  fst <$> List.find (λ e : string * Z, (e.2 =? entry_idx)%Z)
            (func_entries self).

End BlockController.

(** ** compiler_aimcodegenerator.py *)

(** *** The emitted lines *)

(** The value after [li]: an integer, or the [True] and [False] that folding
    a comparison yields. *)
Inductive immediate : Type :=
  | ImmInt (z : Z)
  | ImmBool (b : bool).

(** One line of the target code, without its comment. *)
Inductive instr : Type :=
  | Directive (text : string)
  | Blank
  | FuncLabel (func_name : string)
  | BlockLabel (func_name : string) (block_idx : nat)
  | Comment
  | Sw (rt : string) (offset : Z) (base : string)
  | Lw (rt : string) (offset : Z) (base : string)
  | Addi (rt rs : string) (imm : Z)
  | Li (rd : string) (imm : immediate)
  | Op3 (inst rd rs rt : string)
  | Jal (target : operand)
  | J (func_name : string) (block_idx : nat)
  | Bne (rs rt : string) (func_name : string) (block_idx : nat)
  | Jr (rs : string)
  | Syscall.

Global Instance immediate_eq_dec : EqDecision immediate.
Proof. solve_decision. Defined.
Global Instance instr_eq_dec : EqDecision instr.
Proof. solve_decision. Defined.

(** A position [(function, block index, index within the block)]. *)
Abbreviation position := (string * nat * nat)%type.

(** Python's order on such tuples. *)
Definition position_compare (p q : position) : comparison :=
  match String.compare p.1.1 q.1.1 with
  | Eq =>
      match Nat.compare p.1.2 q.1.2 with
      | Eq => Nat.compare p.2 q.2
      | c => c
      end
  | c => c
  end.

Definition position_ltb (p q : position) : bool :=
  match position_compare p q with Lt => true | _ => false end.
Definition position_leb (p q : position) : bool :=
  match position_compare p q with Gt => false | _ => true end.

(** *** [FunctionStackFrame] *)

Module FunctionStackFrame.
Record t : Type := mk {
  name : string;
  old_sp : Z;
  return_addr : Z;
  param_num : nat;
  params : list (string * Z);
  local_num : nat;
  local_vars : list (string * Z * bool)
}.

Definition size (self : t) : Z :=
  4 + 4 * (Z.of_nat (param_num self) + 1)
    + 4 * (Z.of_nat (local_num self) + 1) + 8.

Definition get_var_offset (self : t) (varname : string) : option Z :=
  (λ v : string * Z * bool, v.1.2)
    <$> List.find (λ v : string * Z * bool, String.eqb v.1.1 varname)
          (local_vars self).

Fixpoint set_memflag (varname : string) (is_in_memory : bool)
    (vars : list (string * Z * bool)) : list (string * Z * bool) :=
  match vars with
  | [] => []
  | (name, offset, flag) :: rest =>
      if String.eqb name varname then (name, offset, is_in_memory) :: rest
      else (name, offset, flag) :: set_memflag varname is_in_memory rest
  end.

Definition set_var_memflag (self : t) (varname : string)
    (is_in_memory : bool) : t :=
  mk (name self) (old_sp self) (return_addr self) (param_num self)
     (params self) (local_num self)
     (set_memflag varname is_in_memory (local_vars self)).

Definition if_var_in_memory (self : t) (varname : string) : bool :=
  default false
    ((λ v : string * Z * bool, v.2)
       <$> List.find (λ v : string * Z * bool, String.eqb v.1.1 varname)
             (local_vars self)).
End FunctionStackFrame.

(** *** [FunctionStack] *)

Module FunctionStack.
(** The state of the loop of [build_frame]. *)
Record layout : Type := mkLayout {
  param_num : nat;
  local_num : nat;
  params : list (string * Z);
  local_vars : list (string * Z * bool)
}.

Definition add_symbol (offset : Z) (l : layout) (symbol : Symbol) : layout :=
  match kind symbol with
  | ParameterSymbol =>
      let param_num := S (param_num l) in
      mkLayout param_num (local_num l)
        (params l ++ [(name symbol, -4 * (Z.of_nat param_num + 1) + offset)%Z])
        (local_vars l)
  | VariableSymbol =>
      let local_num := S (local_num l) in
      mkLayout (param_num l) local_num (params l)
        (local_vars l ++
           [(name symbol,
             (-4 * (Z.of_nat (param_num l) + 1)
              - 4 * (Z.of_nat local_num + 1) + offset)%Z,
             false)])
  | _ => l
  end.

(** The frame [build_frame] makes of a scope's symbols. *)
Definition frame_of (func_name : string) (old_sp : Z)
    (symbols : list Symbol) : FunctionStackFrame.t :=
  let l := fold_left (add_symbol (-4)) symbols (mkLayout 0 0 [] []) in
  FunctionStackFrame.mk func_name old_sp 0 (param_num l) (params l)
    (local_num l) (local_vars l).

(** [build_frame]: the new frame and the frames with it appended. *)
Definition build_frame (symbolTable : SymbolTable)
    (frames : list FunctionStackFrame.t) (func_name : string)
  : result_of (FunctionStackFrame.t * list FunctionStackFrame.t) :=
  symbols ← or_raise (AttributeError "symbols")
              (find_scope symbolTable func_name);
  let old_sp := match last frames with
                | Some f => FunctionStackFrame.size f
                | None => 0%Z
                end in
  let frame := frame_of func_name old_sp symbols in
  mret (frame, frames ++ [frame]).

Definition get_frame (frames : list FunctionStackFrame.t) (name : string)
  : option FunctionStackFrame.t :=
  List.find (λ frame, String.eqb (FunctionStackFrame.name frame) name) frames.

(** The frames after a change of the frame that [get_frame] returns: the
    frames are objects, changed in place. *)
Fixpoint set_frame (name : string) (new : FunctionStackFrame.t)
    (frames : list FunctionStackFrame.t) : list FunctionStackFrame.t :=
  match frames with
  | [] => []
  | frame :: rest =>
      if String.eqb (FunctionStackFrame.name frame) name then new :: rest
      else frame :: set_frame name new rest
  end.
End FunctionStack.

(** *** [MemController] *)

Module MemController.
Definition TEMP_REGS : list string :=
  ["$t0"; "$t1"; "$t2"; "$t3"; "$t4"; "$t5"; "$t6"; "$t7"; "$t8"; "$t9"].
Definition SAVE_REGS : list string :=
  ["$s0"; "$s1"; "$s2"; "$s3"; "$s4"; "$s5"; "$s6"; "$s7"].
Definition ARG_REGS : list string := ["$a0"; "$a1"; "$a2"; "$a3"].
Definition RET_REG : list string := ["$v0"; "$v1"].

Definition varregs : list string := TEMP_REGS ++ SAVE_REGS.
Definition pararegs : list string := ARG_REGS.
Definition retregs : list string := RET_REG.
Definition spreg : string := "$sp".
Definition rareg : string := "$ra".
Definition valregs : list string := varregs.

(** The part of the controller that changes, and the frames of the
    [FunctionStack] it shares with the code generator. *)
Record t : Type := mk {
  rvalues : list ((string * operand) * string);
  usedregs : gset string;
  var_use_pos : list (string * list position);
  function_stack : list FunctionStackFrame.t
}.

Definition init (var_use_pos : list (string * list position)) : t :=
  mk [] ∅ var_use_pos [].

Definition get_live_vars_after (self : t) (cur_pos : position)
  : list string :=
  let func_name := cur_pos.1.1 in
  omap (λ '(var, use_list),
    if negb (String.eqb var "$ret_reg")
       && dict_mem (func_name, OStr var) (rvalues self)
       && existsb (λ pos : position,
            String.eqb pos.1.1 func_name && position_ltb cur_pos pos)
            use_list
    then Some var else None) (var_use_pos self).

(** [var_use_pos.get(alloc_var, [])] *)
Definition use_list_of (self : t) (alloc_var : operand) : list position :=
  match alloc_var with
  | OStr v => default [] (dict_get v (var_use_pos self))
  | _ => []
  end.

(** The loop of [alloc_reg] that looks for the victim. *)
Fixpoint scan_victim (self : t) (cur_pos : position)
    (bindings : list ((string * operand) * string))
    (victim : option (string * operand)) (farthest_next : option position)
  : option (string * operand) :=
  match bindings with
  | [] => victim
  | ((alloc_func, alloc_var), _) :: rest =>
      match List.find (position_leb cur_pos) (use_list_of self alloc_var) with
      | None => Some (alloc_func, alloc_var)
      | Some next_use =>
          if match farthest_next with
             | None => true
             | Some farthest => position_ltb farthest next_use
             end
          then scan_victim self cur_pos rest (Some (alloc_func, alloc_var))
                 (Some next_use)
          else scan_victim self cur_pos rest victim farthest_next
      end
  end.

Definition select_victim (self : t) (cur_pos : position)
  : option (string * operand) :=
  scan_victim self cur_pos (rvalues self) None None.

(** The spill of the victim: the frames and the code after it. *)
Definition spill (self : t) (cur_pos : position)
    (victim_func : string) (victim_var : operand) (reg : string)
    (code : list instr) : list FunctionStackFrame.t * list instr :=
  let func_name := cur_pos.1.1 in
  let unchanged := (function_stack self, code) in
  match victim_var with
  | OStr victim =>
      if String.eqb victim_func func_name
         && bool_decide (victim ∈ get_live_vars_after self cur_pos)
      then
        match FunctionStack.get_frame (function_stack self) victim_func with
        | Some frame =>
            match FunctionStackFrame.get_var_offset frame victim with
            | Some offset =>
                (FunctionStack.set_frame victim_func
                   (FunctionStackFrame.set_var_memflag frame victim true)
                   (function_stack self),
                 code ++ [Sw reg offset spreg])
            | None => unchanged
            end
        | None => unchanged
        end
      else unchanged
  | _ => unchanged
  end.

(** [alloc_reg]: the register, the controller and the code afterwards. *)
Definition alloc_reg (self : t) (varname : operand) (cur_pos : position)
    (code : list instr) : result_of (string * t * list instr) :=
  let func_name := cur_pos.1.1 in
  let key := (func_name, varname) in
  match dict_get key (rvalues self) with
  | Some reg => mret (reg, self, code)
  | None =>
      match filter (λ r, r ∉ usedregs self) valregs with
      | reg :: _ =>
          mret (reg,
                mk (dict_set key reg (rvalues self))
                   ({[reg]} ∪ usedregs self)
                   (var_use_pos self) (function_stack self),
                code)
      | [] =>
          '(victim_func, victim_var) ←
             or_raise KeyError (select_victim self cur_pos);
          reg ← or_raise KeyError
                  (dict_get (victim_func, victim_var) (rvalues self));
          let '(frames, code) :=
            spill self cur_pos victim_func victim_var reg code in
          mret (reg,
                mk (dict_set key reg
                      (dict_del (victim_func, victim_var) (rvalues self)))
                   ({[reg]} ∪ (usedregs self ∖ {[reg]}))
                   (var_use_pos self) frames,
                code)
      end
  end.
End MemController.

(** *** [AimCodeGenerator] *)

Module AimCodeGenerator.
(** What [generate_code] changes: the controller (with the frames), the
    labels and the code. *)
Record t : Type := mk {
  mem_controller : MemController.t;
  labels : list (string * list (string * nat));
  code : list instr
}.

(** What one field of a quadruple adds to the use positions. *)
Definition add_use (pos : position)
    (var_use_pos : list (string * list position)) (operand : operand)
  : list (string * list position) :=
  match operand with
  | OStr var =>
      if truthy operand
      then dict_set var (default [] (dict_get var var_use_pos) ++ [pos])
             var_use_pos
      else var_use_pos
  | _ => var_use_pos
  end.

(** [build_var_use_pos]: the positions of every name, in the order of the
    first use of the names. *)
Definition build_var_use_pos (func_blocks : list (string * list block))
  : list (string * list position) :=
  fold_left (λ var_use_pos (f : string * list block),
    fold_left (λ var_use_pos (b : nat * block),
      fold_left (λ var_use_pos (q : nat * iquad),
        fold_left (add_use (f.1, b.1, q.1))
          [arg1 q.2.2; arg2 q.2.2; result q.2.2] var_use_pos)
        (enumerate b.2) var_use_pos)
      (enumerate f.2) var_use_pos)
    func_blocks [].

(** [__init__] *)
Definition init (block_controller : BlockController.t) : t :=
  mk (MemController.init
        (build_var_use_pos (BlockController.func_blocks block_controller)))
     [] [].

(** *** The characters of a [str]

    A Python [str] is a sequence of code points; the strings of this
    development are their UTF-8 encodings.  [chars] gives the characters of a
    string in order, each with its code point and its own encoding.  Bytes
    that are not well-formed UTF-8 encode no character of a [str]; they are
    passed over. *)
Definition byte_of (c : ascii) : Z := Z.of_N (N_of_ascii c).

(** A sequence that has been begun: the continuation bytes still to come
    after the next one, the bits read so far, the bytes read so far, and the
    least code point that an encoding of this length may give. *)
Record pending : Type := mkPending {
  to_come : nat;
  bits : Z;
  raw : string;
  least : Z
}.

(** The first byte of a character: a character of its own, the beginning of
    a longer sequence, or neither. *)
Definition lead (c : ascii) : (Z * string) + option pending :=
  let b := byte_of c in
  if (b <? 0x80)%Z then inl (b, String c EmptyString)
  else if (0xC2 <=? b)%Z && (b <=? 0xDF)%Z
  then inr (Some (mkPending 0 (b - 0xC0) (String c EmptyString) 0x80))
  else if (0xE0 <=? b)%Z && (b <=? 0xEF)%Z
  then inr (Some (mkPending 1 (b - 0xE0) (String c EmptyString) 0x800))
  else if (0xF0 <=? b)%Z && (b <=? 0xF4)%Z
  then inr (Some (mkPending 2 (b - 0xF0) (String c EmptyString) 0x10000))
  else inr None.

(** A code point that an encoding of the given least value may give: not
    an overlong form, not a surrogate, not beyond U+10FFFF. *)
Definition scalar (least code : Z) : bool :=
  (least <=? code)%Z && (code <=? 0x10FFFF)%Z
  && negb ((0xD800 <=? code)%Z && (code <=? 0xDFFF)%Z).

Fixpoint chars_from (p : option pending) (s : string) : list (Z * string) :=
  match s with
  | EmptyString => []
  | String c s' =>
      let b := byte_of c in
      let fresh :=
        match lead c with
        | inl char => char :: chars_from None s'
        | inr p' => chars_from p' s'
        end in
      match p with
      | Some p =>
          if (0x80 <=? b)%Z && (b <=? 0xBF)%Z then
            let code := (bits p * 64 + (b - 0x80))%Z in
            let raw := raw p +:+ String c EmptyString in
            match to_come p with
            | 0 =>
                if scalar (least p) code
                then (code, raw) :: chars_from None s'
                else chars_from None s'
            | S n => chars_from (Some (mkPending n code raw (least p))) s'
            end
          else fresh
      | None => fresh
      end
  end.

Definition chars (s : string) : list (Z * string) := chars_from None s.

(** The decimal digits of Unicode (general category Nd, the characters that
    [int] accepts as digits): each entry is the code point of a zero, and
    the nine code points after it are the digits 1 to 9 of the same script.
    The table is that of Unicode 14.0, the version that CPython 3.11
    carries. *)
Definition decimal_zeros : list Z :=
  [
   0x30; 0x660; 0x6F0; 0x7C0; 0x966; 0x9E6; 0xA66; 0xAE6;
   0xB66; 0xBE6; 0xC66; 0xCE6; 0xD66; 0xDE6; 0xE50; 0xED0;
   0xF20; 0x1040; 0x1090; 0x17E0; 0x1810; 0x1946; 0x19D0; 0x1A80;
   0x1A90; 0x1B50; 0x1BB0; 0x1C40; 0x1C50; 0xA620; 0xA8D0; 0xA900;
   0xA9D0; 0xA9F0; 0xAA50; 0xABF0; 0xFF10; 0x104A0; 0x10D30; 0x11066;
   0x110F0; 0x11136; 0x111D0; 0x112F0; 0x11450; 0x114D0; 0x11650; 0x116C0;
   0x11730; 0x118E0; 0x11950; 0x11C50; 0x11D50; 0x11DA0; 0x16A60; 0x16AC0;
   0x16B50; 0x1D7CE; 0x1D7D8; 0x1D7E2; 0x1D7EC; 0x1D7F6; 0x1E140; 0x1E2F0;
   0x1E950; 0x1FBF0
  ]%Z.

(** The other characters that [str.isdigit] accepts (numeric type Digit:
    superscripts, subscripts, circled and parenthesized digits and the
    like), as ranges of code points.  [int] rejects them. *)
Definition other_digits : list (Z * Z) :=
  [
   (0xB2, 0xB3); (0xB9, 0xB9); (0x1369, 0x1371); (0x19DA, 0x19DA);
   (0x2070, 0x2070); (0x2074, 0x2079); (0x2080, 0x2089); (0x2460, 0x2468);
   (0x2474, 0x247C); (0x2488, 0x2490); (0x24EA, 0x24EA); (0x24F5, 0x24FD);
   (0x24FF, 0x24FF); (0x2776, 0x277E); (0x2780, 0x2788); (0x278A, 0x2792);
   (0x10A40, 0x10A43); (0x10E60, 0x10E68); (0x11052, 0x1105A); (0x1F100, 0x1F10A)
  ]%Z.

(** [int(c)] on one character: its value if it is a decimal digit. *)
Definition int_of_char (code : Z) : option nat :=
  (λ zero, Z.to_nat (code - zero))
    <$> List.find (λ zero, (zero <=? code)%Z && (code <=? zero + 9)%Z)
          decimal_zeros.

(** [c.isdigit()] *)
Definition isdigit (code : Z) : bool :=
  bool_decide (is_Some (int_of_char code))
  || existsb (λ r : Z * Z, (r.1 <=? code)%Z && (code <=? r.2)%Z) other_digits.

(** [next((int(c) for c in result if c.isdigit()), None)] on a string: the
    value of the first character that [isdigit] accepts; [int] raises a
    [ValueError] when that character is not a decimal digit. *)
Definition first_digit (s : string) : result_of (option nat) :=
  match List.find (λ c : Z * string, isdigit c.1) (chars s) with
  | None => Ok None
  | Some (code, raw) =>
      match int_of_char code with
      | Some n => Ok (Some n)
      | None =>
          Raise (ValueError
                   ("invalid literal for int() with base 10: '" +:+ raw
                      +:+ "'"))
      end
  end.

(** The entries of [op_info]: the instruction of an operator. *)
Definition op_inst (op : string) : option string :=
  if String.eqb op "+" then Some "add"
  else if String.eqb op "-" then Some "sub"
  else if String.eqb op "*" then Some "mul"
  else if String.eqb op "/" then Some "div"
  else if String.eqb op "<" then Some "slt"
  else if String.eqb op "<=" then Some "sle"
  else if String.eqb op ">" then Some "sgt"
  else if String.eqb op ">=" then Some "sge"
  else if String.eqb op "==" then Some "seq"
  else if String.eqb op "!=" then Some "sne"
  else None.

(** The [calc] entry of an operator, on two constants. *)
Definition calc (op : string) (a b : Z) : immediate :=
  if String.eqb op "+" then ImmInt (a + b)
  else if String.eqb op "-" then ImmInt (a - b)
  else if String.eqb op "*" then ImmInt (a * b)
  else if String.eqb op "/" then ImmInt (a `div` b)
  else if String.eqb op "<" then ImmBool (a <? b)%Z
  else if String.eqb op "<=" then ImmBool (a <=? b)%Z
  else if String.eqb op ">" then ImmBool (b <? a)%Z
  else if String.eqb op ">=" then ImmBool (b <=? a)%Z
  else if String.eqb op "==" then ImmBool (a =? b)%Z
  else ImmBool (negb (a =? b)%Z).

(** [alloc_reg] on the controller and the local list [code] of
    [quad_to_code]. *)
Definition alloc (varname : operand) (cur_pos : position)
    (st : MemController.t * list instr)
  : result_of (string * (MemController.t * list instr)) :=
  '(reg, mc, code) ← MemController.alloc_reg st.1 varname cur_pos st.2;
  mret (reg, (mc, code)).

(** [rvalues[key] = reg] *)
Definition set_rvalue (key : string * operand) (reg : string)
    (mc : MemController.t) : MemController.t :=
  MemController.mk (dict_set key reg (MemController.rvalues mc))
    (MemController.usedregs mc) (MemController.var_use_pos mc)
    (MemController.function_stack mc).

(** The frame of the current function, looked up when it is used: the
    allocator may have set a flag in it meanwhile. *)
Definition frame_of (mc : MemController.t) (func_name : string)
  : option FunctionStackFrame.t :=
  FunctionStack.get_frame (MemController.function_stack mc) func_name.

(** [lw] of a variable that is marked as being in memory. *)
Definition reload (mc : MemController.t) (func_name var reg : string)
  : list instr :=
  match frame_of mc func_name with
  | Some frame =>
      if FunctionStackFrame.if_var_in_memory frame var
      then match FunctionStackFrame.get_var_offset frame var with
           | Some offset => [Lw reg offset MemController.spreg]
           | None => []
           end
      else []
  | None => []
  end.

(** The [param] branch.  Iterating over a result that is not a string
    fails with a [TypeError].  [ErrorCode] has no member
    [InvalidParamRegisterFormat]: building the first exception fails with an
    [AttributeError]. *)
Definition param_to_code (quad : Quadruple) (cur_pos : position)
    (mc : MemController.t) : result_of (MemController.t * list instr) :=
  match result quad with
  | OStr res =>
      param_num ← first_digit res;
      match param_num with
      | None | Some 0 => Raise (AttributeError "InvalidParamRegisterFormat")
      | Some param_num =>
          if 4 <? param_num then
            Raise (ErrorException
              ("参数寄存器 " +:+ res
                 +:+ " 超出范围 (当前仅支持至多4个参数传递)")
              ErrorCode.PARAM_LIMIT None None)
          else
            target_reg ← or_raise IndexError
              (MemController.pararegs !! (param_num - 1));
            let key := ("param" +:+ pretty param_num, arg1 quad) in
            match arg1 quad with
            | OStr _ =>
                '(src_reg, (mc, code)) ← alloc (arg1 quad) cur_pos (mc, []);
                mret (set_rvalue key target_reg mc,
                      code ++ [Op3 "add" target_reg src_reg "$zero"])
            | OInt z =>
                mret (set_rvalue key target_reg mc,
                      [Li target_reg (ImmInt z)])
            | ONone =>
                Raise (ErrorException
                  ("无效的参数类型: " +:+ str (arg1 quad))
                  ErrorCode.GENERAL_ERROR None
                  (Some "参数只能是变量名或立即数"))
            end
      end
  | _ => Raise TypeError
  end.

(** The stores or loads of the live variables that have a slot. *)
Definition live_slots (line : string → Z → string → instr)
    (mc : MemController.t) (frame : option FunctionStackFrame.t)
    (func_name : string) (live_vars : list string) : list instr :=
  omap (λ var,
    offset ← frame ≫= λ frame, FunctionStackFrame.get_var_offset frame var;
    Some (line
            (default "None"
               (dict_get (func_name, OStr var) (MemController.rvalues mc)))
            offset MemController.spreg)) live_vars.

(** The [call] branch. *)
Definition call_to_code (quad : Quadruple) (cur_pos : position)
    (mc : MemController.t) : list instr :=
  let func_name := cur_pos.1.1 in
  let frame := frame_of mc func_name in
  let live_vars := MemController.get_live_vars_after mc cur_pos in
  [Comment]
  ++ live_slots Sw mc frame func_name live_vars
  ++ match frame with
     | Some frame =>
         [Sw MemController.spreg (- FunctionStackFrame.size frame)
            MemController.spreg;
          Addi MemController.spreg MemController.spreg
            (- FunctionStackFrame.size frame);
          Sw MemController.rareg (-4) MemController.spreg]
     | None => []
     end
  ++ [Jal (arg1 quad)]
  ++ [Lw MemController.rareg (-4) MemController.spreg]
  ++ match frame with
     | Some frame =>
         [Addi MemController.spreg MemController.spreg
            (FunctionStackFrame.size frame)]
         ++ live_slots Lw mc (Some frame) func_name live_vars
     | None => []
     end.

(** The branch of the arithmetic and relational operators. *)
Definition binop_to_code (inst : string) (quad : Quadruple)
    (cur_pos : position) (mc : MemController.t)
  : result_of (MemController.t * list instr) :=
  let func_name := cur_pos.1.1 in
  '(result_reg, st) ← alloc (result quad) cur_pos (mc, []);
  match arg1 quad, arg2 quad with
  | OInt a, OInt b =>
      if String.eqb (op quad) "/" && (b =? 0)%Z
      then Raise (ValueError "Division by zero")
      else mret (st.1, st.2 ++ [Li result_reg (calc (op quad) a b)])
  | OStr var, OInt const | OInt const, OStr var =>
      let is_var_first :=
        match arg1 quad with OStr _ => true | _ => false end in
      if String.eqb (op quad) "/" && is_var_first && (const =? 0)%Z
      then Raise (ValueError "除0异常: 除数不能为0")
      else
        '(var_reg, (mc, code)) ← alloc (OStr var) cur_pos st;
        mret (mc,
              code ++ reload mc func_name var var_reg
              ++ [Li result_reg (ImmInt const)]
              ++ [if is_var_first
                  then Op3 inst result_reg var_reg result_reg
                  else Op3 inst result_reg result_reg var_reg])
  | OStr v1, OStr v2 =>
      '(reg1, st) ← alloc (OStr v1) cur_pos st;
      '(reg2, (mc, code)) ← alloc (OStr v2) cur_pos st;
      mret (mc,
            code ++ reload mc func_name v1 reg1
            ++ reload mc func_name v2 reg2
            ++ [Op3 inst result_reg reg1 reg2])
  | _, _ =>
      Raise (ValueError
        ("Unsupported operands for " +:+ op quad +:+ ": "
           +:+ str (arg1 quad) +:+ ", " +:+ str (arg2 quad)))
  end.

Section quad_to_code.
Variable block_controller : BlockController.t.

(** The target of a [j] or [jnz]. *)
Definition jump_target (quad : Quadruple) : result_of (string * nat) :=
  scope ← BlockController.get_scope_by_index block_controller (result quad);
  match scope with
  | (Some func_name_jmp, Some block_idx) => mret (func_name_jmp, block_idx)
  | _ =>
      Raise (ValueError
        ("Jump target " +:+ str (result quad) +:+ " not found"))
  end.

(** The [=] branch. *)
Definition assign_to_code (quad : Quadruple) (cur_pos : position)
    (mc : MemController.t) : result_of (MemController.t * list instr) :=
  let func_name := cur_pos.1.1 in
  match arg1 quad with
  | OInt z =>
      '(reg, (mc, code)) ← alloc (result quad) cur_pos (mc, []);
      mret (mc, code ++ [Li reg (ImmInt z)])
  | OStr a =>
      if String.eqb a "$ret_reg" then
        '(result_reg, (mc, code)) ← alloc (result quad) cur_pos (mc, []);
        mret (mc, code ++ [Op3 "add" result_reg "$v0" "$zero"])
      else
        '(reg, (mc, code)) ← alloc (arg1 quad) cur_pos (mc, []);
        let code := code ++ reload mc func_name a reg in
        '(result_reg, (mc, code)) ← alloc (result quad) cur_pos (mc, code);
        mret (mc, code ++ [Op3 "add" result_reg reg "$zero"])
  | ONone =>
      Raise (ValueError
        ("Unsupported assignment: " +:+ str (arg1 quad) +:+ " to "
           +:+ str (result quad)))
  end.

(** The [RETURN] branch. *)
Definition return_to_code (index : Z) (quad : Quadruple)
    (cur_pos : position) (mc : MemController.t)
  : result_of (MemController.t * list instr) :=
  scope ← BlockController.get_scope_by_index block_controller (OInt index);
  if bool_decide (scope.1 = Some "main") then
    mret (mc, [Li "$v0" (ImmInt 10); Syscall; Blank])
  else
    match arg1 quad with
    | OStr _ =>
        '(reg, (mc, code)) ← alloc (arg1 quad) cur_pos (mc, []);
        mret (mc, code ++ [Op3 "add" "$v0" reg "$zero"; Jr "$ra"; Blank])
    | OInt z => mret (mc, [Li "$v0" (ImmInt z); Jr "$ra"; Blank])
    | ONone => mret (mc, [Jr "$ra"; Blank])
    end.

(** [quad_to_code]: the controller afterwards and the lines of the
    quadruple. *)
Definition quad_to_code (quad_with_index : iquad) (cur_pos : position)
    (mc : MemController.t) : result_of (MemController.t * list instr) :=
  let '(index, quad) := quad_with_index in
  if String.eqb (op quad) "param" then param_to_code quad cur_pos mc
  else if String.eqb (op quad) "call"
  then mret (mc, call_to_code quad cur_pos mc)
  else
    match op_inst (op quad) with
    | Some inst => binop_to_code inst quad cur_pos mc
    | None =>
        if String.eqb (op quad) "j" then
          '(func_name_jmp, block_idx) ← jump_target quad;
          mret (mc, [J func_name_jmp block_idx])
        else if String.eqb (op quad) "jnz" then
          '(reg, (mc, code)) ← alloc (arg1 quad) cur_pos (mc, []);
          '(func_name_jmp, block_idx) ← jump_target quad;
          mret (mc, code ++ [Bne reg "$zero" func_name_jmp block_idx])
        else if String.eqb (op quad) "=" then assign_to_code quad cur_pos mc
        else if String.eqb (op quad) "RETURN"
        then return_to_code index quad cur_pos mc
        else mret (mc, [])
    end.

(** The inner loop of the prologue: the first binding made under
    [param<i+1>] goes to the parameter's name. *)
Definition rebase_param (func_name : string) (mc : MemController.t)
    (p : nat * (string * Z)) : MemController.t :=
  match List.find
          (λ b : (string * operand) * string,
             String.eqb b.1.1 ("param" +:+ pretty (p.1 + 1)))
          (MemController.rvalues mc) with
  | Some (key, temp) =>
      MemController.mk
        (dict_del key
           (dict_set (func_name, OStr p.2.1) temp (MemController.rvalues mc)))
        (MemController.usedregs mc) (MemController.var_use_pos mc)
        (MemController.function_stack mc)
  | None => mc
  end.

(** The lines of one block. *)
Definition block_to_code (func_name : string) (block_idx : nat)
    (block : block) (st : MemController.t * list instr)
  : result_of (MemController.t * list instr) :=
  foldlM (λ '(mc, code) '(q_idx, quad),
    '(mc, code_lines) ← quad_to_code quad (func_name, block_idx, q_idx) mc;
    mret (mc, code ++ code_lines)) st (enumerate block).

(** The body of the loop of [generate_code] over the functions. *)
Definition function_to_code (symbolTable : SymbolTable) (self : t)
    (f : string * list block) : result_of t :=
  let '(func_name, blocks) := f in
  let mc := mem_controller self in
  '(frame, frames) ←
     FunctionStack.build_frame symbolTable
       (MemController.function_stack mc) func_name;
  let mc := MemController.mk (MemController.rvalues mc)
              (MemController.usedregs mc) (MemController.var_use_pos mc)
              frames in
  let mc := fold_left (rebase_param func_name)
              (enumerate (FunctionStackFrame.params frame)) mc in
  '(mc, code) ←
     foldlM (λ '(mc, code) '(block_idx, block),
       block_to_code func_name block_idx block
         (mc, code ++ [BlockLabel func_name block_idx]))
       (mc, code self ++ [FuncLabel func_name]) (enumerate blocks);
  mret (mk mc
          (dict_set func_name
             ((λ b : nat * block, (func_name, b.1)) <$> enumerate blocks)
             (labels self))
          code).

(** [generate_code] *)
Definition generate_code (symbolTable : SymbolTable) (self : t)
  : result_of t :=
  let self := mk (mem_controller self) (labels self)
                (code self ++ [Directive ".data"; Blank; Directive ".text";
                               Directive ".globl main"; Blank]) in
  foldlM (function_to_code symbolTable) self
    (BlockController.func_blocks block_controller).
End quad_to_code.

(** The whole back end: [AimCodeGenerator(quads, symbolTable)] followed by
    [generate_code()]. *)
Definition compile (set_order : gset string → list string)
    (quads : list iquad) (symbolTable : SymbolTable) : result_of t :=
  block_controller ←
    BlockController._initialize_analysis set_order quads symbolTable;
  generate_code block_controller symbolTable (init block_controller).
End AimCodeGenerator.

(** ** The specification's notions *)

(** Every [j] and [jnz] has been backpatched. *)
Definition jumps_resolved (quads : list iquad) : Prop :=
  Forall (λ iq : iquad,
    BlockController.is_jump iq.2 = true → result iq.2 ≠ ONone) quads.

(** A leader, in the words of the specification: the first instruction, the
    target of a jump of the slice, or the instruction after a jump. *)
Definition is_leader (quads : list iquad) (p : nat) : Prop :=
  p < length quads ∧
  (p = 0
   ∨ (∃ j i q t q', quads !! j = Some (i, q) ∧ BlockController.is_jump q = true
        ∧ result q = OInt t ∧ quads !! p = Some (t, q'))
   ∨ (∃ j i q, quads !! j = Some (i, q) ∧ BlockController.is_jump q = true
        ∧ p = j + 1)).

(** Block [bt] holds the quadruple of index [t]. *)
Definition block_containing (blocks : list block) (t : Z) (bt : nat) : Prop :=
  ∃ b, blocks !! bt = Some b ∧ t ∈ b.*1.

(** The variable [v] is read by the quadruple. *)
Definition reads (quad : Quadruple) (v : string) : Prop :=
  arg1 quad = OStr v ∨ arg2 quad = OStr v.

(** [used] and [defined] of a block, in the words of the specification: the
    variables of the valid set that are read in the block before being
    written in it, and those that are written anywhere in it.  A variable is
    a name that is not empty. *)
Definition read_before_written (valid_vars : gset string) (blk : block)
    (v : string) : Prop :=
  v ∈ valid_vars ∧ v ≠ ""
  ∧ ∃ k iq, blk !! k = Some iq ∧ reads iq.2 v
      ∧ ∀ j iq', j < k → blk !! j = Some iq' → result iq'.2 ≠ OStr v.

Definition written_in (valid_vars : gset string) (blk : block) (v : string)
  : Prop :=
  v ∈ valid_vars ∧ v ≠ "" ∧ ∃ iq, iq ∈ blk ∧ result iq.2 = OStr v.

(** The equations of liveness, in the words of the specification:
    [OUT[i] = ∪ IN[succ]] and [IN[i] = used[i] ∪ (OUT[i] − defined[i])]. *)
Definition liveness_equations (blocks : list block) (cfg : list (gset nat))
    (valid_vars : gset string) (ins outs : list (gset string)) : Prop :=
  ∀ i blk, blocks !! i = Some blk →
    (∀ v, v ∈ outs !!! i ↔ ∃ succ, succ ∈ cfg !!! i ∧ v ∈ ins !!! succ)
    ∧ (∀ v, v ∈ ins !!! i ↔
         read_before_written valid_vars blk v
         ∨ (v ∈ outs !!! i ∧ ¬ written_in valid_vars blk v)).

(** The quadruple is a [call]. *)
Definition is_call (iq : iquad) : Prop := op iq.2 = "call".

Global Instance is_call_dec iq : Decision (is_call iq).
Proof. unfold is_call. apply _. Defined.

(** The parameters and the locals of a scope, in the order of their
    declaration. *)
Definition parameters (symbols : list Symbol) : list string :=
  omap (λ s, match kind s with
             | ParameterSymbol => Some (name s)
             | _ => None
             end) symbols.

Definition locals (symbols : list Symbol) : list string :=
  omap (λ s, match kind s with
             | VariableSymbol => Some (name s)
             | _ => None
             end) symbols.



(** All the slots of a frame. *)
Definition frame_offsets (frame : FunctionStackFrame.t) : list Z :=
  (FunctionStackFrame.params frame).*2
  ++ ((λ v : string * Z * bool, v.1.2) <$> FunctionStackFrame.local_vars frame).

(** The names of the local slots of a frame. *)
Definition local_names (frame : FunctionStackFrame.t) : list string :=
  (λ v : string * Z * bool, v.1.1) <$> FunctionStackFrame.local_vars frame.

(** No register of the pool is free. *)
Definition pool_exhausted (self : MemController.t) : Prop :=
  filter (λ r, r ∉ MemController.usedregs self) MemController.valregs = [].

(** The [k]-th argument register, counted from 1. *)
Definition argument_register (k : nat) : string := "$a" +:+ pretty (k - 1).

(** The exception is one of the compiler's own, with an error code. *)
Definition is_ErrorException (e : exn) : Prop :=
  match e with ErrorException _ _ _ _ => True | _ => False end.

(** The registers and slots that a call saves: for every local of the
    caller that is in a register, has a slot, and is used again later in the
    caller. *)
Definition saved_slots (mc : MemController.t) (frame : FunctionStackFrame.t)
    (cur_pos : position) : list (string * Z) :=
  omap (λ var,
    offset ← FunctionStackFrame.get_var_offset frame var;
    Some (default "None"
            (dict_get (cur_pos.1.1, OStr var) (MemController.rvalues mc)),
          offset))
    (MemController.get_live_vars_after mc cur_pos).

(** ** Sample programs and states *)

(** A slice with a conditional: [if x { x = 3 }]. *)
Definition sample_slice : list iquad :=
  [ (3, mkQuad "=" (OInt 1) ONone (OStr "x"));
    (4, mkQuad "jnz" (OStr "x") ONone (OInt 6));
    (5, mkQuad "j" ONone ONone (OInt 7));
    (6, mkQuad "=" (OInt 3) ONone (OStr "x"));
    (7, mkQuad "RETURN" ONone ONone (OStr "$ret_reg")) ]%Z.

(** [if c { return; } x = 1;], a function that ends without a [RETURN]. *)
Definition early_return : list iquad :=
  [ (1, mkQuad "jnz" (OStr "c") ONone (OInt 3));
    (2, mkQuad "j" ONone ONone (OInt 4));
    (3, mkQuad "RETURN" ONone ONone (OStr "$ret_reg"));
    (4, mkQuad "=" (OInt 1) ONone (OStr "x")) ]%Z.

(** [main] calls [f(x, 2)]; [f] is [fn f(a, b) { a + b }]. *)
Definition two_functions : list iquad :=
  [ (1, mkQuad "+" (OStr "a") (OStr "b") (OStr "t1"));
    (2, mkQuad "RETURN" (OStr "t1") ONone (OStr "$ret_reg"));
    (3, mkQuad "=" (OInt 1) ONone (OStr "x"));
    (4, mkQuad "param" (OStr "x") ONone (OStr "param_1"));
    (5, mkQuad "param" (OInt 2) ONone (OStr "param_2"));
    (6, mkQuad "call" (OStr "f") (OInt 2) ONone);
    (7, mkQuad "=" (OStr "$ret_reg") ONone (OStr "t2"));
    (8, mkQuad "+" (OStr "x") (OStr "t2") (OStr "x"));
    (9, mkQuad "RETURN" ONone ONone (OStr "$ret_reg")) ]%Z.

Definition two_functions_symbols : SymbolTable :=
  mkSymbolTable
    [mkSymbol "f" (FunctionSymbol (Some 1%Z));
     mkSymbol "main" (FunctionSymbol (Some 3%Z))]
    [("f", [mkSymbol "a" ParameterSymbol; mkSymbol "b" ParameterSymbol]);
     ("main", [mkSymbol "x" VariableSymbol])].

(** A scope of two parameters and two locals. *)
Definition sample_scope : list Symbol :=
  [mkSymbol "a" ParameterSymbol; mkSymbol "b" ParameterSymbol;
   mkSymbol "x" VariableSymbol; mkSymbol "y" VariableSymbol].

(** [fn f(a) { ... }] with eighteen locals [v0] ... [v17] in the registers of
    the pool, each used once more, and the parameter [a] in [$a0], used last
    of all. *)
Definition crowded_scope : list Symbol :=
  mkSymbol "a" ParameterSymbol
  :: ((λ i, mkSymbol ("v" +:+ pretty i) VariableSymbol) <$> seq 0 18).

Definition crowded : MemController.t :=
  MemController.mk
    ((("f", OStr "a"), "$a0")
     :: imap (λ i r, (("f", OStr ("v" +:+ pretty i)), r)) MemController.varregs)
    (list_to_set MemController.varregs)
    (("a", [("f", 0, 0); ("f", 0, 30)])
     :: ((λ i, ("v" +:+ pretty i, [("f", 0, 2 + i)])) <$> seq 0 18))
    [FunctionStack.frame_of "f" 0 crowded_scope].

(** [main] holds eighteen variables in the registers of the pool, passes the
    constant 5 to [f], and then assigns a nineteenth variable [w] while all
    the others are still to be used. *)
Definition nineteen_variables : list iquad :=
  [ (1%Z, mkQuad "RETURN" (OStr "a") ONone (OStr "$ret_reg")) ]
  ++ imap (λ i _, (Z.of_nat (2 + i),
                   mkQuad "=" (OInt (Z.of_nat i)) ONone
                     (OStr ("v" +:+ pretty i)))) (replicate 18 ())
  ++ [ (20%Z, mkQuad "param" (OInt 5) ONone (OStr "param_1"));
       (21%Z, mkQuad "call" (OStr "f") (OInt 1) ONone);
       (22%Z, mkQuad "=" (OInt 7) ONone (OStr "w")) ]
  ++ imap (λ i _, (Z.of_nat (23 + i),
                   mkQuad "+" (OStr ("v" +:+ pretty i)) (OStr "w")
                     (OStr "w"))) (replicate 18 ())
  ++ [ (41%Z, mkQuad "RETURN" ONone ONone (OStr "$ret_reg")) ].

Definition nineteen_variables_symbols : SymbolTable :=
  mkSymbolTable
    [mkSymbol "f" (FunctionSymbol (Some 1%Z));
     mkSymbol "main" (FunctionSymbol (Some 2%Z))]
    [("f", [mkSymbol "a" ParameterSymbol]);
     ("main",
      ((λ i, mkSymbol ("v" +:+ pretty i) VariableSymbol) <$> seq 0 18)
      ++ [mkSymbol "w" VariableSymbol])].

(** The controller when [main] of [two_functions] reaches its call: [x] is
    in [$t0] and is used again after the call. *)
Definition at_call : MemController.t :=
  MemController.mk [(("main", OStr "x"), "$t0")] {["$t0"]}
    [("x", [("main", 0, 0); ("main", 0, 1); ("main", 0, 5)])]
    [FunctionStack.frame_of "main" 0 [mkSymbol "x" VariableSymbol]].

(** The controller after [param 5] has been emitted for a call of [f]. *)
Definition after_param : MemController.t :=
  MemController.mk [(("param1", OInt 5), "$a0")] ∅ [] [].

(** ** compiler_app.py: the caller of the back end *)

(** [quads_with_idx] of [analyze_code]: the quadruples of the checker with
    their positions. *)
Definition quads_with_idx (quads : list Quadruple) : list iquad :=
  imap (λ i quad, (Z.of_nat i, quad)) quads.

(** [AimCodeGenerator(quads_with_idx[1:], symbolTable)] followed by
    [generate_code()], as [analyze_code] runs them. *)
Definition analyze_code (set_order : gset string → list string)
    (quads : list Quadruple) (symbolTable : SymbolTable)
  : result_of AimCodeGenerator.t :=
  AimCodeGenerator.compile set_order (drop 1 (quads_with_idx quads))
    symbolTable.

(** ** Notions used by the further properties *)

(** The name [v] is an operand or the result of the quadruple. *)
Definition mentions (quad : Quadruple) (v : string) : Prop :=
  arg1 quad = OStr v ∨ arg2 quad = OStr v ∨ result quad = OStr v.

(** [I] and [O] are closed under the equations of liveness: they hold at
    least what the equations ask of them. *)
Definition liveness_closed (cfg : list (gset nat))
    (used defined I O : list (gset string)) : Prop :=
  Forall (λ i,
    set_Forall (λ succ, I !!! succ ⊆ O !!! i) (cfg !!! i)
    ∧ used !!! i ∪ (O !!! i ∖ defined !!! i) ⊆ I !!! i)
    (seq 0 (length used)).

Global Instance liveness_closed_dec cfg used defined I O :
  Decision (liveness_closed cfg used defined I O).
Proof.
  apply Forall_dec. intros i. apply and_dec; [|apply _].
  apply (set_Forall_dec (λ succ, I !!! succ ⊆ O !!! i)).
Defined.

(** The targets of the jumps of a piece of code, and the block labels it
    defines. *)
Definition jump_targets (code : list instr) : list (string * nat) :=
  omap (λ i, match i with
             | J func_name block_idx | Bne _ _ func_name block_idx =>
                 Some (func_name, block_idx)
             | _ => None
             end) code.

Definition block_labels (code : list instr) : list (string * nat) :=
  omap (λ i, match i with
             | BlockLabel func_name block_idx => Some (func_name, block_idx)
             | _ => None
             end) code.

Definition func_labels (code : list instr) : list string :=
  omap (λ i, match i with
             | FuncLabel func_name => Some func_name
             | _ => None
             end) code.

(** No two bindings hold the same register of the pool, and a register of
    the pool that is bound is marked as used. *)
Definition pool_consistent (self : MemController.t) : Prop :=
  NoDup (filter (λ r, r ∈ MemController.varregs)
           (MemController.rvalues self).*2)
  ∧ ∀ r, r ∈ (MemController.rvalues self).*2 → r ∈ MemController.varregs →
      r ∈ MemController.usedregs self.

(** The block that a jump names is a block of a function. *)
Definition valid_target (block_controller : BlockController.t)
    (t : string * nat) : Prop :=
  ∃ blocks,
    dict_get t.1 (BlockController.func_blocks block_controller) = Some blocks
    ∧ t.2 < length blocks.

(** The line is neither a label nor a jump to a block that does not
    exist. *)
Definition line_ok (block_controller : BlockController.t) (i : instr)
  : Prop :=
  match i with
  | J func_name block_idx | Bne _ _ func_name block_idx =>
      valid_target block_controller (func_name, block_idx)
  | BlockLabel _ _ | FuncLabel _ => False
  | _ => True
  end.

(** The block labels that the functions call for, in the order of the
    functions. *)
Definition expected_labels (func_blocks : list (string * list block))
  : list (string * nat) :=
  concat ((λ f : string * list block,
             (λ i, (f.1, i)) <$> seq 0 (length f.2)) <$> func_blocks).

(** [frame'] has the name, the size and the slots of [frame], and every
    variable that is marked as being in memory in [frame] still is. *)
Definition frame_kept (frame frame' : FunctionStackFrame.t) : Prop :=
  FunctionStackFrame.name frame' = FunctionStackFrame.name frame
  ∧ FunctionStackFrame.size frame' = FunctionStackFrame.size frame
  ∧ FunctionStackFrame.params frame' = FunctionStackFrame.params frame
  ∧ ∀ v,
      FunctionStackFrame.get_var_offset frame' v
      = FunctionStackFrame.get_var_offset frame v
      ∧ (FunctionStackFrame.if_var_in_memory frame v = true →
         FunctionStackFrame.if_var_in_memory frame' v = true).

(** Every frame that [get_frame] finds is still found, kept as above. *)
Definition frames_kept (frames frames' : list FunctionStackFrame.t) : Prop :=
  ∀ g frame, FunctionStack.get_frame frames g = Some frame →
    ∃ frame', FunctionStack.get_frame frames' g = Some frame'
      ∧ frame_kept frame frame'.

(** The first use of a bound name at or after [cur_pos], as the scan for
    the victim computes it. *)
Definition next_use (self : MemController.t) (cur_pos : position)
    (alloc_var : operand) : option position :=
  List.find (position_leb cur_pos) (MemController.use_list_of self alloc_var).

(** ** Further sample states *)

(** The function [f] with eighteen locals [v0] ... [v17], all in the
    registers of the pool and each used once more. *)
Definition eighteen_locals : list Symbol :=
  (λ i, mkSymbol ("v" +:+ pretty i) VariableSymbol) <$> seq 0 18.

Definition spilling : MemController.t :=
  MemController.mk
    (imap (λ i r, (("f", OStr ("v" +:+ pretty i)), r)) MemController.varregs)
    (list_to_set MemController.varregs)
    ((λ i, ("v" +:+ pretty i, [("f", 0, 2 + i)])) <$> seq 0 18)
    [FunctionStack.frame_of "f" 0 eighteen_locals].

(** The function [main] whose body is [early_return]. *)
Definition early_return_symbols : SymbolTable :=
  mkSymbolTable [mkSymbol "main" (FunctionSymbol (Some 1%Z))]
    [("main", [mkSymbol "c" VariableSymbol; mkSymbol "x" VariableSymbol])].

(** * Properties *)

(** ** Basic blocks *)

Section block_split.
Import BlockController.

Lemma enumerate_snoc {A} (l : list A) (x : A) :
  enumerate (l ++ [x]) = enumerate l ++ [(length l, x)].
Proof.
  unfold enumerate. rewrite imap_app. simpl. by rewrite Nat.add_0_r.
Qed.

Lemma index_to_pos_snoc (quads : list iquad) (x : iquad) :
  index_to_pos (quads ++ [x]) = <[x.1 := length quads]> (index_to_pos quads).
Proof.
  unfold index_to_pos. by rewrite enumerate_snoc, fold_left_app.
Qed.

Lemma index_to_pos_Some (quads : list iquad) (t : Z) (p : nat) :
  index_to_pos quads !! t = Some p → ∃ q, quads !! p = Some (t, q).
Proof.
  induction quads as [|[i q] quads IH] using rev_ind; [done|].
  rewrite index_to_pos_snoc. simpl. intros H.
  destruct (decide (i = t)) as [->|Hne].
  - rewrite lookup_insert_eq in H. injection H as <-. exists q.
    by rewrite lookup_app_r, Nat.sub_diag.
  - rewrite lookup_insert_ne in H by done.
    destruct (IH H) as [q' Hq']. exists q'.
    rewrite lookup_app_l; [done|]. by eapply lookup_lt_Some.
Qed.

Lemma index_to_pos_NoDup (quads : list iquad) (t : Z) (p : nat) (q : Quadruple) :
  NoDup quads.*1 → quads !! p = Some (t, q) → index_to_pos quads !! t = Some p.
Proof.
  induction quads as [|[i q0] quads IH] using rev_ind; [done|].
  rewrite fmap_app. simpl. intros Hnd Hp.
  apply NoDup_app in Hnd as (Hnd & Hfresh & _).
  rewrite index_to_pos_snoc. simpl.
  destruct (decide (p < length quads)) as [Hlt|Hge].
  - rewrite lookup_app_l in Hp by done.
    assert (i ≠ t) as Hne.
    { intros ->. apply (Hfresh t); [|left].
      apply list_elem_of_fmap. exists (t, q). split; [done|].
      by eapply list_elem_of_lookup_2. }
    rewrite lookup_insert_ne by done. by apply IH.
  - assert (p = length quads) as ->.
    { apply lookup_lt_Some in Hp. rewrite length_app in Hp. simpl in Hp. lia. }
    rewrite lookup_app_r, Nat.sub_diag in Hp by done. simpl in Hp.
    injection Hp as -> ->. by rewrite lookup_insert_eq.
Qed.

(** What the loop over the quadruples adds to the starts. *)
Definition adds_start (i2p : gmap Z nat) (n : nat) (l : list iquad) (p : nat) : Prop :=
  ∃ j i q, l !! j = Some (i, q) ∧ is_jump q = true ∧ result q ≠ ONone
    ∧ ((∃ t, result q = OInt t ∧ i2p !! t = Some p) ∨ (p = j + 1 ∧ j + 1 < n)).

Lemma add_starts_spec i2p n starts j i q p :
  p ∈ add_starts i2p n starts (j, (i, q)) ↔
  p ∈ starts ∨ (is_jump q = true ∧ result q ≠ ONone
    ∧ ((∃ t, result q = OInt t ∧ i2p !! t = Some p) ∨ (p = j + 1 ∧ j + 1 < n))).
Proof.
  unfold add_starts.
  destruct (is_jump q) eqn:Hj; simpl; [|naive_solver].
  destruct (result q) as [s|t|] eqn:Hr; simpl.
  - case_decide; set_solver.
  - destruct (i2p !! t) as [pos|] eqn:Ht; case_decide; set_solver.
  - naive_solver.
Qed.

Lemma fold_add_starts_spec i2p n (l : list iquad) init p :
  p ∈ fold_left (add_starts i2p n) (enumerate l) init ↔
  p ∈ init ∨ adds_start i2p n l p.
Proof.
  induction l as [|[i q] l IH] using rev_ind.
  - simpl. unfold adds_start. naive_solver.
  - rewrite enumerate_snoc, fold_left_app. cbn [fold_left].
    rewrite add_starts_spec, IH. unfold adds_start. split.
    + intros [[?|(j&i'&q'&Hl&?)]|(?&?&?)]; [by left|right..].
      * exists j, i', q'. split; [|done].
        rewrite lookup_app_l; [done|]. by eapply lookup_lt_Some.
      * exists (length l), i, q. split; [|done].
        by rewrite lookup_app_r, Nat.sub_diag.
    + intros [?|(j&i'&q'&Hl&Hrest)]; [by left; left|].
      destruct (decide (j < length l)) as [Hlt|Hge].
      * left. right. exists j, i', q'. by rewrite lookup_app_l in Hl.
      * assert (j = length l) as ->.
        { apply lookup_lt_Some in Hl. rewrite length_app in Hl. simpl in Hl. lia. }
        rewrite lookup_app_r, Nat.sub_diag in Hl by done. simpl in Hl.
        injection Hl as -> ->. by right.
Qed.

Lemma block_starts_spec (quads : list iquad) (p : nat) :
  p ∈ block_starts quads ↔
  p = 0 ∨ adds_start (index_to_pos quads) (length quads) quads p.
Proof.
  unfold block_starts. rewrite fold_add_starts_spec. set_solver.
Qed.

Lemma block_starts_lt (quads : list iquad) (p : nat) :
  quads ≠ [] → p ∈ block_starts quads → p < length quads.
Proof.
  intros Hne. rewrite block_starts_spec.
  intros [->|(j&i&q&Hl&_&_&[(t&_&Ht)|[-> Hlt]])].
  - destruct quads; simpl; [done|lia].
  - apply index_to_pos_Some in Ht as [q' Hq']. by eapply lookup_lt_Some.
  - done.
Qed.

Lemma slice_app {A} (l : list A) (s m e : nat) :
  s ≤ m → m ≤ e → slice l s m ++ slice l m e = slice l s e.
Proof.
  intros Hsm Hme. unfold slice.
  replace (drop m l) with (drop (m - s) (drop s l))
    by (rewrite drop_drop; f_equal; lia).
  rewrite take_take_drop. f_equal. lia.
Qed.

Lemma slice_all {A} (l : list A) : slice l 0 (length l) = l.
Proof. unfold slice. rewrite Nat.sub_0_r, drop_0. apply firstn_all. Qed.

Lemma slice_nonempty {A} (l : list A) (s e : nat) :
  s < e → e ≤ length l → slice l s e ≠ [].
Proof.
  intros Hse Hel Hnil. apply (f_equal length) in Hnil.
  unfold slice in Hnil. rewrite length_take, length_drop in Hnil.
  simpl in Hnil. lia.
Qed.

(** The blocks cut at increasing starts, the last one ending at [n]. *)
Lemma cuts_spec {A} (l : list A) (n s : nat) (ss : list nat) :
  n ≤ length l → StronglySorted lt (s :: ss) → Forall (λ x, x < n) (s :: ss) →
  let blocks := zip_with (slice l) (s :: ss) (ss ++ [n]) in
  concat blocks = slice l s n ∧ Forall (λ b, b ≠ []) blocks
  ∧ length blocks = S (length ss)
  ∧ ∀ k x, (s :: ss) !! k = Some x →
      blocks !! k = Some (slice l x (default n ((s :: ss) !! S k))).
Proof.
  intros Hn. revert s. induction ss as [|s' ss IH]; intros s Hs Hlt.
  - simpl. apply Forall_cons in Hlt as [Hlt _].
    rewrite app_nil_r. repeat split.
    + constructor; [|constructor]. by apply slice_nonempty.
    + intros [|k] x Hk; simpl in *; [|done]. by injection Hk as ->.
  - apply StronglySorted_inv in Hs as [Hs Hall].
    apply Forall_cons in Hall as [Hss' _].
    apply Forall_cons in Hlt as [Hsn Hlt].
    destruct (IH s' Hs Hlt) as (Hcat & Hne & Hlen & Hblk).
    pose proof Hlt as Hlt'. apply Forall_cons in Hlt' as [Hs'n _].
    cbn [zip_with app] in *. repeat split.
    + cbn [concat]. rewrite Hcat. apply slice_app; lia.
    + constructor; [|done]. apply slice_nonempty; lia.
    + simpl in *. by rewrite Hlen.
    + intros [|k] x Hk.
      * simpl in Hk. by injection Hk as ->.
      * apply (Hblk k x Hk).
Qed.

Lemma StronglySorted_le_lt (l : list nat) :
  StronglySorted le l → NoDup l → StronglySorted lt l.
Proof.
  induction 1 as [|x l Hs IH Hall]; intros Hnd; constructor.
  - apply IH. by apply NoDup_cons in Hnd as [_ ?].
  - apply NoDup_cons in Hnd as [Hx _].
    rewrite Forall_forall in Hall |- *. intros y Hy.
    specialize (Hall y Hy). assert (x ≠ y) by (by intros ->). lia.
Qed.

Lemma sorted_starts_elem (quads : list iquad) (p : nat) :
  p ∈ sorted_starts quads ↔ p ∈ block_starts quads.
Proof.
  unfold sorted_starts. rewrite merge_sort_Permutation. apply elem_of_elements.
Qed.

Lemma sorted_starts_sorted (quads : list iquad) :
  StronglySorted lt (sorted_starts quads).
Proof.
  apply StronglySorted_le_lt.
  - apply StronglySorted_merge_sort; apply _.
  - unfold sorted_starts. rewrite merge_sort_Permutation. apply NoDup_elements.
Qed.

Lemma sorted_starts_head (quads : list iquad) :
  ∃ ss, sorted_starts quads = 0 :: ss.
Proof.
  pose proof (sorted_starts_sorted quads) as Hs.
  assert (0 ∈ sorted_starts quads) as H0.
  { apply sorted_starts_elem, block_starts_spec. by left. }
  destruct (sorted_starts quads) as [|s ss]; [by apply elem_of_nil in H0|].
  apply StronglySorted_inv in Hs as [_ Hall].
  apply elem_of_cons in H0 as [<-|H0]; [by exists ss|].
  rewrite Forall_forall in Hall. specialize (Hall 0 H0). lia.
Qed.

(** The blocks of a non-empty slice are the cuts at the sorted starts. *)
Lemma block_split_cuts (quads : list iquad) :
  quads ≠ [] →
  let leaders := sorted_starts quads in
  concat (_block_split quads) = quads
  ∧ Forall (λ b, b ≠ []) (_block_split quads)
  ∧ length (_block_split quads) = length leaders
  ∧ ∀ k s, leaders !! k = Some s →
      _block_split quads !! k
      = Some (slice quads s (default (length quads) (leaders !! S k))).
Proof.
  intros Hne leaders.
  assert (_block_split quads
          = zip_with (slice quads) leaders (tail leaders ++ [length quads]))
    as -> by (by destruct quads).
  destruct (sorted_starts_head quads) as [ss Hss].
  pose proof (sorted_starts_sorted quads) as Hsorted.
  assert (Forall (λ x, x < length quads) leaders) as Hlt.
  { apply Forall_forall. intros p Hp.
    by apply block_starts_lt, sorted_starts_elem. }
  subst leaders. rewrite Hss in *. cbn [tail].
  destruct (cuts_spec quads (length quads) 0 ss) as (Hcat & Hnonempty & Hlen & Hblk);
    [done..|].
  rewrite Hcat, slice_all. done.
Qed.

Lemma leader_iff_start (quads : list iquad) (p : nat) :
  quads ≠ [] → NoDup quads.*1 → jumps_resolved quads →
  p ∈ sorted_starts quads ↔ is_leader quads p.
Proof.
  intros Hne Hnd Hres. rewrite sorted_starts_elem.
  unfold jumps_resolved in Hres. rewrite Forall_forall in Hres.
  split.
  - intros Hp. split; [by apply block_starts_lt|].
    apply block_starts_spec in Hp as [->|(j&i&q&Hl&Hj&Hr&[(t&Ht&Hpos)|[-> _]])].
    + by left.
    + right; left. apply index_to_pos_Some in Hpos as [q' Hq'].
      by exists j, i, q, t, q'.
    + right; right. by exists j, i, q.
  - intros [Hlt [->|[(j&i&q&t&q'&Hl&Hj&Ht&Hp)|(j&i&q&Hl&Hj&->)]]];
      apply block_starts_spec; [by left|right..].
    + exists j, i, q. repeat split; [done..| |].
      * rewrite Ht. done.
      * left. exists t. split; [done|]. by eapply index_to_pos_NoDup.
    + exists j, i, q. repeat split; [done..| |].
      * apply (Hres (i, q)); [|done]. by eapply list_elem_of_lookup_2.
      * by right.
Qed.
End block_split.

(** C4: for a slice with distinct indices whose jumps have been backpatched,
    the starts of the blocks are exactly the leaders: the first instruction,
    the targets of the jumps of the slice and the instructions after a jump.
    With K leaders [_block_split] returns K blocks, block [k] runs from
    leader [k] to the next leader (or to the end), and the blocks
    concatenated are the slice.  The empty slice has no leader and no
    block. *)
Theorem block_split_leaders (quads : list iquad) :
  NoDup quads.*1 → jumps_resolved quads →
  BlockController._block_split [] = [] ∧
  ∃ leaders : list nat,
    StronglySorted lt leaders
    ∧ (∀ p, p ∈ leaders ↔ is_leader quads p)
    ∧ length (BlockController._block_split quads) = length leaders
    ∧ concat (BlockController._block_split quads) = quads
    ∧ ∀ k s, leaders !! k = Some s →
        BlockController._block_split quads !! k
        = Some (slice quads s (default (length quads) (leaders !! S k))).
Proof.
  intros Hnd Hres. split; [done|].
  destruct (decide (quads = [])) as [->|Hne].
  - exists []. split; [constructor|]. split; [|done].
    intros p. split; [by intros ?%elem_of_nil|].
    intros [Hlt _]. simpl in Hlt. lia.
  - exists (BlockController.sorted_starts quads).
    destruct (block_split_cuts quads Hne) as (Hcat & _ & Hlen & Hblk).
    split; [apply sorted_starts_sorted|].
    split; [intros p; by apply leader_iff_start|done].
Qed.

(** [sample_slice] meets the hypotheses; its blocks give it back. *)
Lemma block_split_leaders_witness :
  NoDup sample_slice.*1 ∧ jumps_resolved sample_slice ∧
  length (BlockController._block_split sample_slice) = 4 ∧
  concat (BlockController._block_split sample_slice) = sample_slice.
Proof.
  assert (NoDup sample_slice.*1) as Hnd by (by apply (bool_decide_unpack _)).
  assert (jumps_resolved sample_slice) as Hres by (repeat constructor; done).
  destruct (block_split_leaders sample_slice Hnd Hres)
    as (_ & leaders & _ & _ & _ & Hcat & _).
  repeat split; [done..|by vm_compute|done].
Defined.

(** ** The control-flow graph *)

Section cfg.
Import BlockController.

Lemma mapM_result_Ok {A B} (f : A → result_of B) (l : list A) (k : list B) :
  Forall2 (λ x y, f x = Ok y) l k → mapM f l = Ok k.
Proof.
  induction 1 as [|x y l k Hxy _ IH]; [done|].
  cbn. rewrite Hxy. cbn. by rewrite IH.
Qed.

Lemma elem_of_concat {A} (x : A) (ls : list (list A)) :
  x ∈ concat ls ↔ ∃ l, x ∈ l ∧ l ∈ ls.
Proof.
  induction ls as [|l ls IH]; simpl.
  - split; [by intros ?%elem_of_nil|]. by intros (l & _ & ?%elem_of_nil).
  - rewrite elem_of_app, IH. split.
    + intros [?|(l' & ? & ?)]; [exists l|exists l']; split; try done;
        by constructor.
    + intros (l' & Hx & [->|?]%elem_of_cons); [by left|right]. by exists l'.
Qed.

Lemma fold_insert_block (k : nat) (b : block) (m : gmap Z nat) (t : Z) :
  fold_left (λ (m : gmap Z nat) (q : iquad), <[q.1 := k]> m) b m !! t
  = if decide (t ∈ b.*1) then Some k else m !! t.
Proof.
  revert m. induction b as [|[i q] b IH]; intros m; cbn [fold_left].
  - case_decide as Hin; [|done]. by apply elem_of_nil in Hin.
  - rewrite IH. rewrite fmap_cons. cbn [fst].
    destruct (decide (t ∈ b.*1)) as [Hin|Hnin].
    + rewrite decide_True; [done|]. by right.
    + destruct (decide (i = t)) as [->|Hne].
      * rewrite lookup_insert_eq, decide_True; [done|]. by left.
      * rewrite lookup_insert_ne by done.
        rewrite decide_False; [done|]. by intros [->|?]%elem_of_cons.
Qed.

Lemma idx_to_block_snoc (blocks : list block) (b : block) (t : Z) :
  idx_to_block (blocks ++ [b]) !! t
  = if decide (t ∈ b.*1) then Some (length blocks) else idx_to_block blocks !! t.
Proof.
  unfold idx_to_block. rewrite enumerate_snoc, fold_left_app. cbn [fold_left].
  apply fold_insert_block.
Qed.

Lemma idx_to_block_Some (blocks : list block) (t : Z) (bt : nat) :
  idx_to_block blocks !! t = Some bt → block_containing blocks t bt.
Proof.
  induction blocks as [|b blocks IH] using rev_ind; [done|].
  rewrite idx_to_block_snoc. case_decide as Hin.
  - intros [= <-]. exists b. by rewrite lookup_app_r, Nat.sub_diag.
  - intros (b' & Hb' & Ht)%IH. exists b'. split; [|done].
    rewrite lookup_app_l; [done|]. by eapply lookup_lt_Some.
Qed.

Lemma idx_to_block_NoDup (blocks : list block) (t : Z) (bt : nat) :
  NoDup (concat blocks).*1 → block_containing blocks t bt →
  idx_to_block blocks !! t = Some bt.
Proof.
  induction blocks as [|b blocks IH] using rev_ind.
  { by intros _ (b & Hb & _). }
  rewrite concat_app, fmap_app. simpl. rewrite app_nil_r.
  intros (Hnd & Hfresh & _)%NoDup_app (b' & Hb' & Ht).
  rewrite idx_to_block_snoc.
  destruct (decide (bt < length blocks)) as [Hlt|Hge].
  - rewrite lookup_app_l in Hb' by done.
    rewrite decide_False.
    + apply IH; [done|]. by exists b'.
    + apply Hfresh. apply list_elem_of_fmap in Ht as ([i q] & -> & Hq).
      apply list_elem_of_fmap. exists (i, q). split; [done|].
      apply elem_of_concat. exists b'. split; [done|].
      by eapply list_elem_of_lookup_2.
  - assert (bt = length blocks) as ->.
    { apply lookup_lt_Some in Hb'. rewrite length_app in Hb'. simpl in Hb'. lia. }
    rewrite lookup_app_r, Nat.sub_diag in Hb' by done. injection Hb' as ->.
    by rewrite decide_True.
Qed.

Lemma build_cfg_from (i2b : gmap Z nat) (n k : nat) (blocks : list block) :
  Forall (λ b, b ≠ []) blocks →
  ∃ cfg,
    mapM (M := result_of) (λ '(i, block),
      last_quad ← or_raise IndexError (last block);
      mret (successors i2b n i last_quad.2))
      (imap (λ i x, (k + i, x)) blocks) = Ok cfg
    ∧ length cfg = length blocks
    ∧ ∀ i b q, blocks !! i = Some b → last b = Some q →
        cfg !! i = Some (successors i2b n (k + i) q.2).
Proof.
  revert k. induction blocks as [|b blocks IH]; intros k Hne.
  - exists []. by repeat split.
  - apply Forall_cons in Hne as [Hb Hne].
    destruct (IH (S k) Hne) as (cfg & Hcfg & Hlen & Hsucc).
    destruct (last b) as [q|] eqn:Hlast; [|by apply last_None in Hlast].
    exists (successors i2b n k q.2 :: cfg). split; [|split].
    + cbn. rewrite Nat.add_0_r, Hlast. cbn.
      erewrite imap_ext; [erewrite Hcfg; done|].
      intros i x _. cbn. f_equal. lia.
    + simpl. by rewrite Hlen.
    + intros [|i] b' q' Hb' Hq'; simpl in *.
      * injection Hb' as <-. rewrite Hlast in Hq'. injection Hq' as <-.
        by rewrite Nat.add_0_r.
      * rewrite (Hsucc i b' q' Hb' Hq'). do 2 f_equal. lia.
Qed.

Lemma build_cfg_Ok (blocks : list block) :
  Forall (λ b, b ≠ []) blocks →
  ∃ cfg, _build_cfg blocks = Ok cfg ∧ length cfg = length blocks
    ∧ ∀ i b q, blocks !! i = Some b → last b = Some q →
        cfg !! i = Some (successors (idx_to_block blocks) (length blocks) i q.2).
Proof. intros Hne. by apply (build_cfg_from _ _ 0). Qed.

Lemma successors_fallthrough i2b n i q :
  i + 1 < n → successors i2b n i q ≠ ∅.
Proof.
  intros Hlt. unfold successors.
  case_decide as Hd; [set_solver|]. intros Heq. apply Hd.
  split; [|done]. 
  repeat case_match; try done; set_solver.
Qed.

Lemma successors_jnz i2b n i q t bt :
  op q = "jnz" → result q = OInt t → i2b !! t = Some bt →
  successors i2b n i q = {[bt]} ∪ (if decide (i + 1 < n) then {[i + 1]} else ∅).
Proof.
  intros Hop Hr Ht. unfold successors. rewrite Hop, Hr, Ht. simpl.
  case_decide as Hd; [|done]. destruct Hd as [Hd _]. set_solver.
Qed.

Lemma successors_j i2b n i q t bt :
  op q = "j" → result q = OInt t → i2b !! t = Some bt →
  successors i2b n i q = {[bt]}.
Proof.
  intros Hop Hr Ht. unfold successors. rewrite Hop, Hr, Ht. simpl.
  case_decide as Hd; [|done]. destruct Hd as [Hd _]. set_solver.
Qed.

Lemma successors_other i2b n i q :
  is_jump q = false →
  successors i2b n i q = if decide (i + 1 < n) then {[i + 1]} else ∅.
Proof.
  unfold is_jump, successors. intros [Hj Hjnz]%orb_false_elim.
  rewrite Hj, Hjnz. simpl. repeat case_decide; naive_solver.
Qed.
End cfg.

(** C5, as the code has it: in the CFG of a partitioned slice every block
    but the last has a successor; a block that does not end in a jump
    ([RETURN] included) has the next block as its only successor, and none
    if it is the last; a block that ends in a [jnz] with a target in the
    slice has the target's block and, if there is one, the next block, which
    makes two successors when the next block exists and is not the
    target's. *)
Theorem cfg_successors (quads : list iquad) :
  NoDup quads.*1 →
  let blocks := BlockController._block_split quads in
  let fallthrough (i : nat) : gset nat :=
    if decide (i + 1 < length blocks) then {[i + 1]} else ∅ in
  ∃ cfg,
    BlockController._build_cfg blocks = Ok cfg ∧ length cfg = length blocks
    ∧ ∀ i b idx q, blocks !! i = Some b → last b = Some (idx, q) →
        ∃ succs, cfg !! i = Some succs
          ∧ (i + 1 < length blocks → succs ≠ ∅)
          ∧ (BlockController.is_jump q = false → succs = fallthrough i)
          ∧ (op q = "RETURN" → i + 1 < length blocks → succs = {[i + 1]})
          ∧ (op q = "jnz" → ∀ t bt,
               result q = OInt t → block_containing blocks t bt →
               succs = {[bt]} ∪ fallthrough i
               ∧ (i + 1 < length blocks → bt ≠ i + 1 → size succs = 2)).
Proof.
  intros Hnd blocks fallthrough.
  assert (Forall (λ b, b ≠ []) blocks ∧ NoDup (concat blocks).*1) as [Hne Hnd'].
  { destruct (decide (quads = [])) as [->|Hq]; [split; constructor|].
    destruct (block_split_cuts quads Hq) as (Hcat & Hne & _).
    split; [done|]. fold blocks in Hcat. by rewrite Hcat. }
  destruct (build_cfg_Ok blocks Hne) as (cfg & Hcfg & Hlen & Hsucc).
  exists cfg. split; [done|]. split; [done|].
  intros i b idx q Hb Hlast. eexists. split; [by eapply Hsucc|]. cbn [snd].
  split; [apply successors_fallthrough|].
  split; [apply successors_other|].
  split.
  - intros Hop Hlt. rewrite successors_other.
    + by rewrite decide_True.
    + unfold BlockController.is_jump. by rewrite Hop.
  - intros Hop t bt Ht Hbt.
    rewrite (successors_jnz _ _ _ _ t bt Hop Ht)
      by by apply idx_to_block_NoDup.
    split; [done|]. intros Hlt Hne'. subst fallthrough. cbn beta.
    rewrite decide_True by done.
    rewrite size_union by set_solver. by rewrite !size_singleton.
Qed.

(** [early_return] meets the hypothesis; its CFG has an entry per block. *)
Lemma cfg_successors_witness :
  NoDup early_return.*1 ∧
  ∃ cfg,
    BlockController._build_cfg (BlockController._block_split early_return)
      = Ok cfg
    ∧ length cfg = length (BlockController._block_split early_return).
Proof.
  assert (NoDup early_return.*1) as Hnd by (by apply (bool_decide_unpack _)).
  split; [done|].
  destruct (cfg_successors early_return Hnd) as (cfg & Hcfg & Hlen & _).
  by exists cfg.
Defined.

(** C5, as the specification has it, fails: the last block of
    [early_return] ends in an assignment, not in a [RETURN], and has no
    successor. *)
Lemma cfg_last_block_without_successor :
  BlockController._build_cfg (BlockController._block_split early_return)
    = Ok [{[1; 2]}; {[3]}; {[3]}; ∅]
  ∧ BlockController._block_split early_return !! 3
    = Some [(4%Z, mkQuad "=" (OInt 1) ONone (OStr "x"))].
Proof. split; reflexivity. Qed.

(** ** Liveness *)

Section liveness.
Import BlockController.
Variable cfg : list (gset nat).
Variables used defined : list (gset string).

Definition out_of (ins : list (gset string)) (i : nat) : gset string :=
  ⋃ ((λ succ, ins !!! succ) <$> elements (cfg !!! i)).

Lemma elem_of_out_of ins i v :
  v ∈ out_of ins i ↔ ∃ succ, succ ∈ cfg !!! i ∧ v ∈ ins !!! succ.
Proof.
  unfold out_of. rewrite elem_of_union_list. split.
  - intros (X & (succ & -> & Hs)%list_elem_of_fmap & Hv).
    exists succ. by rewrite <- elem_of_elements.
  - intros (succ & Hs & Hv). exists (ins !!! succ). split; [|done].
    apply list_elem_of_fmap. exists succ. by rewrite elem_of_elements.
Qed.

(** The blocks [k-1], ..., [0] of one turn. *)
Definition pass_range (k : nat) (st : live_state) : live_state :=
  fold_left (update_block cfg used defined) (reverse (seq 0 k)) st.

Lemma pass_range_S k st :
  pass_range (S k) st = pass_range k (update_block cfg used defined st k).
Proof. unfold pass_range. by rewrite seq_S, reverse_snoc. Qed.

Lemma live_pass_range ins outs :
  live_pass cfg used defined ins outs
  = pass_range (length used) (mkLive ins outs false).
Proof. done. Qed.

(** The equations at block [i]. *)
Definition stable_at (ins outs : list (gset string)) (i : nat) : Prop :=
  outs !!! i = out_of ins i
  ∧ ins !!! i = used !!! i ∪ (outs !!! i ∖ defined !!! i).

Lemma update_block_unchanged st k :
  k < length (in_sets st) → k < length (out_sets st) →
  changed (update_block cfg used defined st k) = false →
  changed st = false
  ∧ in_sets (update_block cfg used defined st k) = in_sets st
  ∧ out_sets (update_block cfg used defined st k) = out_sets st
  ∧ stable_at (in_sets st) (out_sets st) k.
Proof.
  intros Hin Hout. unfold update_block. cbn.
  fold (out_of (in_sets st) k). case_decide as Hd; [done|].
  intros Hch.
  assert (in_sets st !!! k
          = used !!! k ∪ (out_of (in_sets st) k ∖ defined !!! k)) as Hi
    by (apply dec_stable; intros ?; apply Hd; by left).
  assert (out_sets st !!! k = out_of (in_sets st) k) as Ho
    by (apply dec_stable; intros ?; apply Hd; by right).
  rewrite <- Hi, <- Ho. repeat split; try done.
  - apply list_insert_id. by apply list_lookup_lookup_total_lt.
  - apply list_insert_id. by apply list_lookup_lookup_total_lt.
  - rewrite Hi at 1. by rewrite Ho.
Qed.

Lemma pass_range_unchanged k st :
  k ≤ length (in_sets st) → k ≤ length (out_sets st) →
  changed (pass_range k st) = false →
  changed st = false
  ∧ in_sets (pass_range k st) = in_sets st
  ∧ out_sets (pass_range k st) = out_sets st
  ∧ ∀ i, i < k → stable_at (in_sets st) (out_sets st) i.
Proof.
  revert st. induction k as [|k IH]; intros st Hin Hout.
  - intros Hch. do 3 (split; [done|]). intros i Hi. lia.
  - rewrite pass_range_S. intros Hch.
    destruct (IH (update_block cfg used defined st k)) as (Hc & Hi & Ho & Hst);
      [cbn; rewrite length_insert; lia..|done|].
    destruct (update_block_unchanged st k) as (Hc' & Hi' & Ho' & Hk);
      [lia..|done|].
    rewrite Hi, Ho, Hi', Ho'. do 3 (split; [done|]).
    intros i Hlt. destruct (decide (i = k)) as [->|Hne]; [done|].
    rewrite <- Hi', <- Ho'. apply Hst. lia.
Qed.

(** *** The turns of the loop end *)

Definition weight (l : list (gset string)) : nat := sum_list (size <$> l).

Lemma weight_insert (l : list (gset string)) (k : nat) (X : gset string) :
  k < length l → l !!! k ⊆ X →
  weight l ≤ weight (<[k:=X]> l)
  ∧ (l !!! k ≠ X → weight l < weight (<[k:=X]> l)).
Proof.
  unfold weight. revert k. induction l as [|Y l IH]; intros k Hk HX.
  { simpl in Hk. lia. }
  destruct k as [|k].
  - change ((Y :: l) !!! 0) with Y in *.
    change (<[0:=X]> (Y :: l)) with (X :: l). rewrite !fmap_cons.
    cbn [sum_list sum_list_with]. unfold id in *.
    pose proof (subseteq_size _ _ HX) as Hle. split; [lia|].
    intros Hne. assert (Y ⊂ X) as Hsub by set_solver.
    apply subset_size in Hsub. lia.
  - change ((Y :: l) !!! S k) with (l !!! k) in *.
    change (<[S k:=X]> (Y :: l)) with (Y :: <[k:=X]> l). rewrite !fmap_cons.
    cbn [sum_list sum_list_with]. unfold id in *. cbn [length] in Hk.
    destruct (IH k) as [Hle Hlt]; [lia|done|]. split; [lia|].
    intros Hne. specialize (Hlt Hne). lia.
Qed.

Lemma weight_bound (l : list (gset string)) (U : gset string) :
  Forall (λ X, X ⊆ U) l → weight l ≤ length l * size U.
Proof.
  unfold weight. induction 1 as [|X l HX _ IH]; [simpl; lia|].
  rewrite fmap_cons. cbn [sum_list sum_list_with length]. unfold id in *.
  apply subseteq_size in HX. lia.
Qed.

Definition state_weight (st : live_state) : nat :=
  weight (in_sets st) + weight (out_sets st).

Hypothesis cfg_wf : cfg_ok (length used) cfg.

Lemma successor_lt i succ :
  i < length used → succ ∈ cfg !!! i → succ < length used.
Proof.
  intros Hi Hs. destruct cfg_wf as [Hlen Hall].
  rewrite Forall_forall in Hall. apply (Hall (cfg !!! i)); [|done].
  apply list_elem_of_lookup. exists i.
  rewrite lookup_take_lt by done. apply list_lookup_lookup_total_lt. lia.
Qed.

(** The sets only grow from the empty ones: each is below what the equations
    make of the others, and all hold used variables only. *)
Record live_inv (st : live_state) : Prop := {
  inv_len_in : length (in_sets st) = length used;
  inv_len_out : length (out_sets st) = length used;
  inv_out : ∀ i, i < length used →
    out_sets st !!! i ⊆ out_of (in_sets st) i;
  inv_in : ∀ i, i < length used →
    in_sets st !!! i ⊆ used !!! i ∪ (out_sets st !!! i ∖ defined !!! i);
  inv_bound_in : Forall (λ X, X ⊆ ⋃ used) (in_sets st);
  inv_bound_out : Forall (λ X, X ⊆ ⋃ used) (out_sets st)
}.

Lemma used_bound k : k < length used → used !!! k ⊆ ⋃ used.
Proof.
  intros Hk v Hv. apply elem_of_union_list. exists (used !!! k).
  split; [|done]. apply list_elem_of_lookup. exists k.
  by apply list_lookup_lookup_total_lt.
Qed.

Lemma out_of_bound ins i :
  i < length used → length ins = length used →
  Forall (λ X, X ⊆ ⋃ used) ins → out_of ins i ⊆ ⋃ used.
Proof.
  intros Hi Hlen Hall v (succ & Hs & Hv)%elem_of_out_of.
  rewrite Forall_forall in Hall. apply (Hall (ins !!! succ)); [|done].
  apply list_elem_of_lookup. exists succ.
  apply list_lookup_lookup_total_lt. rewrite Hlen. by eapply successor_lt.
Qed.

Lemma out_of_insert_mono ins k X i :
  k < length ins → ins !!! k ⊆ X → out_of ins i ⊆ out_of (<[k:=X]> ins) i.
Proof.
  intros Hk HX v (succ & Hs & Hv)%elem_of_out_of. apply elem_of_out_of.
  exists succ. split; [done|]. destruct (decide (k = succ)) as [<-|Hne].
  - rewrite list_lookup_total_insert_eq by done. by apply HX.
  - by rewrite list_lookup_total_insert_ne.
Qed.

Lemma Forall_insert_bound (l : list (gset string)) k X U :
  Forall (λ X, X ⊆ U) l → X ⊆ U → Forall (λ X, X ⊆ U) (<[k:=X]> l).
Proof.
  intros Hall HX. apply Forall_forall. intros Y HY.
  apply list_elem_of_lookup in HY as [j Hj].
  destruct (decide (k = j)) as [<-|Hne].
  - destruct (decide (k < length l)).
    + rewrite list_lookup_insert_eq in Hj by done. by injection Hj as <-.
    + rewrite list_insert_ge in Hj by lia. rewrite Forall_forall in Hall.
      apply Hall. by eapply list_elem_of_lookup_2.
  - rewrite list_lookup_insert_ne in Hj by done. rewrite Forall_forall in Hall.
    apply Hall. by eapply list_elem_of_lookup_2.
Qed.

Lemma update_block_inv st k :
  live_inv st → k < length used →
  live_inv (update_block cfg used defined st k)
  ∧ state_weight st ≤ state_weight (update_block cfg used defined st k)
  ∧ (changed (update_block cfg used defined st k) = true →
     changed st = true
     ∨ state_weight st < state_weight (update_block cfg used defined st k)).
Proof.
  intros [Hli Hlo Hout Hin Hbi Hbo] Hk.
  pose proof (Hout k Hk) as Hout_k. pose proof (Hin k Hk) as Hin_k.
  assert (in_sets st !!! k
          ⊆ used !!! k ∪ (out_of (in_sets st) k ∖ defined !!! k)) as Hin_k'
    by set_solver.
  destruct (weight_insert (in_sets st) k _ ltac:(lia) Hin_k') as [Hwi Hwi'].
  destruct (weight_insert (out_sets st) k _ ltac:(lia) Hout_k) as [Hwo Hwo'].
  unfold update_block, state_weight. cbn [in_sets out_sets changed].
  fold (out_of (in_sets st) k).
  split; [|split].
  - constructor; cbn [in_sets out_sets changed].
    + by rewrite length_insert.
    + by rewrite length_insert.
    + intros i Hi. destruct (decide (k = i)) as [<-|Hne].
      * rewrite list_lookup_total_insert_eq by lia.
        apply out_of_insert_mono; [lia|done].
      * rewrite list_lookup_total_insert_ne by done.
        etransitivity; [by apply Hout|].
        apply out_of_insert_mono; [lia|done].
    + intros i Hi. destruct (decide (k = i)) as [<-|Hne].
      * by rewrite !list_lookup_total_insert_eq by lia.
      * rewrite !list_lookup_total_insert_ne by done. by apply Hin.
    + apply Forall_insert_bound; [done|].
      pose proof (used_bound k Hk). pose proof (out_of_bound _ k Hk Hli Hbi).
      set_solver.
    + apply Forall_insert_bound; [done|]. by apply out_of_bound.
  - lia.
  - case_decide as Hd; [|by left]. intros _. right.
    destruct Hd as [Hd|Hd]; [specialize (Hwi' Hd)|specialize (Hwo' Hd)]; lia.
Qed.

Lemma pass_range_inv k st :
  live_inv st → k ≤ length used →
  live_inv (pass_range k st)
  ∧ state_weight st ≤ state_weight (pass_range k st)
  ∧ (changed (pass_range k st) = true →
     changed st = true ∨ state_weight st < state_weight (pass_range k st)).
Proof.
  revert st. induction k as [|k IH]; intros st Hinv Hk.
  - split; [done|]. split; [done|]. by left.
  - rewrite pass_range_S.
    destruct (update_block_inv st k Hinv) as (Hinv' & Hle & Hch); [lia|].
    destruct (IH _ Hinv') as (Hinv'' & Hle' & Hch'); [lia|].
    split; [done|]. split; [lia|]. intros Hc.
    destruct (Hch' Hc) as [Hc'|Hlt]; [|right; lia].
    destruct (Hch Hc') as [?|?]; [by left|right; lia].
Qed.

Lemma state_weight_bound st :
  live_inv st → state_weight st ≤ 2 * length used * size (⋃ used).
Proof.
  intros [Hli Hlo _ _ Hbi Hbo]. unfold state_weight.
  apply weight_bound in Hbi, Hbo. rewrite Hli in Hbi. rewrite Hlo in Hbo. lia.
Qed.

(** With enough fuel the loop ends, in a state that a further turn leaves
    as it is. *)
Lemma live_loop_ends fuel ins outs :
  live_inv (mkLive ins outs false) →
  2 * length used * size (⋃ used) < fuel + state_weight (mkLive ins outs false) →
  ∃ ins' outs',
    live_loop fuel cfg used defined ins outs = Some (ins', outs')
    ∧ live_inv (mkLive ins' outs' false)
    ∧ live_pass cfg used defined ins' outs' = mkLive ins' outs' false.
Proof.
  revert ins outs. induction fuel as [|fuel IH]; intros ins outs Hinv Hfuel.
  { apply state_weight_bound in Hinv. lia. }
  cbn [live_loop]. rewrite live_pass_range.
  destruct (pass_range_inv (length used) _ Hinv) as (Hinv' & Hle & Hch); [done|].
  destruct (changed (pass_range _ _)) eqn:Hc.
  - destruct (Hch eq_refl) as [?|Hlt]; [done|].
    apply IH.
    + destruct Hinv'. by constructor.
    + unfold state_weight in *. cbn [in_sets out_sets] in *. lia.
  - destruct (pass_range_unchanged (length used) (mkLive ins outs false))
      as (_ & Hi & Ho & _); [cbn; destruct Hinv; cbn in *; lia..|done|].
    cbn in Hi, Ho. exists ins, outs. rewrite Hi, Ho. split; [done|].
    split; [done|]. rewrite live_pass_range.
    destruct (pass_range _ _) as [i o c]. cbn in *. by subst.
Qed.

Lemma live_loop_more_fuel fuel fuel' ins outs r :
  live_loop fuel cfg used defined ins outs = Some r → fuel ≤ fuel' →
  live_loop fuel' cfg used defined ins outs = Some r.
Proof.
  revert fuel' ins outs. induction fuel as [|fuel IH]; [done|].
  intros [|fuel'] ins outs Hrun Hle; [lia|]. cbn [live_loop] in *.
  destruct (changed _); [|done]. apply IH; [done|lia].
Qed.
End liveness.

(** What [used_vars] and [defined_vars] hold. *)
Section use_def.
Import BlockController.

Lemma add_use_def_spec (valid_vars : gset string)
    (sets : gset string * gset string) (q : iquad) (v : string) :
  (v ∈ (add_use_def valid_vars sets q).1 ↔
     v ∈ sets.1 ∨ (reads q.2 v ∧ v ≠ "" ∧ v ∈ valid_vars ∧ v ∉ sets.2))
  ∧ (v ∈ (add_use_def valid_vars sets q).2 ↔
     v ∈ sets.2 ∨ (result q.2 = OStr v ∧ v ≠ "" ∧ v ∈ valid_vars)).
Proof.
  unfold add_use_def, reads. cbn [fold_left fst snd]. split.
  - assert (∀ (o : operand) (X : gset string),
      v ∈ (match o with
           | OStr s =>
               if truthy o && bool_decide (s ∈ valid_vars)
                  && bool_decide (s ∉ sets.2)
               then {[s]} ∪ X else X
           | _ => X
           end) ↔
      v ∈ X ∨ (o = OStr v ∧ v ≠ "" ∧ v ∈ valid_vars ∧ v ∉ sets.2)) as Hop.
    { intros o X. destruct o as [s| |]; [|naive_solver..]. cbn [truthy].
      destruct (String.eqb_spec s ""); cbn [negb andb];
        repeat case_bool_decide; cbn [andb]; set_solver. }
    rewrite !Hop. naive_solver.
  - destruct (result q.2) as [s| |]; [|naive_solver..]. cbn [truthy].
    destruct (String.eqb_spec s ""); cbn [negb andb];
      repeat case_bool_decide; set_solver.
Qed.

Lemma use_def_snoc valid_vars (l : block) (q : iquad) :
  use_def valid_vars (l ++ [q])
  = add_use_def valid_vars (use_def valid_vars l) q.
Proof. unfold use_def. by rewrite fold_left_app. Qed.

Lemma defined_spec (valid_vars : gset string) (blk : block) (v : string) :
  v ∈ (use_def valid_vars blk).2 ↔
  v ∈ valid_vars ∧ v ≠ "" ∧ ∃ iq, iq ∈ blk ∧ result iq.2 = OStr v.
Proof.
  induction blk as [|q l IH] using rev_ind.
  { cbn. split; [set_solver|]. by intros (_ & _ & iq & ?%elem_of_nil & _). }
  rewrite use_def_snoc.
  destruct (add_use_def_spec valid_vars (use_def valid_vars l) q v) as [_ ->].
  rewrite IH. split.
  - intros [(? & ? & iq & Hin & ?)|(? & ? & ?)].
    + do 2 (split; [done|]). exists iq. split; [|done].
      apply elem_of_app. by left.
    + do 2 (split; [done|]). exists q. split; [|done].
      apply elem_of_app. right. by left.
  - intros (? & ? & iq & [Hin|Hin]%elem_of_app & ?).
    + left. do 2 (split; [done|]). by exists iq.
    + apply list_elem_of_singleton in Hin as ->. by right.
Qed.

Lemma used_spec (valid_vars : gset string) (blk : block) (v : string) :
  v ∈ (use_def valid_vars blk).1 ↔
  v ∈ valid_vars ∧ v ≠ ""
  ∧ ∃ k iq, blk !! k = Some iq ∧ reads iq.2 v
      ∧ ∀ j iq', j < k → blk !! j = Some iq' → result iq'.2 ≠ OStr v.
Proof.
  induction blk as [|q l IH] using rev_ind.
  { cbn. split; [set_solver|]. by intros (_ & _ & k & iq & ? & _). }
  rewrite use_def_snoc.
  destruct (add_use_def_spec valid_vars (use_def valid_vars l) q v) as [-> _].
  rewrite IH, defined_spec. split.
  - intros [(? & ? & k & iq & Hk & ? & Hbefore)|(? & ? & ? & Hnot)].
    + do 2 (split; [done|]). exists k, iq.
      pose proof (lookup_lt_Some _ _ _ Hk) as Hlt.
      split; [by rewrite lookup_app_l|]. split; [done|].
      intros j iq' Hj Hiq'. rewrite lookup_app_l in Hiq' by lia. eauto.
    + do 2 (split; [done|]). exists (length l), q.
      split; [by rewrite lookup_app_r, Nat.sub_diag|]. split; [done|].
      intros j iq' Hj Hiq' Hres. rewrite lookup_app_l in Hiq' by done.
      apply Hnot. do 2 (split; [done|]). exists iq'. split; [|done].
      by eapply list_elem_of_lookup_2.
  - intros (? & ? & k & iq & Hk & ? & Hbefore).
    destruct (decide (k < length l)) as [Hlt|Hge].
    + left. do 2 (split; [done|]). exists k, iq.
      rewrite lookup_app_l in Hk by done. do 2 (split; [done|]).
      intros j iq' Hj Hiq'. apply (Hbefore j); [done|].
      rewrite lookup_app_l; [done|lia].
    + assert (k = length l) as ->.
      { apply lookup_lt_Some in Hk. rewrite length_app in Hk. simpl in Hk. lia. }
      rewrite lookup_app_r, Nat.sub_diag in Hk by done. injection Hk as <-.
      right. do 3 (split; [done|]).
      intros (_ & _ & iq' & [j Hj]%list_elem_of_lookup & Hres).
      apply (Hbefore j iq'); [by eapply lookup_lt_Some| |done].
      rewrite lookup_app_l; [done|]. by eapply lookup_lt_Some.
Qed.
End use_def.

(** C6: on a CFG that has an entry for every block and names blocks only,
    the analysis returns; its sets satisfy [OUT[i] = ∪ IN[succ]] and
    [IN[i] = used[i] ∪ (OUT[i] − defined[i])], where [used[i]] are the
    variables read in block [i] before being written in it and [defined[i]]
    those written in it; [OUT] is empty for a block without successors; one
    more turn of the loop, or the loop started from the result, leaves every
    set as it is; more turns than [live_fuel] are never needed. *)
Theorem liveness_fixed_point (blocks : list block) (cfg : list (gset nat))
    (valid_vars : gset string) :
  BlockController.cfg_ok (length blocks) cfg →
  let used := (λ b, (BlockController.use_def valid_vars b).1) <$> blocks in
  let defined := (λ b, (BlockController.use_def valid_vars b).2) <$> blocks in
  ∃ ins outs,
    BlockController._live_variable_analysis blocks cfg valid_vars
      = Some (ins, outs)
    ∧ length ins = length blocks ∧ length outs = length blocks
    ∧ liveness_equations blocks cfg valid_vars ins outs
    ∧ (∀ i, i < length blocks → cfg !!! i = ∅ → outs !!! i = ∅)
    ∧ BlockController.live_pass cfg used defined ins outs
      = BlockController.mkLive ins outs false
    ∧ (∀ fuel,
        BlockController.live_loop (S fuel) cfg used defined ins outs
        = Some (ins, outs))
    ∧ ∀ fuel, BlockController.live_fuel used ≤ fuel →
        BlockController.live_loop fuel cfg used defined
          ((λ _, ∅) <$> blocks) ((λ _, ∅) <$> blocks)
        = Some (ins, outs).
Proof.
  intros Hok used defined.
  assert (length used = length blocks) as Hlen by apply length_fmap.
  assert (BlockController.cfg_ok (length used) cfg) as Hok' by by rewrite Hlen.
  unfold BlockController._live_variable_analysis. rewrite decide_True by done.
  fold used defined.
  set (empty := (λ _, ∅ : gset string) <$> blocks).
  assert (∀ i, i < length blocks → empty !!! i = (∅ : gset string)) as Hempty.
  { intros i Hi. subst empty. rewrite list_lookup_total_alt, list_lookup_fmap.
    destruct (blocks !! i) eqn:Hb; [done|].
    apply lookup_ge_None in Hb. lia. }
  destruct (live_loop_ends cfg used defined Hok'
              (BlockController.live_fuel used) empty empty)
    as (ins & outs & Hloop & Hinv & Hpass).
  { constructor; cbn [BlockController.in_sets BlockController.out_sets].
    - subst empty. by rewrite length_fmap.
    - subst empty. by rewrite length_fmap.
    - intros i Hi. rewrite Hempty by lia. set_solver.
    - intros i Hi. rewrite Hempty by lia. set_solver.
    - subst empty. apply Forall_fmap, Forall_true. intros ?. set_solver.
    - subst empty. apply Forall_fmap, Forall_true. intros ?. set_solver. }
  { unfold BlockController.live_fuel. lia. }
  exists ins, outs. destruct Hinv as [Hli Hlo _ _ _ _].
  cbn [BlockController.in_sets BlockController.out_sets] in Hli, Hlo.
  destruct (pass_range_unchanged cfg used defined (length used)
              (BlockController.mkLive ins outs false))
    as (_ & _ & _ & Hstable);
    [cbn; lia..| |].
  { rewrite <- live_pass_range. by rewrite Hpass. }
  cbn [BlockController.in_sets BlockController.out_sets] in Hstable.
  split; [done|]. split; [lia|]. split; [lia|].
  split; [|split; [|split; [|split]]].
  - intros i blk Hblk.
    pose proof (lookup_lt_Some _ _ _ Hblk) as Hi.
    destruct (Hstable i) as [Hout Hin]; [lia|]. split.
    { intros v. rewrite Hout. apply elem_of_out_of. }
    assert (used !!! i = (BlockController.use_def valid_vars blk).1) as Hused.
    { subst used. by rewrite list_lookup_total_alt, list_lookup_fmap, Hblk. }
    assert (defined !!! i = (BlockController.use_def valid_vars blk).2)
      as Hdefined.
    { subst defined.
      by rewrite list_lookup_total_alt, list_lookup_fmap, Hblk. }
    intros v. rewrite Hin, Hused, Hdefined.
    rewrite elem_of_union, elem_of_difference, used_spec, defined_spec.
    done.
  - intros i Hi Hnone. destruct (Hstable i) as [Hout _]; [lia|].
    rewrite Hout. unfold out_of. rewrite Hnone. by rewrite elements_empty.
  - done.
  - intros fuel. cbn [BlockController.live_loop]. by rewrite Hpass.
  - intros fuel Hfuel. by eapply live_loop_more_fuel.
Qed.

(** The CFG of [early_return] meets the hypothesis; in the result [c] is
    live at the entry of the first block, which reads it, and [x] is live
    nowhere, since the one block that mentions it writes it. *)
Lemma liveness_fixed_point_witness :
  BlockController.cfg_ok 4 [{[1; 2]}; {[3]}; {[3]}; ∅]
  ∧ ∃ ins outs,
      BlockController._live_variable_analysis
        (BlockController._block_split early_return)
        [{[1; 2]}; {[3]}; {[3]}; ∅] {["c"; "x"]} = Some (ins, outs)
      ∧ ins = [{["c"]}; ∅; ∅; ∅] ∧ outs = [∅; ∅; ∅; ∅]
      ∧ liveness_equations (BlockController._block_split early_return)
          [{[1; 2]}; {[3]}; {[3]}; ∅] {["c"; "x"]} ins outs.
Proof.
  assert (BlockController.cfg_ok
            (length (BlockController._block_split early_return))
            [{[1; 2]}; {[3]}; {[3]}; ∅]) as Hok
    by (by apply (bool_decide_unpack _)).
  split; [exact Hok|].
  destruct (liveness_fixed_point (BlockController._block_split early_return)
              [{[1; 2]}; {[3]}; {[3]}; ∅] {["c"; "x"]} Hok)
    as (ins & outs & Hrun & _ & _ & Heqs & _).
  exists ins, outs. split; [exact Hrun|].
  assert (ins = [{["c"]}; ∅; ∅; ∅] ∧ outs = [∅; ∅; ∅; ∅]) as [Hins Houts].
  { vm_compute in Hrun. injection Hrun as <- <-.
    split; repeat f_equal; apply (bool_decide_unpack _); by vm_compute. }
  split; [exact Hins|]. split; [exact Houts|exact Heqs].
Defined.

(** ** The call order *)

Section call_graph.
Import BlockController.

Lemma add_call_callers fb caller cg q c callee :
  c ∈ default ∅ (add_call fb caller cg q !! callee) →
  c ∈ default ∅ (cg !! callee) ∨ (c = caller ∧ is_call q).
Proof.
  unfold add_call, is_call. destruct (arg1 q.2) as [s| |]; try by left.
  destruct (String.eqb (op q.2) "call") eqn:Hop; simpl; [|by left].
  apply String.eqb_eq in Hop. destruct (dict_mem s fb); [|by left].
  destruct (decide (s = callee)) as [->|Hne].
  - rewrite lookup_insert_eq. simpl. set_solver.
  - rewrite lookup_insert_ne by done. by left.
Qed.

Lemma fold_add_call_callers fb caller quads cg c callee :
  c ∈ default ∅ (fold_left (add_call fb caller) quads cg !! callee) →
  c ∈ default ∅ (cg !! callee) ∨ (c = caller ∧ Exists is_call quads).
Proof.
  revert cg. induction quads as [|q quads IH]; intros cg; simpl; [by left|].
  intros [[?|[-> ?]]%add_call_callers|[-> ?]]%IH; [by left|right..].
  - split; [done|]. by left.
  - split; [done|]. by right.
Qed.

Lemma call_graph_callers fb c callee :
  c ∈ default ∅ (call_graph fb !! callee) →
  ∃ blocks, (c, blocks) ∈ fb ∧ Exists is_call (concat blocks).
Proof.
  unfold call_graph. generalize fb at 1. intros fb0.
  assert (∀ fb' cg,
    c ∈ default ∅
      (fold_left (λ cg (f : string * list block),
         fold_left (add_call fb0 f.1) (concat f.2) cg) fb' cg !! callee) →
    c ∈ default ∅ (cg !! callee)
    ∨ ∃ blocks, (c, blocks) ∈ fb' ∧ Exists is_call (concat blocks)) as Hgen.
  { induction fb' as [|[g blocks] fb' IH]; intros cg; simpl; [by left|].
    intros [[?|[-> ?]]%fold_add_call_callers|(blocks' & ? & ?)]%IH.
    - by left.
    - right. exists blocks. split; [by left|done].
    - right. exists blocks'. split; [by right|done]. }
  intros [Hc|?]%Hgen; [|done]. by rewrite lookup_empty in Hc.
Qed.

End call_graph.

Section call_order.
Import BlockController.
Variable set_order : gset string → list string.
Hypothesis set_order_perm : ∀ s, set_order s ≡ₚ elements s.

Lemma elem_of_set_order s x : x ∈ set_order s ↔ x ∈ s.
Proof. by rewrite set_order_perm, elem_of_elements. Qed.

Lemma visit_visited fuel cg f st : f ∈ st.2 → visit set_order fuel cg f st = st.
Proof. intros Hf. destruct fuel; [done|]. simpl. by rewrite decide_True. Qed.

Lemma fold_visit_visited fuel cg callers st :
  Forall (λ c, c ∈ st.2) callers →
  fold_left (λ st c, visit set_order fuel cg c st) callers st = st.
Proof.
  induction 1 as [|c callers Hc _ IH]; [done|]. simpl.
  by rewrite visit_visited.
Qed.

(** A function all of whose callers have been visited is appended. *)
Lemma visit_append fuel cg f st :
  f ∉ st.2 → (∀ c, c ∈ default ∅ (cg !! f) → c ∈ ({[f]} ∪ st.2 : gset string)) →
  visit set_order (S fuel) cg f st = (st.1 ++ [f], {[f]} ∪ st.2).
Proof.
  intros Hf Hcallers. simpl. rewrite decide_False by done.
  rewrite fold_visit_visited; [done|].
  apply Forall_forall. intros c Hc. apply Hcallers. by apply elem_of_set_order.
Qed.
End call_order.



(** C1, as the specification has it, fails: the order of [two_functions] is
    [main, f], not [f, main], and the frame of [main] is built first. *)


(** ** Stack frames *)

Section build_frame.
Import FunctionStack.







End build_frame.



(** The offset of a local counts the parameters declared before it: a scope
    that lists a local first gives it the slot of the second parameter. *)
Lemma frame_of_local_first :
  frame_offsets
    (FunctionStack.frame_of "g" 0
       [mkSymbol "x" VariableSymbol; mkSymbol "a" ParameterSymbol;
        mkSymbol "b" ParameterSymbol])
  = [-12; -16; -16]%Z.
Proof. reflexivity. Qed.


(** ** Parameters have no slot *)

Section parameters.

Lemma find_local_None (p : string) (vars : list (string * Z * bool)) :
  p ∉ (λ v : string * Z * bool, v.1.1) <$> vars →
  List.find (λ v : string * Z * bool, String.eqb v.1.1 p) vars = None.
Proof.
  induction vars as [|[[x o] b] vars IH]; [done|]. cbn.
  intros Hnin. destruct (String.eqb x p) eqn:Heq.
  - apply String.eqb_eq in Heq as ->. destruct Hnin. by left.
  - apply IH. intros Hin. apply Hnin. by right.
Qed.

Lemma set_memflag_not_local (p : string) (b : bool)
    (vars : list (string * Z * bool)) :
  p ∉ (λ v : string * Z * bool, v.1.1) <$> vars →
  FunctionStackFrame.set_memflag p b vars = vars.
Proof.
  induction vars as [|[[x o] b'] vars IH]; [done|]. cbn.
  intros Hnin. destruct (String.eqb x p) eqn:Heq.
  - apply String.eqb_eq in Heq as ->. destruct Hnin. by left.
  - rewrite IH; [done|]. intros Hin. apply Hnin. by right.
Qed.

Lemma set_memflag_names (v : string) (b : bool)
    (vars : list (string * Z * bool)) :
  (λ v : string * Z * bool, v.1.1) <$> FunctionStackFrame.set_memflag v b vars
  = (λ v : string * Z * bool, v.1.1) <$> vars.
Proof.
  induction vars as [|[[x o] b'] vars IH]; [done|]. cbn.
  destruct (String.eqb x v); cbn; [done|]. by rewrite IH.
Qed.

(** A parameter has no slot among the locals: no offset, no flag. *)
Lemma not_local_no_slot (frame : FunctionStackFrame.t) (p : string) :
  p ∉ local_names frame →
  FunctionStackFrame.get_var_offset frame p = None
  ∧ FunctionStackFrame.if_var_in_memory frame p = false
  ∧ ∀ b, FunctionStackFrame.set_var_memflag frame p b = frame.
Proof.
  intros Hnin. unfold FunctionStackFrame.get_var_offset,
    FunctionStackFrame.if_var_in_memory, FunctionStackFrame.set_var_memflag.
  rewrite find_local_None by done. split; [done|]. split; [done|].
  intros b. rewrite set_memflag_not_local by done. by destruct frame.
Qed.

Lemma fold_add_symbol_names (symbols : list Symbol) (l : FunctionStack.layout) :
  (λ v : string * Z * bool, v.1.1)
    <$> FunctionStack.local_vars
          (fold_left (FunctionStack.add_symbol (-4)) symbols l)
  = ((λ v : string * Z * bool, v.1.1) <$> FunctionStack.local_vars l)
    ++ locals symbols.
Proof.
  revert l. induction symbols as [|s symbols IH]; intros l.
  { cbn. by rewrite app_nil_r. }
  cbn [fold_left]. rewrite IH. unfold FunctionStack.add_symbol, locals.
  cbn [omap list_omap]. destruct (kind s); cbn; try done.
  by rewrite fmap_app, <- app_assoc.
Qed.

Lemma frame_of_local_names func_name old_sp symbols :
  local_names (FunctionStack.frame_of func_name old_sp symbols)
  = locals symbols.
Proof. unfold local_names, FunctionStack.frame_of. cbn. apply fold_add_symbol_names. Qed.

Lemma parameter_not_local (symbols : list Symbol) (p : string) :
  NoDup (name <$> symbols) → p ∈ parameters symbols → p ∉ locals symbols.
Proof.
  unfold parameters, locals.
  intros Hnd (s & Hs & Hks)%list_elem_of_omap (s' & Hs' & Hks')%list_elem_of_omap.
  destruct (kind s) eqn:Hk; try done. injection Hks as <-.
  destruct (kind s') eqn:Hk'; try done. injection Hks' as Heq.
  assert (s = s') as <-; [|congruence].
  apply list_elem_of_lookup in Hs as [i Hi]. apply list_elem_of_lookup in Hs' as [j Hj].
  assert (i = j) as <-; [|congruence].
  apply (NoDup_lookup (name <$> symbols) i j (name s)); [done|..].
  - by rewrite list_lookup_fmap, Hi.
  - rewrite list_lookup_fmap, Hj. cbn. by f_equal.
Qed.

Lemma dict_get_elem_of {K V} `{EqDecision K} (k : K) (v : V) (d : list (K * V)) :
  (k, v) ∈ d → is_Some (dict_get k d).
Proof.
  induction d as [|[k' v'] d IH]; [by intros ?%elem_of_nil|]. cbn.
  case_decide; [by eauto|]. intros [[= -> ->]|?]%elem_of_cons; [done|auto].
Qed.

Lemma scan_victim_bound self cur_pos bindings victim farthest k :
  MemController.scan_victim self cur_pos bindings victim farthest = Some k →
  victim = Some k ∨ ∃ r, (k, r) ∈ bindings.
Proof.
  revert victim farthest.
  induction bindings as [|[[af av] r] bindings IH]; intros victim farthest.
  { cbn. by left. }
  cbn [MemController.scan_victim]. destruct (List.find _ _) as [next_use|].
  - destruct (match farthest with None => _ | Some _ => _ end).
    + intros [[= <-]|[r' ?]]%IH; right; [exists r; by left|exists r'; by right].
    + intros [?|[r' ?]]%IH; [by left|right; exists r'; by right].
  - intros [= <-]. right. exists r. by left.
Qed.

Lemma select_victim_bound self cur_pos k :
  MemController.select_victim self cur_pos = Some k →
  is_Some (dict_get k (MemController.rvalues self)).
Proof.
  intros [?|[r Hr]]%scan_victim_bound; [done|]. by eapply dict_get_elem_of.
Qed.
End parameters.

(** C9: [get_var_offset] and [if_var_in_memory] read the local variables
    of a frame only.  Hence, in the frame built from a scope (whose names are
    the keys of a [dict]), a parameter has no offset and no flag; setting a
    flag never touches the parameters; and when [alloc_reg] evicts a
    parameter of the current function it adds no store to the code and
    changes no frame, whether the parameter is live or not. *)
Theorem parameters_never_spilled (symbols : list Symbol)
    (func_name : string) (old_sp : Z) (p : string) :
  NoDup (name <$> symbols) → p ∈ parameters symbols →
  let frame := FunctionStack.frame_of func_name old_sp symbols in
  FunctionStackFrame.get_var_offset frame p = None
  ∧ FunctionStackFrame.if_var_in_memory frame p = false
  ∧ (∀ (fr fr' : FunctionStackFrame.t) (v : string),
       FunctionStackFrame.local_vars fr = FunctionStackFrame.local_vars fr' →
       FunctionStackFrame.get_var_offset fr v
       = FunctionStackFrame.get_var_offset fr' v
       ∧ FunctionStackFrame.if_var_in_memory fr v
         = FunctionStackFrame.if_var_in_memory fr' v)
  ∧ (∀ fr : FunctionStackFrame.t, local_names fr = local_names frame →
       (∀ v b, local_names (FunctionStackFrame.set_var_memflag fr v b)
               = local_names frame
               ∧ FunctionStackFrame.params
                   (FunctionStackFrame.set_var_memflag fr v b)
                 = FunctionStackFrame.params fr)
       ∧ FunctionStackFrame.set_var_memflag fr p true = fr
       ∧ FunctionStackFrame.if_var_in_memory fr p = false
       ∧ ∀ (self : MemController.t) (varname : operand) (cur_pos : position)
           (code : list instr),
           cur_pos.1.1 = func_name →
           FunctionStack.get_frame (MemController.function_stack self)
             func_name = Some fr →
           dict_get (func_name, varname) (MemController.rvalues self) = None →
           pool_exhausted self →
           MemController.select_victim self cur_pos
             = Some (func_name, OStr p) →
           ∃ reg self',
             MemController.alloc_reg self varname cur_pos code
               = Ok (reg, self', code)
             ∧ MemController.function_stack self'
               = MemController.function_stack self).
Proof.
  intros Hnd Hp frame.
  assert (p ∉ local_names frame) as Hnin.
  { subst frame. rewrite frame_of_local_names. by apply parameter_not_local. }
  destruct (not_local_no_slot frame p Hnin) as (Hoff & Hmem & _).
  split; [done|]. split; [done|]. split.
  { intros fr fr' v Heq. unfold FunctionStackFrame.get_var_offset,
      FunctionStackFrame.if_var_in_memory. by rewrite Heq. }
  intros fr Hnames. rewrite <- Hnames in Hnin.
  destruct (not_local_no_slot fr p Hnin) as (Hoff' & Hmem' & Hset).
  split; [|split; [done|split; [done|]]].
  { intros v b. split; [|done]. rewrite <- Hnames. apply set_memflag_names. }
  intros self varname [[fn bi] qi] code Hfn Hframe Hkey Hfull Hvictim.
  cbn in Hfn. subst fn.
  destruct (select_victim_bound _ _ _ Hvictim) as [reg Hreg].
  exists reg. eexists. unfold MemController.alloc_reg. cbn [fst snd].
  rewrite Hkey. unfold pool_exhausted in Hfull. rewrite Hfull.
  rewrite Hvictim. cbn. rewrite Hreg. cbn.
  unfold MemController.spill. cbn [fst snd]. rewrite Hframe, Hoff'.
  destruct (_ && _); cbn; split; reflexivity.
Qed.

(** In [crowded] the victim is the parameter [a], which is used again
    later: no store is emitted. *)
Lemma parameters_never_spilled_witness :
  NoDup (name <$> crowded_scope)
  ∧ "a" ∈ parameters crowded_scope
  ∧ "a" ∈ MemController.get_live_vars_after crowded ("f", 0, 1)
  ∧ MemController.select_victim crowded ("f", 0, 1) = Some ("f", OStr "a")
  ∧ ∃ reg self',
      MemController.alloc_reg crowded (OStr "t") ("f", 0, 1) []
        = Ok (reg, self', [])
      ∧ MemController.function_stack self'
        = MemController.function_stack crowded.
Proof.
  assert (NoDup (name <$> crowded_scope)) as Hnd
    by (by apply (bool_decide_unpack _)).
  assert ("a" ∈ parameters crowded_scope) as Hp
    by (by apply (bool_decide_unpack _)).
  split; [done|]. split; [done|].
  split; [by apply (bool_decide_unpack _)|]. split; [by vm_compute|].
  destruct (parameters_never_spilled crowded_scope "f" 0 "a" Hnd Hp)
    as (_ & _ & _ & Halloc).
  destruct (Halloc (FunctionStack.frame_of "f" 0 crowded_scope) eq_refl)
    as (_ & _ & _ & Hspill).
  apply (Hspill crowded (OStr "t") ("f", 0, 1) []).
  - done.
  - by vm_compute.
  - by vm_compute.
  - by vm_compute.
  - by vm_compute.
Defined.

(** ** The register allocator *)

Section dict_facts.
Context {K V : Type} `{EqDecision K}.

Lemma dict_get_Some (k : K) (v : V) (d : list (K * V)) :
  dict_get k d = Some v → (k, v) ∈ d.
Proof.
  induction d as [|[k' v'] d IH]; [done|]. cbn. case_decide as Hk.
  - intros [= ->]. subst. by left.
  - intros ?. right. auto.
Qed.

Lemma dict_get_set (k : K) (v : V) (d : list (K * V)) :
  dict_get k (dict_set k v d) = Some v.
Proof.
  induction d as [|[k' v'] d IH]; cbn.
  - by rewrite decide_True.
  - case_decide; cbn; [by rewrite decide_True|]. by rewrite decide_False.
Qed.

Lemma dict_set_values (k : K) (v w : V) (d : list (K * V)) :
  w ∈ (dict_set k v d).*2 → w = v ∨ w ∈ d.*2.
Proof.
  induction d as [|[k' v'] d IH]; cbn.
  - intros [->|?%elem_of_nil]%elem_of_cons; [by left|done].
  - case_decide; cbn.
    + intros [->|?]%elem_of_cons; [by left|]. right. by right.
    + intros [->|[->|?]%IH]%elem_of_cons; [right; by left|by left|].
      right. by right.
Qed.

Lemma dict_del_values (k : K) (w : V) (d : list (K * V)) :
  w ∈ (dict_del k d).*2 → w ∈ d.*2.
Proof.
  induction d as [|[k' v'] d IH]; cbn; [done|]. case_decide; cbn.
  - intros ?. by right.
  - intros [->|?%IH]%elem_of_cons; [by left|by right].
Qed.
End dict_facts.

Section alloc_reg.
Import MemController.

Lemma scan_victim_Some self cur_pos bindings v farthest :
  is_Some (scan_victim self cur_pos bindings (Some v) farthest).
Proof.
  revert v farthest.
  induction bindings as [|[[af av] r] bindings IH]; intros v farthest; cbn.
  - by eauto.
  - destruct (List.find _ _); [|by eauto].
    destruct (match farthest with None => _ | Some _ => _ end); apply IH.
Qed.

(** Only an empty table leaves the scan without a victim. *)
Lemma select_victim_None self cur_pos :
  select_victim self cur_pos = None → rvalues self = [].
Proof.
  unfold select_victim. destruct (rvalues self) as [|[[af av] r] bindings];
    [done|].
  cbn. destruct (List.find _ _); [|done].
  intros Hnone. by destruct (scan_victim_Some self cur_pos bindings (af, av)
                               (Some p)) as [? ?]; simplify_eq.
Qed.
End alloc_reg.

Lemma alloc_reg_cases (self : MemController.t) (varname : operand)
    (cur_pos : position) (code : list instr) :
  let key := (cur_pos.1.1, varname) in
  match MemController.alloc_reg self varname cur_pos code with
  | Ok (reg, self', code') =>
      (∀ r, dict_get key (MemController.rvalues self) = Some r →
         reg = r ∧ self' = self ∧ code' = code)
      ∧ (dict_get key (MemController.rvalues self) = None →
         ¬ pool_exhausted self →
         reg ∈ MemController.varregs ∧ (reg ∉ MemController.usedregs self)
         ∧ code' = code)
      ∧ (reg ∈ MemController.varregs
         ∨ reg ∈ (MemController.rvalues self).*2)
      ∧ dict_get key (MemController.rvalues self') = Some reg
      ∧ ∀ r, r ∈ (MemController.rvalues self').*2 →
          r = reg ∨ r ∈ (MemController.rvalues self).*2
  | Raise e =>
      e = KeyError ∧ MemController.rvalues self = [] ∧ pool_exhausted self
  end.
Proof.
  intros key. unfold MemController.alloc_reg, pool_exhausted. fold key.
  remember MemController.valregs as pool eqn:Hpool.
  destruct (dict_get key (MemController.rvalues self)) as [reg|] eqn:Hkey.
  { unfold mret, result_ret. split; [by intros r [= ->]|]. split; [done|].
    split; [right|split; [done|by right]].
    apply dict_get_Some in Hkey. apply list_elem_of_fmap. by exists (key, reg). }
  destruct (filter _ pool) as [|reg free] eqn:Hfree.
  - destruct (MemController.select_victim self cur_pos) as [[vf vv]|] eqn:Hv.
    + destruct (select_victim_bound _ _ _ Hv) as [reg Hreg].
      unfold or_raise, mbind, result_bind, mret, result_ret. rewrite Hreg.
      destruct (MemController.spill _ _ _ _ _ _) as [frames code'].
      cbn [MemController.rvalues].
      split; [done|]. split; [done|].
      split; [right|split; [apply dict_get_set|]].
      * apply dict_get_Some in Hreg. apply list_elem_of_fmap.
        by exists ((vf, vv), reg).
      * intros r [->|?%dict_del_values]%dict_set_values; [by left|by right].
    + unfold or_raise, mbind, result_bind.
      split; [done|]. split; [|done]. by apply select_victim_None in Hv.
  - unfold mret, result_ret. cbn [MemController.rvalues].
    assert (reg ∈ filter (λ r, r ∉ MemController.usedregs self) pool) as Hin
      by (rewrite Hfree; by left).
    apply list_elem_of_filter in Hin as [Hunused Hin]. subst pool.
    split; [done|]. split; [done|]. split; [by left|].
    split; [apply dict_get_set|].
    intros r [->|?]%dict_set_values; [by left|by right].
Qed.

(** With only registers of the pool in the table, [alloc_reg] returns one
    and keeps it so. *)
Lemma alloc_reg_pool (self : MemController.t) (varname : operand)
    (cur_pos : position) (code : list instr) :
  Forall (λ r, r ∈ MemController.varregs) (MemController.rvalues self).*2 →
  match MemController.alloc_reg self varname cur_pos code with
  | Ok (reg, self', _) =>
      reg ∈ MemController.varregs
      ∧ Forall (λ r, r ∈ MemController.varregs) (MemController.rvalues self').*2
  | Raise _ => True
  end.
Proof.
  intros Hall. pose proof (alloc_reg_cases self varname cur_pos code) as H.
  cbn zeta in H.
  destruct (MemController.alloc_reg _ _ _ _) as [[[reg self'] code']|]; [|done].
  destruct H as (_ & _ & Hreg & _ & Hvals). rewrite Forall_forall in Hall.
  assert (reg ∈ MemController.varregs) as Hpool by (destruct Hreg; auto).
  split; [done|]. apply Forall_forall. intros r [->|?]%Hvals; auto.
Qed.

(** C10, as stated, fails: in the function [f] of [two_functions] the
    parameter [a] is bound to [$a0] by the prologue, [alloc_reg] returns
    [$a0] for it, and [$a0] is not in the pool of the variables. *)
Lemma alloc_reg_returns_argument_register :
  match AimCodeGenerator.compile elements two_functions
          two_functions_symbols with
  | Ok gen =>
      let self := AimCodeGenerator.mem_controller gen in
      dict_get ("f", OStr "a") (MemController.rvalues self) = Some "$a0"
      ∧ MemController.alloc_reg self (OStr "a") ("f", 0, 0) []
        = Ok ("$a0", self, [])
      ∧ ("$a0" ∉ MemController.varregs)
      ∧ Op3 "add" "$t2" "$a0" "$a1" ∈ AimCodeGenerator.code gen
  | Raise _ => False
  end.
Proof.
  let r := eval vm_compute in
    (AimCodeGenerator.compile elements two_functions two_functions_symbols) in
  change (AimCodeGenerator.compile elements two_functions
            two_functions_symbols) with r.
  cbv zeta. split; [by vm_compute|]. split; [by vm_compute|].
  split; by apply (bool_decide_unpack _).
Qed.

(** The scan for a victim goes over the bindings of [param] as well: [w]
    gets [$a0], and the binding that the prologue of [f] would have rebased
    is gone. *)
Lemma eviction_hands_out_argument_register :
  match AimCodeGenerator.compile elements nineteen_variables
          nineteen_variables_symbols with
  | Ok gen =>
      Li "$a0" (ImmInt 7) ∈ AimCodeGenerator.code gen
      ∧ Op3 "add" "$a0" "$t0" "$a0" ∈ AimCodeGenerator.code gen
  | Raise _ => False
  end.
Proof.
  let r := eval vm_compute in
    (AimCodeGenerator.compile elements nineteen_variables
       nineteen_variables_symbols) in
  change (AimCodeGenerator.compile elements nineteen_variables
            nineteen_variables_symbols) with r.
  split; by apply (bool_decide_unpack _).
Qed.

(** ** The param branch *)

Section param.
Import AimCodeGenerator.
Variable block_controller : BlockController.t.

Lemma quad_to_code_param index quad cur_pos mc :
  op quad = "param" →
  quad_to_code block_controller (index, quad) cur_pos mc
  = param_to_code quad cur_pos mc.
Proof. intros Hop. unfold quad_to_code. by rewrite Hop. Qed.

Lemma pararegs_lookup (k : nat) :
  1 ≤ k ≤ 4 → MemController.pararegs !! (k - 1) = Some (argument_register k).
Proof.
  intros Hk. assert (k = 1 ∨ k = 2 ∨ k = 3 ∨ k = 4) as Hcases by lia.
  by destruct Hcases as [-> | [-> | [-> | ->]]].
Qed.

Lemma int_of_char_le (code : Z) (k : nat) : int_of_char code = Some k → k ≤ 9.
Proof.
  unfold int_of_char. intros Hk.
  destruct (List.find _ decimal_zeros) as [zero|] eqn:Hfind; [|done].
  apply find_some in Hfind as [_ Hin]. injection Hk as <-.
  apply andb_true_iff in Hin as [?%Z.leb_le ?%Z.leb_le]. lia.
Qed.

Lemma first_digit_le (s : string) (k : nat) :
  first_digit s = Ok (Some k) → k ≤ 9.
Proof.
  unfold first_digit. destruct (List.find _ (chars s)) as [[code raw]|]; [|done].
  destruct (int_of_char code) as [n|] eqn:Hn; [|done].
  intros [= <-]. by eapply int_of_char_le.
Qed.

Lemma first_digit_ValueError (s : string) (e : exn) :
  first_digit s = Raise e → ∃ message, e = ValueError message.
Proof.
  unfold first_digit. destruct (List.find _ (chars s)) as [[code raw]|]; [|done].
  destruct (int_of_char code); [done|]. intros [= <-]. by eexists.
Qed.
End param.

(** C3, as the code has it.  The index of a [param] quadruple is read from
    its result operand as [int] of the first character that [str.isdigit]
    accepts.  When [int] rejects that character the quadruple raises the
    [ValueError] of [int].  Otherwise, with [k] the value read (0 when there
    is no digit), the quadruple raises when [k] is not in 1-4; for [k] in
    5-9 it raises an [ErrorException] with the code [PARAM_LIMIT], which
    [is_fatal] does not count as fatal; for [k] in 1-4 a constant is loaded
    into the [k]-th argument register, a variable is moved there from its
    register, and the binding [(param k, argument)] is recorded. *)
Theorem param_to_code_cases (block_controller : BlockController.t)
    (index : Z) (quad : Quadruple) (cur_pos : position)
    (mc : MemController.t) (res : string) :
  op quad = "param" → result quad = OStr res →
  let run :=
    AimCodeGenerator.quad_to_code block_controller (index, quad) cur_pos mc in
  (∀ e, AimCodeGenerator.first_digit res = Raise e →
     run = Raise e ∧ ∃ message, e = ValueError message)
  ∧ ∀ digit, AimCodeGenerator.first_digit res = Ok digit →
      let k := default 0 digit in
      (¬ 1 ≤ k ≤ 4 → ∃ e, run = Raise e)
      ∧ (5 ≤ k → k ≤ 9
         ∧ ∃ message,
             run
             = Raise (ErrorException message ErrorCode.PARAM_LIMIT None None)
             ∧ ErrorCode.is_fatal ErrorCode.PARAM_LIMIT = false)
      ∧ (1 ≤ k ≤ 4 → ∀ z, arg1 quad = OInt z →
           run = Ok (AimCodeGenerator.set_rvalue
                       ("param" +:+ pretty k, OInt z) (argument_register k) mc,
                     [Li (argument_register k) (ImmInt z)]))
      ∧ (1 ≤ k ≤ 4 → ∀ a, arg1 quad = OStr a →
           ¬ (MemController.rvalues mc = [] ∧ pool_exhausted mc) →
           ∃ src mc' spill_code,
             MemController.alloc_reg mc (OStr a) cur_pos []
               = Ok (src, mc', spill_code)
             ∧ dict_get (cur_pos.1.1, OStr a) (MemController.rvalues mc')
               = Some src
             ∧ run = Ok (AimCodeGenerator.set_rvalue
                           ("param" +:+ pretty k, OStr a)
                           (argument_register k) mc',
                         spill_code
                         ++ [Op3 "add" (argument_register k) src "$zero"])).
Proof.
  intros Hop Hres run. subst run.
  rewrite quad_to_code_param by done.
  unfold AimCodeGenerator.param_to_code. rewrite Hres. split.
  { intros e He. rewrite He. split; [done|]. by eapply first_digit_ValueError. }
  intros digit Hdigit. rewrite Hdigit.
  cbn [mbind result_bind].
  destruct digit as [[|k]|]; cbn [default from_option id].
  - split; [by eauto|]. split; [intros; lia|]. split; intros; lia.
  - apply first_digit_le in Hdigit.
    destruct (4 <? S k) eqn:Hk;
      [apply Nat.ltb_lt in Hk|apply Nat.ltb_ge in Hk].
    + split; [by eauto|]. split; [by eauto|]. split; intros; lia.
    + rewrite (pararegs_lookup (S k)) by lia. cbn.
      split; [intros; lia|]. split; [intros; lia|]. split.
      * intros _ z ->. done.
      * intros _ a -> Hstate.
        pose proof (alloc_reg_cases mc (OStr a) cur_pos []) as Halloc.
        cbn zeta in Halloc. unfold AimCodeGenerator.alloc. cbn [fst snd].
        destruct (MemController.alloc_reg mc (OStr a) cur_pos [])
          as [[[src mc'] code]|e].
        -- destruct Halloc as (_ & _ & _ & Hsrc & _).
           exists src, mc', code. by cbn.
        -- destruct Halloc as (_ & ? & ?). by destruct Hstate.
  - split; [by eauto|]. split; [intros; lia|]. split; intros; lia.
Qed.

(** [param 2 -> param_2]: the constant goes to [$a1]. *)
Lemma param_to_code_cases_witness :
  AimCodeGenerator.first_digit "param_2" = Ok (Some 2)
  ∧ AimCodeGenerator.quad_to_code
      (BlockController.mk [] [] [] [] [] [])
      (5%Z, mkQuad "param" (OInt 2) ONone (OStr "param_2")) ("main", 0, 2)
      (MemController.init [])
    = Ok (AimCodeGenerator.set_rvalue ("param2", OInt 2) "$a1"
            (MemController.init []),
          [Li "$a1" (ImmInt 2)]).
Proof.
  assert (AimCodeGenerator.first_digit "param_2" = Ok (Some 2)) as Hdigit
    by (by vm_compute).
  split; [exact Hdigit|].
  destruct (param_to_code_cases (BlockController.mk [] [] [] [] [] [])
              5%Z (mkQuad "param" (OInt 2) ONone (OStr "param_2"))
              ("main", 0, 2) (MemController.init []) "param_2"
              eq_refl eq_refl) as [_ Hcases].
  destruct (Hcases (Some 2) Hdigit) as (_ & _ & Himm & _).
  apply (Himm ltac:(cbn; lia) 2%Z eq_refl).
Defined.

(** C3, as the specification has it, fails: the error raised for a fifth
    parameter has a code that is not fatal. *)
Lemma param_limit_is_not_fatal :
  (∃ message,
     AimCodeGenerator.quad_to_code (BlockController.mk [] [] [] [] [] [])
       (7%Z, mkQuad "param" (OInt 2) ONone (OStr "param_5")) ("main", 0, 4)
       (MemController.init [])
     = Raise (ErrorException message ErrorCode.PARAM_LIMIT None None))
  ∧ ErrorCode.is_fatal ErrorCode.PARAM_LIMIT = false.
Proof. split; [eexists; by vm_compute|reflexivity]. Qed.

(** Only the first digit of the operand is read: [param_10] is taken for
    the first parameter. *)
Lemma param_index_first_digit :
  AimCodeGenerator.quad_to_code (BlockController.mk [] [] [] [] [] [])
    (12%Z, mkQuad "param" (OInt 9) ONone (OStr "param_10")) ("main", 0, 9)
    (MemController.init [])
  = Ok (AimCodeGenerator.set_rvalue ("param1", OInt 9) "$a0"
          (MemController.init []),
        [Li "$a0" (ImmInt 9)]).
Proof. reflexivity. Qed.

(** The digits are those of [str.isdigit], not the ASCII ones only: the
    Arabic-Indic digit three makes [param_٣] the third parameter. *)
Lemma param_index_arabic_indic_digit :
  AimCodeGenerator.quad_to_code (BlockController.mk [] [] [] [] [] [])
    (12%Z, mkQuad "param" (OInt 7) ONone (OStr "param_٣")) ("main", 0, 9)
    (MemController.init [])
  = Ok (AimCodeGenerator.set_rvalue ("param3", OInt 7) "$a2"
          (MemController.init []),
        [Li "$a2" (ImmInt 7)]).
Proof. by vm_compute. Qed.

(** A superscript two is a digit for [str.isdigit] and none for [int]: the
    quadruple raises the [ValueError] of [int], although an ASCII digit
    follows. *)
Lemma param_index_superscript_digit :
  AimCodeGenerator.quad_to_code (BlockController.mk [] [] [] [] [] [])
    (12%Z, mkQuad "param" (OInt 7) ONone (OStr "p²3")) ("main", 0, 9)
    (MemController.init [])
  = Raise (ValueError "invalid literal for int() with base 10: '²'").
Proof. by vm_compute. Qed.

(** ** Division by zero *)

Section division.
Import AimCodeGenerator.
Variable block_controller : BlockController.t.

Lemma quad_to_code_division index quad cur_pos mc :
  op quad = "/" →
  quad_to_code block_controller (index, quad) cur_pos mc
  = binop_to_code "div" quad cur_pos mc.
Proof. intros Hop. unfold quad_to_code. by rewrite Hop. Qed.
End division.

(** C8, as the code has it: a division of two constants by the constant 0
    raises when the code is generated, and what it raises is not an
    [ErrorException]: it is the [ValueError] with the message
    ["Division by zero"] (or, in a state without any binding and without a
    free register, the [KeyError] of the allocation of the result). *)
Theorem division_by_zero_raises (block_controller : BlockController.t)
    (index : Z) (quad : Quadruple) (cur_pos : position)
    (mc : MemController.t) (a : Z) :
  op quad = "/" → arg1 quad = OInt a → arg2 quad = OInt 0 →
  ∃ e,
    AimCodeGenerator.quad_to_code block_controller (index, quad) cur_pos mc
      = Raise e
    ∧ ¬ is_ErrorException e
    ∧ (e = ValueError "Division by zero"
       ∨ (e = KeyError ∧ MemController.rvalues mc = [] ∧ pool_exhausted mc)).
Proof.
  intros Hop Ha Hb. rewrite quad_to_code_division by done.
  unfold AimCodeGenerator.binop_to_code, AimCodeGenerator.alloc. cbn [fst snd].
  pose proof (alloc_reg_cases mc (result quad) cur_pos []) as Halloc.
  cbn zeta in Halloc.
  destruct (MemController.alloc_reg mc (result quad) cur_pos [])
    as [[[reg mc'] code]|e].
  - exists (ValueError "Division by zero"). rewrite Ha, Hb, Hop. cbn.
    split; [done|]. split; [by intros []|by left].
  - exists e. destruct Halloc as (-> & ? & ?). cbn.
    split; [done|]. split; [by intros []|by right].
Qed.

(** [6 / 0] in the initial state. *)
Lemma division_by_zero_raises_witness :
  AimCodeGenerator.quad_to_code (BlockController.mk [] [] [] [] [] [])
    (9%Z, mkQuad "/" (OInt 6) (OInt 0) (OStr "t")) ("main", 0, 0)
    (MemController.init [])
  = Raise (ValueError "Division by zero").
Proof.
  destruct (division_by_zero_raises (BlockController.mk [] [] [] [] [] [])
              9%Z (mkQuad "/" (OInt 6) (OInt 0) (OStr "t")) ("main", 0, 0)
              (MemController.init []) 6%Z eq_refl eq_refl eq_refl)
    as (e & -> & _ & [->|(_ & _ & Hfull)]); [done|].
  by vm_compute in Hfull.
Defined.

(** C8, as the specification has it, fails: the exception of [6 / 0]
    carries a message only, no error code and no fix suggestion. *)
Lemma division_by_zero_is_a_ValueError :
  AimCodeGenerator.quad_to_code (BlockController.mk [] [] [] [] [] [])
    (9%Z, mkQuad "/" (OInt 6) (OInt 0) (OStr "t")) ("main", 0, 0)
    (MemController.init [])
  = Raise (ValueError "Division by zero")
  ∧ ¬ is_ErrorException (ValueError "Division by zero").
Proof. split; [reflexivity|by intros []]. Qed.

(** ** The call sequence *)

Section call.
Import AimCodeGenerator.
Variable block_controller : BlockController.t.

Lemma quad_to_code_call index quad cur_pos mc :
  op quad = "call" →
  quad_to_code block_controller (index, quad) cur_pos mc
  = Ok (mc, call_to_code quad cur_pos mc).
Proof. intros Hop. unfold quad_to_code. by rewrite Hop. Qed.

Lemma omap_fmap_ext {A B C} (f : A → option C) (h : A → option B)
    (g : B → C) (l : list A) :
  (∀ x, f x = g <$> h x) → omap f l = g <$> omap h l.
Proof.
  intros Hext. induction l as [|x l IH]; [done|].
  change (omap f (x :: l))
    with (match f x with Some y => y :: omap f l | None => omap f l end).
  change (omap h (x :: l))
    with (match h x with Some y => y :: omap h l | None => omap h l end).
  rewrite Hext, IH. by destruct (h x).
Qed.

Lemma live_slots_saved line mc frame cur_pos :
  live_slots line mc (Some frame) cur_pos.1.1
    (MemController.get_live_vars_after mc cur_pos)
  = (λ s : string * Z, line s.1 s.2 MemController.spreg)
      <$> saved_slots mc frame cur_pos.
Proof.
  unfold live_slots, saved_slots. apply omap_fmap_ext. intros var. cbn.
  by destruct (FunctionStackFrame.get_var_offset frame var).
Qed.

(** A variable is saved when it is live after the call: bound to a register
    in the caller and used again in the caller. *)
Lemma elem_of_get_live_vars_after mc cur_pos var :
  var ∈ MemController.get_live_vars_after mc cur_pos ↔
  ∃ use_list,
    (var, use_list) ∈ MemController.var_use_pos mc
    ∧ var ≠ "$ret_reg"
    ∧ is_Some (dict_get (cur_pos.1.1, OStr var) (MemController.rvalues mc))
    ∧ ∃ pos : position,
        pos ∈ use_list ∧ pos.1.1 = cur_pos.1.1
        ∧ position_ltb cur_pos pos = true.
Proof.
  unfold MemController.get_live_vars_after. rewrite list_elem_of_omap. split.
  - intros ([v use_list] & Hin & Hsome). exists use_list.
    destruct (negb (String.eqb v "$ret_reg")) eqn:Hret; [|done].
    destruct (dict_mem _ _) eqn:Hmem; [|done].
    destruct (existsb _ use_list) eqn:Huse; [|done].
    cbn in Hsome. injection Hsome as ->.
    apply negb_true_iff, String.eqb_neq in Hret.
    apply bool_decide_eq_true in Hmem.
    apply existsb_exists in Huse as (pos & Hpos & [Hf Hlt]%andb_true_iff).
    apply String.eqb_eq in Hf. repeat split; try done.
    exists pos. split; [by apply list_elem_of_In|done].
  - intros (use_list & Hin & Hret & Hbound & pos & Hpos & Hf & Hlt).
    exists (var, use_list). split; [done|].
    apply String.eqb_neq in Hret. rewrite Hret. cbn.
    unfold dict_mem. rewrite bool_decide_eq_true_2 by done. cbn.
    assert (existsb (λ pos : position,
              String.eqb pos.1.1 cur_pos.1.1 && position_ltb cur_pos pos)
              use_list = true) as ->; [|done].
    apply existsb_exists. exists pos. split; [by apply list_elem_of_In|].
    apply andb_true_iff. split; [by apply String.eqb_eq|done].
Qed.
End call.

(** C2, as the code has it: in a function whose frame has been built, a
    [call] emits, in this order, a comment line, the stores of the saved
    registers to their slots, the store of [$sp], the decrement of [$sp] by
    the size of the frame of the calling function, the store of [$ra], the
    [jal], the reload of [$ra], the increment of [$sp] and the reloads of
    the saved registers; a register is saved when it holds a local of the
    caller that has a slot and is still live. *)
Theorem call_sequence (block_controller : BlockController.t) (index : Z)
    (quad : Quadruple) (cur_pos : position) (mc : MemController.t)
    (frame : FunctionStackFrame.t) :
  op quad = "call" →
  FunctionStack.get_frame (MemController.function_stack mc) cur_pos.1.1
    = Some frame →
  let size := FunctionStackFrame.size frame in
  let saved := saved_slots mc frame cur_pos in
  AimCodeGenerator.quad_to_code block_controller (index, quad) cur_pos mc
  = Ok (mc,
        [Comment]
        ++ ((λ s : string * Z, Sw s.1 s.2 "$sp") <$> saved)
        ++ [Sw "$sp" (- size) "$sp"; Addi "$sp" "$sp" (- size);
            Sw "$ra" (-4) "$sp";
            Jal (arg1 quad);
            Lw "$ra" (-4) "$sp"; Addi "$sp" "$sp" size]
        ++ ((λ s : string * Z, Lw s.1 s.2 "$sp") <$> saved))
  ∧ ∀ reg offset, (reg, offset) ∈ saved ↔
      ∃ var,
        var ∈ MemController.get_live_vars_after mc cur_pos
        ∧ dict_get (cur_pos.1.1, OStr var) (MemController.rvalues mc)
          = Some reg
        ∧ FunctionStackFrame.get_var_offset frame var = Some offset.
Proof.
  intros Hop Hframe size saved. split.
  - rewrite quad_to_code_call by done. f_equal. f_equal.
    unfold AimCodeGenerator.call_to_code, AimCodeGenerator.frame_of.
    rewrite Hframe. rewrite !live_slots_saved. fold saved size.
    unfold MemController.spreg, MemController.rareg. by cbn [app].
  - intros reg offset. subst saved. unfold saved_slots.
    rewrite list_elem_of_omap. split.
    + intros (var & Hlive & Hslot). exists var. split; [done|].
      destruct (FunctionStackFrame.get_var_offset frame var) as [off|];
        [|done].
      cbn in Hslot. injection Hslot as <- <-.
      apply elem_of_get_live_vars_after in Hlive
        as (_ & _ & _ & [r Hr] & _).
      by rewrite Hr.
    + intros (var & Hlive & Hreg & Hoff). exists var. split; [done|].
      by rewrite Hoff, Hreg.
Qed.

(** The call of [f] in [main] of [two_functions]. *)
Lemma call_sequence_witness :
  AimCodeGenerator.quad_to_code (BlockController.mk [] [] [] [] [] [])
    (6%Z, mkQuad "call" (OStr "f") (OInt 2) ONone) ("main", 0, 3) at_call
  = Ok (at_call,
        [Comment; Sw "$t0" (-16) "$sp";
         Sw "$sp" (-24) "$sp"; Addi "$sp" "$sp" (-24); Sw "$ra" (-4) "$sp";
         Jal (OStr "f");
         Lw "$ra" (-4) "$sp"; Addi "$sp" "$sp" 24; Lw "$t0" (-16) "$sp"]).
Proof.
  destruct (call_sequence (BlockController.mk [] [] [] [] [] []) 6%Z
              (mkQuad "call" (OStr "f") (OInt 2) ONone) ("main", 0, 3)
              at_call
              (FunctionStack.frame_of "main" 0 [mkSymbol "x" VariableSymbol])
              eq_refl eq_refl) as [Hcode _].
  exact Hcode.
Defined.

(** C2, as the specification has it, fails: the call of [f] moves [$sp] by
    24, the size of the frame of [main], while the frame of [f] has size 28;
    and [$ra] is reloaded before [$sp] is restored. *)
Lemma call_uses_the_frame_of_the_caller :
  match AimCodeGenerator.compile elements two_functions
          two_functions_symbols with
  | Ok gen =>
      take 9 (drop 10 (AimCodeGenerator.code gen))
      = [Comment; Sw "$t0" (-16) "$sp";
         Sw "$sp" (-24) "$sp"; Addi "$sp" "$sp" (-24); Sw "$ra" (-4) "$sp";
         Jal (OStr "f");
         Lw "$ra" (-4) "$sp"; Addi "$sp" "$sp" 24; Lw "$t0" (-16) "$sp"]
      ∧ (λ frame, (FunctionStackFrame.name frame,
                   FunctionStackFrame.size frame))
          <$> MemController.function_stack
                (AimCodeGenerator.mem_controller gen)
        = [("main", 24%Z); ("f", 28%Z)]
  | Raise _ => False
  end.
Proof.
  let r := eval vm_compute in
    (AimCodeGenerator.compile elements two_functions two_functions_symbols) in
  change (AimCodeGenerator.compile elements two_functions
            two_functions_symbols) with r.
  split; reflexivity.
Qed.

(** ** The registers handed out *)

Section rebase.
Context {K V : Type} `{EqDecision K}.

Lemma dict_get_set_ne (k k' : K) (v : V) (d : list (K * V)) :
  k ≠ k' → dict_get k (dict_set k' v d) = dict_get k d.
Proof.
  intros Hne. induction d as [|[k0 v0] d IH]; cbn.
  - by rewrite decide_False by done.
  - destruct (decide (k0 = k')) as [->|Hk0]; cbn.
    + by rewrite !decide_False by done.
    + case_decide; [done|apply IH].
Qed.

Lemma dict_get_del_ne (k k' : K) (d : list (K * V)) :
  k ≠ k' → dict_get k (dict_del k' d) = dict_get k d.
Proof.
  intros Hne. induction d as [|[k0 v0] d IH]; cbn; [done|].
  destruct (decide (k0 = k')) as [->|Hk0]; cbn.
  - by rewrite decide_False by done.
  - case_decide; [done|apply IH].
Qed.
End rebase.

(** The prologue binds the parameter to the register of the [param]
    binding. *)
Lemma rebase_param_binds (func_name : string) (mc : MemController.t)
    (i : nat) (p : string) (offset : Z) (key : string * operand)
    (temp : string) :
  List.find (λ b : (string * operand) * string,
               String.eqb b.1.1 ("param" +:+ pretty (i + 1)))
    (MemController.rvalues mc) = Some (key, temp) →
  key ≠ (func_name, OStr p) →
  dict_get (func_name, OStr p)
    (MemController.rvalues
       (AimCodeGenerator.rebase_param func_name mc (i, (p, offset))))
  = Some temp.
Proof.
  intros Hfind Hne. unfold AimCodeGenerator.rebase_param. cbn [fst snd].
  rewrite Hfind. cbn [MemController.rvalues].
  rewrite dict_get_del_ne by done. apply dict_get_set.
Qed.

(** C10, as the code has it: a key that is bound gets its register back and
    nothing changes; a register taken from the free ones is in the pool of
    the variables and was unused; in every case the register returned is in
    the pool or was in the table already, and the call fails only on an
    empty table with an exhausted pool.  A parameter that the prologue has
    rebased from a [param] binding gets the register of that binding, an
    argument register. *)
Theorem alloc_reg_register (self : MemController.t) (varname : operand)
    (cur_pos : position) (code : list instr) :
  let key := (cur_pos.1.1, varname) in
  match MemController.alloc_reg self varname cur_pos code with
  | Ok (reg, self', code') =>
      (∀ r, dict_get key (MemController.rvalues self) = Some r →
         reg = r ∧ self' = self ∧ code' = code)
      ∧ (dict_get key (MemController.rvalues self) = None →
         ¬ pool_exhausted self →
         reg ∈ MemController.varregs ∧ (reg ∉ MemController.usedregs self)
         ∧ code' = code)
      ∧ (reg ∈ MemController.varregs
         ∨ reg ∈ (MemController.rvalues self).*2)
  | Raise e =>
      e = KeyError ∧ MemController.rvalues self = [] ∧ pool_exhausted self
  end
  ∧ ∀ (i : nat) (p : string) (offset : Z) (pkey : string * operand)
      (temp : string),
      varname = OStr p →
      List.find (λ b : (string * operand) * string,
                   String.eqb b.1.1 ("param" +:+ pretty (i + 1)))
        (MemController.rvalues self) = Some (pkey, temp) →
      pkey ≠ key →
      let rebased :=
        AimCodeGenerator.rebase_param cur_pos.1.1 self (i, (p, offset)) in
      MemController.alloc_reg rebased varname cur_pos code
      = Ok (temp, rebased, code).
Proof.
  intros key. split.
  - pose proof (alloc_reg_cases self varname cur_pos code) as H.
    cbn zeta in H. fold key in H.
    destruct (MemController.alloc_reg self varname cur_pos code)
      as [[[reg self'] code']|e]; [|done].
    destruct H as (H1 & H2 & H3 & _). done.
  - intros i p offset pkey temp -> Hfind Hne rebased.
    unfold MemController.alloc_reg. subst rebased key.
    by rewrite (rebase_param_binds _ _ _ _ _ pkey temp).
Qed.

(** After [param 5] the prologue of [f] binds [a] to [$a0]. *)
Lemma alloc_reg_register_witness :
  MemController.alloc_reg
    (AimCodeGenerator.rebase_param "f" after_param (0, ("a", (-12)%Z)))
    (OStr "a") ("f", 0, 0) []
  = Ok ("$a0",
        AimCodeGenerator.rebase_param "f" after_param (0, ("a", (-12)%Z)),
        []).
Proof.
  destruct (alloc_reg_register after_param (OStr "a") ("f", 0, 0) [])
    as [_ Hrebased].
  apply (Hrebased 0 "a" (-12)%Z ("param1", OInt 5) "$a0"); done.
Defined.

(** * Further properties *)

(** ** Blocks and control flow, for every input *)

Section analysis.
Import BlockController.

Lemma block_split_nonempty (quads : list iquad) :
  Forall (λ b, b ≠ []) (_block_split quads)
  ∧ concat (_block_split quads) = quads.
Proof.
  destruct (decide (quads = [])) as [->|Hne]; [by split|].
  by destruct (block_split_cuts quads Hne) as (? & ? & _).
Qed.

Lemma idx_to_block_lt (blocks : list block) (t : Z) (b : nat) :
  idx_to_block blocks !! t = Some b → b < length blocks.
Proof.
  intros (blk & Hb & _)%idx_to_block_Some. by eapply lookup_lt_Some.
Qed.

Lemma successors_lt i2b n i q s :
  (∀ t b, i2b !! t = Some b → b < n) → s ∈ successors i2b n i q → s < n.
Proof.
  intros Hi2b. unfold successors.
  assert (∀ s, s ∈ (match result q with
                    | OInt target =>
                        match i2b !! target with
                        | Some b => {[b]}
                        | None => ∅
                        end
                    | _ => ∅
                    end : gset nat) → s < n) as Htarget.
  { intros s'. destruct (result q) as [|t|]; [set_solver| |set_solver].
    destruct (i2b !! t) as [b|] eqn:Ht; [|set_solver].
    intros ->%elem_of_singleton. by eapply Hi2b. }
  destruct (decide (_ ∧ _)) as [[_ Hlt]|_].
  { intros ->%elem_of_singleton. done. }
  destruct (_ && _).
  { apply Htarget. }
  destruct (_ && _); [|set_solver].
  intros [?|Hs]%elem_of_union; [by apply Htarget|].
  case_decide; set_solver.
Qed.

Lemma build_cfg_ok (blocks : list block) (cfg : list (gset nat)) :
  _build_cfg blocks = Ok cfg → length cfg = length blocks →
  (∀ i b q, blocks !! i = Some b → last b = Some q →
     cfg !! i = Some (successors (idx_to_block blocks) (length blocks) i q.2)) →
  Forall (λ b, b ≠ []) blocks →
  cfg_ok (length blocks) cfg.
Proof.
  intros _ Hlen Hsucc Hne. split; [lia|].
  rewrite <- Hlen, firstn_all. apply Forall_forall. intros succs Hin s Hs.
  rewrite Hlen.
  apply list_elem_of_lookup in Hin as [i Hi].
  assert (i < length blocks) as Hlt.
  { rewrite <- Hlen. by eapply lookup_lt_Some. }
  destruct (lookup_lt_is_Some_2 blocks i Hlt) as [b Hb].
  rewrite Forall_forall in Hne.
  destruct (last b) as [q|] eqn:Hlast.
  - rewrite (Hsucc i b q Hb Hlast) in Hi. injection Hi as <-.
    eapply successors_lt; [|done]. apply idx_to_block_lt.
  - apply last_None in Hlast. subst b. destruct (Hne []); [|done].
    by eapply list_elem_of_lookup_2.
Qed.

Lemma mapM_result_Raise {A B} (f : A → result_of B) (l : list A) (e : exn) :
  (∀ x, x ∈ l → (∃ y, f x = Ok y) ∨ f x = Raise e) →
  (∃ x, x ∈ l ∧ f x = Raise e) →
  mapM f l = Raise e.
Proof.
  induction l as [|x l IH]; intros Hall (x0 & Hin & Hx0).
  { by apply elem_of_nil in Hin. }
  cbn. destruct (Hall x) as [[y Hy]|Hx]; [by left| |by rewrite Hx].
  rewrite Hy. cbn. rewrite IH; [done| |].
  - intros x' Hx'. apply Hall. by right.
  - apply elem_of_cons in Hin as [->|Hin]; [congruence|]. by exists x0.
Qed.

(** The analysis of the result, when the CFG is well formed. *)
Lemma live_analysis_Some (blocks : list block) (cfg : list (gset nat))
    (valid_vars : gset string) :
  cfg_ok (length blocks) cfg →
  let used := (λ b, (use_def valid_vars b).1) <$> blocks in
  let defined := (λ b, (use_def valid_vars b).2) <$> blocks in
  ∃ ins outs,
    _live_variable_analysis blocks cfg valid_vars = Some (ins, outs)
    ∧ live_inv cfg used defined (mkLive ins outs false)
    ∧ live_pass cfg used defined ins outs = mkLive ins outs false.
Proof.
  intros Hok used defined.
  assert (length used = length blocks) as Hlen by apply length_fmap.
  assert (cfg_ok (length used) cfg) as Hok' by by rewrite Hlen.
  unfold _live_variable_analysis. rewrite decide_True by done.
  fold used defined.
  set (empty := (λ _, ∅ : gset string) <$> blocks).
  assert (∀ i, i < length blocks → empty !!! i = (∅ : gset string)) as Hempty.
  { intros i Hi. subst empty. rewrite list_lookup_total_alt, list_lookup_fmap.
    destruct (blocks !! i) eqn:Hb; [done|].
    apply lookup_ge_None in Hb. lia. }
  apply (live_loop_ends cfg used defined Hok').
  - constructor; cbn [in_sets out_sets].
    + subst empty. by rewrite length_fmap.
    + subst empty. by rewrite length_fmap.
    + intros i Hi. rewrite Hempty by lia. set_solver.
    + intros i Hi. rewrite Hempty by lia. set_solver.
    + subst empty. apply Forall_fmap, Forall_true. intros ?. set_solver.
    + subst empty. apply Forall_fmap, Forall_true. intros ?. set_solver.
  - unfold live_fuel. lia.
Qed.
End analysis.

(** Whatever the quadruples are (indices that repeat, jumps without a
    target or with a target outside the slice), the blocks are not empty
    and give the slice back, the CFG is built without an exception, has an
    entry for every block and names blocks only, and the liveness analysis
    of it returns. *)
Theorem analysis_never_raises (quads : list iquad) (valid_vars : gset string) :
  let blocks := BlockController._block_split quads in
  Forall (λ b, b ≠ []) blocks
  ∧ concat blocks = quads
  ∧ ∃ cfg ins outs,
      BlockController._build_cfg blocks = Ok cfg
      ∧ length cfg = length blocks
      ∧ (∀ i succs succ, cfg !! i = Some succs → succ ∈ succs →
           succ < length blocks)
      ∧ BlockController._live_variable_analysis blocks cfg valid_vars
        = Some (ins, outs)
      ∧ length ins = length blocks ∧ length outs = length blocks.
Proof.
  intros blocks.
  destruct (block_split_nonempty quads) as [Hne Hcat].
  split; [done|]. split; [done|].
  destruct (build_cfg_Ok blocks Hne) as (cfg & Hcfg & Hlen & Hsucc).
  pose proof (build_cfg_ok blocks cfg Hcfg Hlen Hsucc Hne) as Hok.
  destruct (live_analysis_Some blocks cfg valid_vars Hok)
    as (ins & outs & Hrun & Hinv & _).
  exists cfg, ins, outs. split; [done|]. split; [done|]. split.
  - intros i succs succ Hi Hs. destruct Hok as [_ Hall].
    rewrite <- Hlen, firstn_all, Forall_forall in Hall.
    rewrite <- Hlen at 1. eapply Hall; [|done].
    by eapply list_elem_of_lookup_2.
  - split; [done|]. destruct Hinv as [Hli Hlo _ _ _ _].
    cbn in Hli, Hlo. rewrite length_fmap in Hli, Hlo. done.
Qed.

(** [_build_cfg] raises exactly when some block is empty, and then an
    [IndexError]; otherwise the CFG has one entry per block. *)
Theorem build_cfg_empty_block (blocks : list block) :
  match BlockController._build_cfg blocks with
  | Ok cfg => [] ∉ blocks ∧ length cfg = length blocks
  | Raise e => e = IndexError ∧ [] ∈ blocks
  end.
Proof.
  destruct (decide ([] ∈ blocks)) as [Hin|Hnin].
  - unfold BlockController._build_cfg.
    rewrite (mapM_result_Raise _ _ IndexError); [done| |].
    + intros [i b] _. destruct (last b) as [q|]; cbn; eauto.
    + apply list_elem_of_lookup in Hin as [i Hi].
      exists (i, []). split; [|done].
      apply list_elem_of_lookup. exists i. unfold enumerate.
      by rewrite list_lookup_imap, Hi.
  - destruct (build_cfg_Ok blocks) as (cfg & -> & Hlen & _); [|done].
    apply Forall_forall. by intros b Hb ->.
Qed.

(** In the CFG of a partitioned slice with distinct indices, a block that
    ends in [j] has the block of the target as its only successor and does
    not fall through; a block that ends in a [j] or [jnz] whose target is not
    an index of the slice is treated like a block without a jump: its only
    successor is the next block, if there is one. *)
Theorem cfg_jump_successors (quads : list iquad) :
  NoDup quads.*1 →
  let blocks := BlockController._block_split quads in
  ∃ cfg,
    BlockController._build_cfg blocks = Ok cfg
    ∧ ∀ i b idx q t, blocks !! i = Some b → last b = Some (idx, q) →
        result q = OInt t →
        (op q = "j" → ∀ bt, block_containing blocks t bt →
           cfg !! i = Some {[bt]})
        ∧ (BlockController.is_jump q = true → t ∉ quads.*1 →
           cfg !! i
           = Some (if decide (i + 1 < length blocks) then {[i + 1]} else ∅)).
Proof.
  intros Hnd blocks.
  destruct (block_split_nonempty quads) as [Hne Hcat]. fold blocks in Hne, Hcat.
  destruct (build_cfg_Ok blocks Hne) as (cfg & Hcfg & Hlen & Hsucc).
  exists cfg. split; [done|]. intros i b idx q t Hb Hlast Ht.
  rewrite (Hsucc i b (idx, q) Hb Hlast). cbn [snd]. split.
  - intros Hop bt Hbt. f_equal. apply (successors_j _ _ _ _ t); [done..|].
    apply idx_to_block_NoDup; [by rewrite Hcat|done].
  - intros Hjump Hout. f_equal.
    assert (BlockController.idx_to_block blocks !! t = None) as Hnone.
    { destruct (BlockController.idx_to_block blocks !! t) as [bt|] eqn:Hbt;
        [|done].
      apply idx_to_block_Some in Hbt as (b' & Hb' & Hin).
      destruct Hout. rewrite <- Hcat.
      apply list_elem_of_fmap in Hin as (iq & -> & Hiq).
      apply list_elem_of_fmap. exists iq. split; [done|].
      apply elem_of_concat. exists b'. split; [done|].
      by eapply list_elem_of_lookup_2. }
    unfold BlockController.successors. rewrite Ht, Hnone. cbn [is_None negb].
    rewrite !andb_true_r.
    unfold BlockController.is_jump in Hjump.
    destruct (String.eqb (op q) "j") eqn:Hj.
    + repeat case_decide; try done; naive_solver.
    + cbn in Hjump. rewrite Hjump.
      repeat case_decide; try done; try set_solver.
Qed.

Lemma cfg_jump_successors_witness :
  NoDup early_return.*1
  ∧ ∃ cfg,
      BlockController._build_cfg (BlockController._block_split early_return)
        = Ok cfg
      ∧ cfg !! 1 = Some {[3]}.
Proof.
  assert (NoDup early_return.*1) as Hnd by (by apply (bool_decide_unpack _)).
  split; [done|].
  destruct (cfg_jump_successors early_return Hnd) as (cfg & Hcfg & Hj).
  exists cfg. split; [done|].
  destruct (Hj 1 [(2%Z, mkQuad "j" ONone ONone (OInt 4))] 2%Z
              (mkQuad "j" ONone ONone (OInt 4)) 4%Z
              eq_refl eq_refl eq_refl) as [Hin _].
  apply (Hin eq_refl 3).
  exists [(4%Z, mkQuad "=" (OInt 1) ONone (OStr "x"))]. split; [done|].
  by apply (bool_decide_unpack _).
Defined.

(** ** Liveness: what the sets hold *)

Section least.
Import BlockController.
Variable cfg : list (gset nat).
Variables used defined I O : list (gset string).
Hypothesis cfg_wf : cfg_ok (length used) cfg.
Hypothesis closed : liveness_closed cfg used defined I O.

(** The state has the lengths of the blocks and lies below [I] and [O]. *)
Definition below (st : live_state) : Prop :=
  length (in_sets st) = length used ∧ length (out_sets st) = length used
  ∧ ∀ i, i < length used →
      in_sets st !!! i ⊆ I !!! i ∧ out_sets st !!! i ⊆ O !!! i.

Lemma closed_at i :
  i < length used →
  (∀ succ, succ ∈ cfg !!! i → I !!! succ ⊆ O !!! i)
  ∧ used !!! i ∪ (O !!! i ∖ defined !!! i) ⊆ I !!! i.
Proof.
  intros Hi. unfold liveness_closed in closed.
  rewrite Forall_forall in closed.
  destruct (closed i) as [Hout Hin]; [apply elem_of_seq; lia|].
  split; [|done]. intros succ Hs. by apply Hout.
Qed.

Lemma update_block_below st k :
  k < length used → below st → below (update_block cfg used defined st k).
Proof.
  intros Hk (Hli & Hlo & Hbelow). unfold update_block.
  fold (out_of cfg (in_sets st) k).
  split; [|split]; cbn [in_sets out_sets]; [by rewrite length_insert..|].
  destruct (closed_at k Hk) as [Hout Hin].
  assert (out_of cfg (in_sets st) k ⊆ O !!! k) as Hnew.
  { intros v (succ & Hs & Hv)%elem_of_out_of.
    apply (Hout succ Hs).
    destruct (Hbelow succ) as [Hsub _]; [by eapply successor_lt|].
    by apply Hsub. }
  intros i Hi. destruct (decide (k = i)) as [<-|Hne].
  - rewrite !list_lookup_total_insert_eq by lia. split; [|done]. set_solver.
  - rewrite !list_lookup_total_insert_ne by done. by apply Hbelow.
Qed.

Lemma pass_range_below k st :
  k ≤ length used → below st → below (pass_range cfg used defined k st).
Proof.
  revert st. induction k as [|k IH]; intros st Hk Hst; [done|].
  rewrite pass_range_S. apply IH; [lia|]. apply update_block_below; [lia|done].
Qed.

Lemma live_loop_below fuel ins outs r :
  live_loop fuel cfg used defined ins outs = Some r →
  below (mkLive ins outs false) → below (mkLive r.1 r.2 false).
Proof.
  revert ins outs. induction fuel as [|fuel IH]; [done|].
  intros ins outs. cbn [live_loop]. rewrite live_pass_range.
  intros Hrun Hst.
  pose proof (pass_range_below (length used) _ (Nat.le_refl _) Hst) as Hst'.
  destruct (changed _).
  - apply (IH _ _ Hrun). by destruct Hst' as (? & ? & ?).
  - injection Hrun as <-. by destruct Hst' as (? & ? & ?).
Qed.
End least.

(** The sets that the analysis returns are the least ones closed under the
    equations of liveness: whatever sets [I] and [O] hold at least what the
    equations ask of them hold at least what the analysis returns. *)
Theorem liveness_least (blocks : list block) (cfg : list (gset nat))
    (valid_vars : gset string) (ins outs I O : list (gset string)) :
  BlockController._live_variable_analysis blocks cfg valid_vars
    = Some (ins, outs) →
  liveness_closed cfg
    ((λ b, (BlockController.use_def valid_vars b).1) <$> blocks)
    ((λ b, (BlockController.use_def valid_vars b).2) <$> blocks) I O →
  ∀ i, i < length blocks → ins !!! i ⊆ I !!! i ∧ outs !!! i ⊆ O !!! i.
Proof.
  unfold BlockController._live_variable_analysis.
  case_decide as Hok; [|done]. intros Hrun Hclosed.
  set (used := (λ b, (BlockController.use_def valid_vars b).1) <$> blocks) in *.
  assert (length used = length blocks) as Hlen by apply length_fmap.
  rewrite <- Hlen in Hok.
  assert (∀ i, i < length blocks →
            ((λ _, ∅ : gset string) <$> blocks) !!! i = (∅ : gset string))
    as Hempty.
  { intros i Hi. rewrite list_lookup_total_alt, list_lookup_fmap.
    destruct (blocks !! i) eqn:Hb; [done|].
    apply lookup_ge_None in Hb. lia. }
  destruct (live_loop_below cfg used _ I O Hok Hclosed _ _ _ _ Hrun)
    as (_ & _ & Hbelow).
  - split; [|split]; cbn [BlockController.in_sets BlockController.out_sets].
    + by rewrite length_fmap.
    + by rewrite length_fmap.
    + intros i Hi. rewrite Hempty by lia. set_solver.
  - intros i Hi. apply Hbelow. lia.
Qed.

(** The analysis of [early_return] lies below the sets that hold both
    variables everywhere. *)
Lemma liveness_least_witness :
  ∃ ins outs,
    BlockController._live_variable_analysis
      (BlockController._block_split early_return)
      [{[1; 2]}; {[3]}; {[3]}; ∅] {["c"; "x"]} = Some (ins, outs)
    ∧ ins !!! 0 ⊆ ({["c"; "x"]} : gset string).
Proof.
  eexists _, _. split; [by vm_compute|].
  refine (proj1 (liveness_least (BlockController._block_split early_return)
            [{[1; 2]}; {[3]}; {[3]}; ∅] {["c"; "x"]} _ _
            (replicate 4 {["c"; "x"]}) (replicate 4 {["c"; "x"]})
            _ _ 0 _)).
  - by vm_compute.
  - by apply (bool_decide_unpack _).
  - vm_compute. lia.
Defined.

(** A variable that is live at the entry or the exit of some block is one of
    the valid variables, not the empty name, and some block of the function
    reads it before any quadruple of that block writes it. *)
Theorem liveness_reads_only (blocks : list block) (cfg : list (gset nat))
    (valid_vars : gset string) (ins outs : list (gset string)) :
  BlockController._live_variable_analysis blocks cfg valid_vars
    = Some (ins, outs) →
  ∀ X v, X ∈ ins ∨ X ∈ outs → v ∈ X →
    v ∈ valid_vars ∧ v ≠ ""
    ∧ ∃ blk k iq, blk ∈ blocks ∧ blk !! k = Some iq ∧ reads iq.2 v
        ∧ ∀ j iq', j < k → blk !! j = Some iq' → result iq'.2 ≠ OStr v.
Proof.
  intros Hrun X v HX Hv.
  assert (BlockController.cfg_ok (length blocks) cfg) as Hok.
  { unfold BlockController._live_variable_analysis in Hrun.
    by case_decide. }
  destruct (live_analysis_Some blocks cfg valid_vars Hok)
    as (ins' & outs' & Hrun' & [_ _ _ _ Hbi Hbo] & _).
  rewrite Hrun in Hrun'. injection Hrun' as <- <-.
  cbn [BlockController.in_sets BlockController.out_sets] in Hbi, Hbo.
  rewrite Forall_forall in Hbi, Hbo.
  assert (v ∈ ⋃ ((λ b, (BlockController.use_def valid_vars b).1) <$> blocks))
    as Hused.
  { destruct HX as [HX|HX]; [by apply (Hbi X HX)|by apply (Hbo X HX)]. }
  apply elem_of_union_list in Hused as (U & HU & HvU).
  apply list_elem_of_fmap in HU as (blk & -> & Hblk).
  apply used_spec in HvU as (? & ? & k & iq & ? & ? & ?).
  do 2 (split; [done|]). by exists blk, k, iq.
Qed.

Lemma liveness_reads_only_witness :
  ∃ ins outs,
    BlockController._live_variable_analysis
      (BlockController._block_split early_return)
      [{[1; 2]}; {[3]}; {[3]}; ∅] {["c"; "x"]} = Some (ins, outs)
    ∧ ∀ X v, X ∈ ins → v ∈ X → v ∈ ({["c"; "x"]} : gset string).
Proof.
  eexists _, _. split; [by vm_compute|].
  intros X v HX Hv.
  refine (proj1 (liveness_reads_only
            (BlockController._block_split early_return)
            [{[1; 2]}; {[3]}; {[3]}; ∅] {["c"; "x"]} _ _ _ X v
            (or_introl HX) Hv)).
  by vm_compute.
Defined.

(** The variables a block uses are the valid ones that a quadruple of the
    block reads as its first or second operand before any quadruple of the
    block has them as its result; the variables a block defines are the
    valid ones that are the result of one of its quadruples.  The empty
    name is neither. *)
Theorem use_def_characterised (valid_vars : gset string) (blk : block)
    (v : string) :
  (v ∈ (BlockController.use_def valid_vars blk).1 ↔
     v ∈ valid_vars ∧ v ≠ ""
     ∧ ∃ k iq, blk !! k = Some iq ∧ reads iq.2 v
         ∧ ∀ j iq', j < k → blk !! j = Some iq' → result iq'.2 ≠ OStr v)
  ∧ (v ∈ (BlockController.use_def valid_vars blk).2 ↔
     v ∈ valid_vars ∧ v ≠ "" ∧ ∃ iq, iq ∈ blk ∧ result iq.2 = OStr v).
Proof. split; [apply used_spec|apply defined_spec]. Qed.

(** ** Function entries and the scope of an index *)

Section entries.
Import BlockController.

Lemma insert_entry_perm (e : string * Z) (l : list (string * Z)) :
  insert_entry e l ≡ₚ e :: l.
Proof.
  induction l as [|h t IH]; [done|]. cbn. destruct (_ <=? _)%Z; [done|].
  rewrite IH. apply Permutation_swap.
Qed.

Lemma sorted_entries_perm (l : list (string * Z)) : sorted_entries l ≡ₚ l.
Proof.
  induction l as [|e l IH]; [done|]. cbn.
  by rewrite insert_entry_perm, IH.
Qed.

(** The entries in non-decreasing order. *)
Definition entries_sorted (l : list (string * Z)) : Prop :=
  StronglySorted (λ a b : string * Z, (a.2 ≤ b.2)%Z) l.

Lemma insert_entry_sorted (e : string * Z) (l : list (string * Z)) :
  entries_sorted l → entries_sorted (insert_entry e l).
Proof.
  unfold entries_sorted. induction 1 as [|h t Ht IH Hall]; cbn.
  { repeat constructor. }
  destruct (Z.leb_spec e.2 h.2) as [Hle|Hgt].
  - constructor; [by constructor|]. constructor; [done|].
    eapply Forall_impl; [exact Hall|]. intros ? ?. simpl in *. lia.
  - constructor; [done|].
    rewrite insert_entry_perm. constructor; [lia|done].
Qed.

Lemma sorted_entries_sorted (l : list (string * Z)) :
  entries_sorted (sorted_entries l).
Proof.
  induction l as [|e l IH]; cbn; [constructor|]. by apply insert_entry_sorted.
Qed.

Lemma enclosing_function_Some (l : list (string * Z)) (index : Z) (f : string) :
  entries_sorted l → enclosing_function l index = Some f →
  ∃ start, (f, start) ∈ l ∧ (start ≤ index)%Z
    ∧ ∀ g s, (g, s) ∈ l → (s ≤ index)%Z → (s ≤ start)%Z.
Proof.
  unfold entries_sorted. induction 1 as [|[h start] t Ht IH Hall];
    [done|]. cbn [enclosing_function].
  destruct (_ && _) eqn:Htest.
  - intros [= <-]. apply andb_true_iff in Htest as [Hle%Z.leb_le Hend].
    exists start. split; [by left|]. split; [done|].
    intros g s [[= -> ->]|Hin]%elem_of_cons Hs; [done|].
    destruct t as [|[g' end_idx] t']; [by apply elem_of_nil in Hin|].
    apply Z.ltb_lt in Hend.
    apply StronglySorted_inv in Ht as [_ Hafter].
    apply elem_of_cons in Hin as [[= -> ->]|Hin]; [lia|].
    rewrite Forall_forall in Hafter. specialize (Hafter _ Hin). simpl in *. lia.
  - intros (start' & Hin & Hle & Hmax)%IH. exists start'.
    split; [by right|]. split; [done|].
    intros g s [[= -> ->]|Hin']%elem_of_cons Hs; [|by eapply Hmax].
    rewrite Forall_forall in Hall. specialize (Hall _ Hin). simpl in *. lia.
Qed.

Lemma enclosing_function_None (l : list (string * Z)) (index : Z) :
  (∀ g s, (g, s) ∈ l → (index < s)%Z) → enclosing_function l index = None.
Proof.
  induction l as [|[h start] t IH]; [done|]. intros Hall.
  cbn [enclosing_function].
  assert (index < start)%Z as Hlt by (apply (Hall h); by left).
  destruct (Z.leb_spec start index); [lia|]. cbn [andb].
  apply IH. intros g s Hin. apply (Hall g). by right.
Qed.

Lemma find_entry_Some (l : list (string * Z)) (e : Z) (f : string) :
  fst <$> List.find (λ x : string * Z, (x.2 =? e)%Z) l = Some f ↔
  ∃ k, l !! k = Some (f, e) ∧ ∀ j g, j < k → l !! j ≠ Some (g, e).
Proof.
  induction l as [|[g s] l IH]; cbn.
  { split; [done|]. by intros (k & ? & _). }
  destruct (Z.eqb_spec s e) as [->|Hne]; cbn.
  - split.
    + intros [= ->]. exists 0. split; [done|]. intros; lia.
    + intros ([|k] & Hk & Hfirst).
      * by injection Hk as ->.
      * by destruct (Hfirst 0 g ltac:(lia)).
  - rewrite IH. split.
    + intros (k & Hk & Hfirst). exists (S k). split; [done|].
      intros [|j] g' Hj; cbn; [congruence|]. apply Hfirst. lia.
    + intros ([|k] & Hk & Hfirst); [cbn in Hk; congruence|].
      exists k. split; [done|]. intros j g' Hj. apply (Hfirst (S j)). lia.
Qed.

Lemma find_entry_None (l : list (string * Z)) (e : Z) :
  List.find (λ x : string * Z, (x.2 =? e)%Z) l = None ↔ e ∉ l.*2.
Proof.
  induction l as [|[g s] l IH]; cbn.
  { split; [intros _ ?%elem_of_nil; done|done]. }
  destruct (Z.eqb_spec s e) as [->|Hne].
  - split; [done|]. intros []. by left.
  - rewrite IH. split.
    + intros ? [?|?]%elem_of_cons; done.
    + intros Hn Hin. apply Hn. by right.
Qed.
End entries.

(** When [get_scope_by_index] names a function and a block for an index,
    the function is the one with the greatest entry that does not exceed
    the index, and the block is the first block of that function that holds
    a quadruple of that index.  An index below every entry has no scope. *)
Theorem get_scope_by_index_sound (self : BlockController.t) (index : Z) :
  (∀ f b,
     BlockController.get_scope_by_index self (OInt index)
       = Ok (Some f, Some b) →
     ∃ start blocks blk,
       (f, start) ∈ BlockController.func_entries self
       ∧ (start ≤ index)%Z
       ∧ (∀ g s, (g, s) ∈ BlockController.func_entries self →
            (s ≤ index)%Z → (s ≤ start)%Z)
       ∧ dict_get f (BlockController.func_blocks self) = Some blocks
       ∧ blocks !! b = Some blk ∧ index ∈ blk.*1
       ∧ ∀ j blk', j < b → blocks !! j = Some blk' → index ∉ blk'.*1)
  ∧ ((∀ g s, (g, s) ∈ BlockController.func_entries self → (index < s)%Z) →
     BlockController.get_scope_by_index self (OInt index) = Ok (None, None)).
Proof.
  unfold BlockController.get_scope_by_index. split.
  - intros f b.
    destruct (BlockController.func_entries self) as [|e es] eqn:Hentries;
      [done|].
    rewrite <- Hentries.
    destruct (BlockController.enclosing_function _ _) as [func_name|] eqn:Hf;
      [|done].
    apply enclosing_function_Some in Hf as (start & Hin & Hle & Hmax);
      [|apply sorted_entries_sorted].
    destruct (dict_get func_name _) as [blocks|] eqn:Hblocks; [|done].
    cbn. intros [= -> Hfind].
    destruct (list_find _ blocks) as [[b' blk]|] eqn:Hlf; [|done].
    cbn in Hfind. injection Hfind as ->.
    apply list_find_Some in Hlf as (Hb & Hidx & Hfirst).
    exists start, blocks, blk.
    split; [by rewrite <- sorted_entries_perm|]. split; [done|].
    split. { intros g s Hg. apply (Hmax g). by rewrite sorted_entries_perm. }
    do 3 (split; [done|]). intros j blk' Hj Hblk'. by eapply Hfirst.
  - intros Hall.
    destruct (BlockController.func_entries self) as [|e es] eqn:Hentries;
      [done|].
    rewrite enclosing_function_None; [done|].
    intros g s Hg. apply (Hall g). by rewrite <- sorted_entries_perm.
Qed.

(** [get_funcname_by_entry] gives the first function of the entries whose
    entry is the index, and [None] exactly when no function starts there;
    so it gives back the name of every function the symbol table declares
    with an entry, as long as no other function has the same entry. *)
Theorem get_funcname_by_entry_round_trip (symbolTable : SymbolTable)
    (self : BlockController.t) (e : Z) :
  BlockController.func_entries self
    = BlockController._get_function_entry symbolTable →
  (∀ f, BlockController.get_funcname_by_entry self e = Some f ↔
     ∃ k, BlockController.func_entries self !! k = Some (f, e)
       ∧ ∀ j g, j < k → BlockController.func_entries self !! j ≠ Some (g, e))
  ∧ (BlockController.get_funcname_by_entry self e = None ↔
     ∀ f, mkSymbol f (FunctionSymbol (Some e)) ∉ global_scope symbolTable)
  ∧ (NoDup (BlockController.func_entries self).*2 →
     ∀ f, mkSymbol f (FunctionSymbol (Some e)) ∈ global_scope symbolTable →
       BlockController.get_funcname_by_entry self e = Some f).
Proof.
  intros Hentries.
  assert (∀ f, (f, e) ∈ BlockController.func_entries self ↔
            mkSymbol f (FunctionSymbol (Some e)) ∈ global_scope symbolTable)
    as Hdecl.
  { intros f. rewrite Hentries. unfold BlockController._get_function_entry.
    rewrite list_elem_of_omap. split.
    - intros ([n k] & Hin & Hk). cbn in Hk.
      destruct k as [| |[q|]|]; try done. by injection Hk as -> ->.
    - intros Hin. by exists (mkSymbol f (FunctionSymbol (Some e))). }
  unfold BlockController.get_funcname_by_entry.
  split; [intros f; apply find_entry_Some|]. split.
  - rewrite fmap_None, find_entry_None. split.
    + intros Hnot f Hin%Hdecl. apply Hnot.
      apply list_elem_of_fmap. by exists (f, e).
    + intros Hnot ([f s] & -> & Hin)%list_elem_of_fmap.
      by apply (Hnot f), Hdecl.
  - intros Hnd f Hin%Hdecl. apply find_entry_Some.
    apply list_elem_of_lookup in Hin as [k Hk]. exists k. split; [done|].
    intros j g Hj Hg.
    assert (j = k); [|lia].
    apply (NoDup_lookup _ j k e Hnd); by rewrite list_lookup_fmap, ?Hg, ?Hk.
Qed.

Lemma get_funcname_by_entry_round_trip_witness :
  BlockController.get_funcname_by_entry
    (BlockController.mk two_functions [("f", 1%Z); ("main", 3%Z)] [] [] [] [])
    3 = Some "main".
Proof.
  destruct (get_funcname_by_entry_round_trip two_functions_symbols
              (BlockController.mk two_functions [("f", 1%Z); ("main", 3%Z)]
                 [] [] [] []) 3 eq_refl) as (_ & _ & Hround).
  apply Hround.
  - by apply (bool_decide_unpack _).
  - cbn. repeat constructor.
Defined.

(** The quadruples that [analyze_code] hands to the code generator are
    those of the checker without the first, each with its position in the
    checker's list as its index: the indices are distinct, the index [p + 1]
    is at place [p], and [index_to_pos] finds it there. *)
Theorem analyze_code_quads_numbered (quads : list Quadruple) :
  let qs := drop 1 (quads_with_idx quads) in
  length qs = length quads - 1
  ∧ (∀ p, qs !! p = (λ q, (Z.of_nat (S p), q)) <$> quads !! S p)
  ∧ NoDup qs.*1
  ∧ ∀ p, p < length qs →
      BlockController.index_to_pos qs !! Z.of_nat (S p) = Some p.
Proof.
  intros qs.
  assert (∀ p, qs !! p = (λ q, (Z.of_nat (S p), q)) <$> quads !! S p) as Hqs.
  { intros p. subst qs. unfold quads_with_idx.
    by rewrite lookup_drop, list_lookup_imap. }
  assert (NoDup qs.*1) as Hnd.
  { apply NoDup_alt. intros i j x. rewrite !list_lookup_fmap, !Hqs.
    destruct (quads !! S i), (quads !! S j); cbn; try done.
    intros [= <-] [= ?]. lia. }
  split. { subst qs. unfold quads_with_idx. rewrite length_drop, length_imap. done. }
  split; [done|]. split; [done|].
  intros p Hp. destruct (lookup_lt_is_Some_2 qs p Hp) as [[i q] Hiq].
  pose proof Hiq as Hiq'. rewrite Hqs in Hiq'.
  destruct (quads !! S p); [|done]. cbn in Hiq'. injection Hiq' as <- <-.
  by eapply index_to_pos_NoDup.
Qed.

(** ** The call order, for every call graph *)

Section call_graph_callee.
Import BlockController.

(** The quadruple calls [callee]. *)
Definition calls (callee : string) (iq : iquad) : Prop :=
  op iq.2 = "call" ∧ arg1 iq.2 = OStr callee.

Lemma add_call_callee fb caller cg q c callee :
  c ∈ default ∅ (add_call fb caller cg q !! callee) →
  c ∈ default ∅ (cg !! callee) ∨ (c = caller ∧ calls callee q).
Proof.
  unfold add_call, calls. destruct (arg1 q.2) as [s| |]; try by left.
  destruct (String.eqb (op q.2) "call") eqn:Hop; simpl; [|by left].
  apply String.eqb_eq in Hop. destruct (dict_mem s fb); [|by left].
  destruct (decide (s = callee)) as [->|Hne].
  - rewrite lookup_insert_eq. simpl. set_solver.
  - rewrite lookup_insert_ne by done. by left.
Qed.

Lemma fold_add_call_callee fb caller quads cg c callee :
  c ∈ default ∅ (fold_left (add_call fb caller) quads cg !! callee) →
  c ∈ default ∅ (cg !! callee) ∨ (c = caller ∧ Exists (calls callee) quads).
Proof.
  revert cg. induction quads as [|q quads IH]; intros cg; simpl; [by left|].
  intros [[?|[-> ?]]%add_call_callee|[-> ?]]%IH; [by left|right..].
  - split; [done|]. by left.
  - split; [done|]. by right.
Qed.

Lemma call_graph_callee fb c callee :
  c ∈ default ∅ (call_graph fb !! callee) →
  ∃ blocks, (c, blocks) ∈ fb ∧ Exists (calls callee) (concat blocks).
Proof.
  unfold call_graph. generalize fb at 1. intros fb0.
  assert (∀ fb' cg,
    c ∈ default ∅
      (fold_left (λ cg (f : string * list block),
         fold_left (add_call fb0 f.1) (concat f.2) cg) fb' cg !! callee) →
    c ∈ default ∅ (cg !! callee)
    ∨ ∃ blocks, (c, blocks) ∈ fb' ∧ Exists (calls callee) (concat blocks))
    as Hgen.
  { induction fb' as [|[g blocks] fb' IH]; intros cg; simpl; [by left|].
    intros [[?|[-> ?]]%fold_add_call_callee|(blocks' & ? & ?)]%IH.
    - by left.
    - right. exists blocks. split; [by left|done].
    - right. exists blocks'. split; [by right|done]. }
  intros [Hc|?]%Hgen; [|done]. by rewrite lookup_empty in Hc.
Qed.
End call_graph_callee.

Section visit_ok.
Variable K : gset string.

(** From [st] to [st'] the functions [new] have been visited and appended. *)
Definition visit_ok (st st' : list string * gset string) : Prop :=
  ∃ new, st'.1 = st.1 ++ new ∧ st'.2 = st.2 ∪ list_to_set new
    ∧ NoDup new ∧ ∀ x, x ∈ new → x ∉ st.2 ∧ x ∈ K.

Lemma visit_ok_refl st : visit_ok st st.
Proof.
  exists []. rewrite app_nil_r. split; [done|]. split; [set_solver|].
  split; [constructor|]. by intros x ?%elem_of_nil.
Qed.

Lemma visit_ok_trans st1 st2 st3 :
  visit_ok st1 st2 → visit_ok st2 st3 → visit_ok st1 st3.
Proof.
  intros (new1 & Ho1 & Hv1 & Hnd1 & Hn1) (new2 & Ho2 & Hv2 & Hnd2 & Hn2).
  exists (new1 ++ new2). split; [by rewrite Ho2, Ho1, app_assoc|].
  split; [rewrite Hv2, Hv1, list_to_set_app_L; set_solver|].
  split.
  - apply NoDup_app. split; [done|]. split; [|done].
    intros x Hx1 Hx2. destruct (Hn2 x Hx2) as [Hnot _]. apply Hnot.
    rewrite Hv1. set_solver.
  - intros x [Hx|Hx]%elem_of_app; [by apply Hn1|].
    destruct (Hn2 x Hx) as [Hnot ?]. split; [|done].
    intros ?. apply Hnot. rewrite Hv1. set_solver.
Qed.

End visit_ok.

Section visit.
Import BlockController.
Variable set_order : gset string → list string.
Hypothesis set_order_perm : ∀ s, set_order s ≡ₚ elements s.
Variable cg : gmap string (gset string).
Variable K : gset string.
Hypothesis callers_known : ∀ callee c, c ∈ default ∅ (cg !! callee) → c ∈ K.

Lemma visit_mono fuel f st : st.2 ⊆ (visit set_order fuel cg f st).2.
Proof.
  revert f st. induction fuel as [|fuel IH]; intros f st; [done|].
  simpl. case_decide; [done|]. cbn [snd].
  assert (∀ callers st0,
    st0.2 ⊆ (fold_left (λ st c, visit set_order fuel cg c st) callers st0).2)
    as Hfold.
  { induction callers as [|c callers IHc]; intros st0; [done|].
    cbn [fold_left]. etransitivity; [apply (IH c)|apply IHc]. }
  etransitivity; [|apply Hfold]. cbn. set_solver.
Qed.

Lemma unvisited_mono (V V' : gset string) :
  V ⊆ V' → size (K ∖ V') ≤ size (K ∖ V).
Proof. intros HV. apply subseteq_size. set_solver. Qed.

Lemma unvisited_dec (f : string) (V : gset string) :
  f ∈ K → f ∉ V → size (K ∖ ({[f]} ∪ V)) < size (K ∖ V).
Proof. intros Hf HV. apply subset_size. set_solver. Qed.

Lemma callers_in_K f :
  Forall (λ c, c ∈ K) (set_order (default ∅ (cg !! f))).
Proof.
  apply Forall_forall. intros c Hc. apply (callers_known f).
  by rewrite set_order_perm, elem_of_elements in Hc.
Qed.

(** With more fuel than there are functions left to visit, [visit] does not
    depend on the fuel. *)
Lemma visit_fuel_indep fuel fuel' f st :
  f ∈ K → size (K ∖ st.2) < fuel → size (K ∖ st.2) < fuel' →
  visit set_order fuel cg f st = visit set_order fuel' cg f st.
Proof.
  revert fuel' f st. induction fuel as [|fuel IH];
    intros fuel' f st Hf Hfuel Hfuel'; [lia|].
  destruct fuel' as [|fuel']; [lia|]. simpl. case_decide as Hvis; [done|].
  pose proof (unvisited_dec f st.2 Hf Hvis) as Hdec.
  assert (∀ callers st0, Forall (λ c, c ∈ K) callers →
    size (K ∖ st0.2) < fuel → size (K ∖ st0.2) < fuel' →
    fold_left (λ st c, visit set_order fuel cg c st) callers st0
    = fold_left (λ st c, visit set_order fuel' cg c st) callers st0) as Hfold.
  { induction callers as [|c callers IHc]; intros st0 Hall H1 H2; [done|].
    apply Forall_cons in Hall as [Hc Hall]. cbn [fold_left].
    rewrite <- (IH fuel' c st0 Hc H1 H2).
    apply IHc; [done|..];
      (eapply Nat.le_lt_trans; [apply unvisited_mono, visit_mono|done]). }
  rewrite Hfold; [done|apply callers_in_K|cbn; lia..].
Qed.

Lemma visit_spec fuel f st :
  f ∈ K → size (K ∖ st.2) < fuel →
  visit_ok K st (visit set_order fuel cg f st)
  ∧ f ∈ (visit set_order fuel cg f st).2.
Proof.
  revert f st. induction fuel as [|fuel IH]; intros f st Hf Hfuel; [lia|].
  simpl. case_decide as Hvis; [split; [apply visit_ok_refl|done]|].
  pose proof (unvisited_dec f st.2 Hf Hvis) as Hdec.
  assert (∀ callers st0, Forall (λ c, c ∈ K) callers →
    size (K ∖ st0.2) < fuel →
    visit_ok K st0
      (fold_left (λ st c, visit set_order fuel cg c st) callers st0)) as Hfold.
  { induction callers as [|c callers IHc]; intros st0 Hall H1;
      [apply visit_ok_refl|].
    apply Forall_cons in Hall as [Hc Hall]. cbn [fold_left].
    eapply visit_ok_trans; [by apply IH|]. apply IHc; [done|].
    eapply Nat.le_lt_trans; [apply unvisited_mono, visit_mono|done]. }
  destruct (Hfold (set_order (default ∅ (cg !! f))) (st.1, {[f]} ∪ st.2))
    as (new & Ho & Hv & Hnd & Hn); [apply callers_in_K|cbn; lia|].
  cbn [fst snd] in *. rewrite Ho, Hv. split; [|set_solver].
  exists (new ++ [f]). cbn [fst snd]. split; [by rewrite app_assoc|].
  split; [rewrite list_to_set_app_L; set_solver|]. split.
  - apply NoDup_app. split; [done|]. split; [|apply NoDup_singleton].
    intros x Hx ->%list_elem_of_singleton. destruct (Hn f Hx). set_solver.
  - intros x [Hx | ->%list_elem_of_singleton]%elem_of_app; [|done].
    destruct (Hn x Hx). set_solver.
Qed.

(** The loop over the functions that follows the visit of [main]. *)
Definition visit_rest (fuel : nat) (names : list string)
    (st : list string * gset string) : list string * gset string :=
  fold_left (λ st f, if decide (f ∈ st.2) then st
                     else visit set_order fuel cg f st) names st.

Lemma visit_rest_spec fuel names st :
  Forall (λ f, f ∈ K) names → size (K ∖ st.2) < fuel →
  visit_ok K st (visit_rest fuel names st)
  ∧ (∀ f, f ∈ names → f ∈ (visit_rest fuel names st).2)
  ∧ ∀ fuel', size (K ∖ st.2) < fuel' →
      visit_rest fuel' names st = visit_rest fuel names st.
Proof.
  unfold visit_rest. revert st.
  induction names as [|f names IH]; intros st Hall Hfuel.
  { split; [apply visit_ok_refl|]. split; [by intros f ?%elem_of_nil|done]. }
  apply Forall_cons in Hall as [Hf Hall]. cbn [fold_left].
  set (st1 := if decide (f ∈ st.2) then st else visit set_order fuel cg f st).
  assert (visit_ok K st st1 ∧ f ∈ st1.2 ∧ st.2 ⊆ st1.2) as (Hok & Hin & Hsub).
  { subst st1. case_decide; [split; [apply visit_ok_refl|done]|].
    destruct (visit_spec fuel f st Hf Hfuel). split; [done|].
    split; [done|apply visit_mono]. }
  assert (size (K ∖ st1.2) < fuel) as Hfuel1.
  { eapply Nat.le_lt_trans; [by apply unvisited_mono|done]. }
  destruct (IH st1 Hall Hfuel1) as (Hok' & Hin' & Hindep).
  split; [by eapply visit_ok_trans|]. split.
  - intros g [-> | Hg]%elem_of_cons; [|by apply Hin'].
    destruct Hok' as (new & _ & -> & _). set_solver.
  - intros fuel' Hfuel'.
    assert ((if decide (f ∈ st.2) then st
             else visit set_order fuel' cg f st) = st1) as ->.
    { subst st1. case_decide; [done|]. by apply visit_fuel_indep. }
    apply Hindep. eapply Nat.le_lt_trans; [by apply unvisited_mono|done].
Qed.
End visit.

Lemma size_list_to_set_le (l : list string) :
  size (list_to_set l : gset string) ≤ length l.
Proof.
  induction l as [|x l IH]; cbn; [by rewrite size_empty|].
  rewrite size_union_alt, size_singleton.
  assert (size (list_to_set l ∖ {[x]} : gset string)
          ≤ size (list_to_set l : gset string))
    by (apply subseteq_size; set_solver).
  lia.
Qed.

Lemma dict_mem_keys {V} (k : string) (d : list (string * V)) :
  dict_mem k d = true → k ∈ d.*1.
Proof.
  intros [v Hv]%bool_decide_eq_true. apply dict_get_Some in Hv.
  apply list_elem_of_fmap. by exists (k, v).
Qed.

Section call_order_spec.
Import BlockController.
Variable set_order : gset string → list string.
Hypothesis set_order_perm : ∀ s, set_order s ≡ₚ elements s.

(** The state after [main] and after all the functions. *)
Lemma call_order_fuel_spec (fb : list (string * list block)) (fuel : nat) :
  length fb < fuel →
  NoDup (call_order_fuel set_order fuel fb)
  ∧ (∀ f, f ∈ call_order_fuel set_order fuel fb ↔ f ∈ fb.*1)
  ∧ call_order_fuel set_order fuel fb = call_order set_order fb.
Proof.
  intros Hfuel.
  set (K := list_to_set fb.*1 : gset string).
  assert (∀ callee c, c ∈ default ∅ (call_graph fb !! callee) → c ∈ K)
    as Hknown.
  { intros callee c (blocks & Hin & _)%call_graph_callers. subst K.
    apply elem_of_list_to_set, list_elem_of_fmap. by exists (c, blocks). }
  assert (∀ V : gset string, size (K ∖ V) ≤ length fb) as Hsize.
  { intros V. etransitivity; [apply (subseteq_size _ K); set_solver|].
    subst K. etransitivity; [apply size_list_to_set_le|].
    by rewrite length_fmap. }
  assert (Forall (λ f, f ∈ K) fb.*1) as Hnames.
  { apply Forall_forall. intros f Hf. subst K. by apply elem_of_list_to_set. }
  assert (∀ fuel, length fb < fuel →
    ∃ st, (if dict_mem "main" fb
           then visit set_order fuel (call_graph fb) "main" ([], ∅)
           else ([], ∅)) = st
      ∧ visit_ok K ([], ∅) st
      ∧ ∀ fuel', length fb < fuel' →
          (if dict_mem "main" fb
           then visit set_order fuel' (call_graph fb) "main" ([], ∅)
           else ([], ∅)) = st) as Hmain.
  { intros n Hn. eexists. split; [done|].
    destruct (dict_mem "main" fb) eqn:Hmem.
    - assert ("main" ∈ K) as HmainK.
      { subst K. by apply elem_of_list_to_set, dict_mem_keys. }
      split.
      + apply (visit_spec set_order set_order_perm _ K Hknown); [done|].
        specialize (Hsize ∅). cbn. lia.
      + intros n' Hn'.
        apply (visit_fuel_indep set_order set_order_perm _ K Hknown);
          [done|specialize (Hsize ∅); cbn; lia..].
    - split; [apply visit_ok_refl|done]. }
  assert (∀ fuel, length fb < fuel →
    ∃ order visited,
      fold_left (λ st f, if decide (f ∈ st.2) then st
                         else visit set_order fuel (call_graph fb) f st)
        fb.*1
        (if dict_mem "main" fb
         then visit set_order fuel (call_graph fb) "main" ([], ∅)
         else ([], ∅)) = (order, visited)
      ∧ NoDup order ∧ (∀ f, f ∈ order ↔ f ∈ fb.*1)
      ∧ ∀ fuel', length fb < fuel' →
          fold_left (λ st f, if decide (f ∈ st.2) then st
                             else visit set_order fuel' (call_graph fb) f st)
            fb.*1
            (if dict_mem "main" fb
             then visit set_order fuel' (call_graph fb) "main" ([], ∅)
             else ([], ∅)) = (order, visited)) as Hall.
  { intros n Hn. destruct (Hmain n Hn) as (st & -> & Hok & Hindep).
    destruct (visit_rest_spec set_order set_order_perm _ K Hknown n fb.*1 st)
      as (Hok' & Hin & Hindep'); [done|specialize (Hsize st.2); lia|].
    pose proof (visit_ok_trans K _ _ _ Hok Hok') as (new & Ho & Hv & Hnd & Hn').
    unfold visit_rest in *.
    destruct (fold_left _ _ st) as [order visited] eqn:Hfold.
    cbn [fst snd] in *. subst order. exists new, visited.
    split; [done|]. split; [done|]. split.
    - intros f. split.
      + intros Hf. destruct (Hn' f Hf) as [_ HK]. subst K.
        by apply elem_of_list_to_set in HK.
      + intros Hf. specialize (Hin f Hf). rewrite Hv in Hin.
        apply elem_of_union in Hin as [Hin|Hin]; [set_solver|].
        by apply elem_of_list_to_set in Hin.
    - intros n' Hn''. rewrite (Hindep n' Hn'').
      apply Hindep'. specialize (Hsize st.2). lia. }
  unfold call_order, call_order_fuel.
  destruct (Hall fuel Hfuel) as (order & visited & Hrun & Hnd & Hin & Hindep).
  rewrite Hrun, (Hindep (S (length fb))) by lia. done.
Qed.
End call_order_spec.

(** The call order names every function once, whatever the calls are
    (recursive and mutually recursive functions included) and in whatever
    order the sets of callers are iterated; the recursion of [visit] is never
    deeper than there are functions. *)
Theorem call_order_permutation (set_order : gset string → list string)
    (func_blocks : list (string * list block)) :
  (∀ s, set_order s ≡ₚ elements s) →
  NoDup (BlockController.call_order set_order func_blocks)
  ∧ (∀ f, f ∈ BlockController.call_order set_order func_blocks
          ↔ f ∈ func_blocks.*1)
  ∧ (NoDup func_blocks.*1 →
     BlockController.call_order set_order func_blocks ≡ₚ func_blocks.*1)
  ∧ ∀ fuel, length func_blocks < fuel →
      BlockController.call_order_fuel set_order fuel func_blocks
      = BlockController.call_order set_order func_blocks.
Proof.
  intros Hperm.
  destruct (call_order_fuel_spec set_order Hperm func_blocks
              (S (length func_blocks))) as (Hnd & Hin & _); [lia|].
  unfold BlockController.call_order at 1 2 3.
  split; [done|]. split; [done|]. split.
  - intros Hnd'. by apply NoDup_Permutation.
  - intros fuel Hfuel.
    by destruct (call_order_fuel_spec set_order Hperm func_blocks fuel Hfuel)
      as (_ & _ & ?).
Qed.

Lemma call_order_permutation_witness :
  BlockController.call_order elements
    [("f", [take 2 two_functions]); ("main", [drop 2 two_functions])]
  ≡ₚ ["f"; "main"].
Proof.
  destruct (call_order_permutation elements
              [("f", [take 2 two_functions]); ("main", [drop 2 two_functions])]
              (λ s, reflexivity (elements s))) as (_ & _ & Hp & _).
  apply Hp. by apply (bool_decide_unpack _).
Defined.

(** When no other function calls [main], [main] is the first function of
    the call order. *)
Theorem call_order_main_at_front (set_order : gset string → list string)
    (func_blocks : list (string * list block)) :
  (∀ s, set_order s ≡ₚ elements s) →
  "main" ∈ func_blocks.*1 →
  (∀ f blocks, (f, blocks) ∈ func_blocks → f ≠ "main" →
     Forall (λ iq : iquad, ¬ (op iq.2 = "call" ∧ arg1 iq.2 = OStr "main"))
       (concat blocks)) →
  ∃ rest,
    BlockController.call_order set_order func_blocks = "main" :: rest.
Proof.
  intros Hperm Hmain Hnocall.
  set (K := list_to_set func_blocks.*1 : gset string).
  assert (∀ callee c,
    c ∈ default ∅ (BlockController.call_graph func_blocks !! callee) → c ∈ K)
    as Hknown.
  { intros callee c (blocks & Hin & _)%call_graph_callers. subst K.
    apply elem_of_list_to_set, list_elem_of_fmap. by exists (c, blocks). }
  assert (dict_mem "main" func_blocks = true) as Hmem.
  { apply bool_decide_eq_true.
    apply list_elem_of_fmap in Hmain as ([f blocks] & Hf & Hin). cbn in Hf.
    subst f. by eapply dict_get_elem_of. }
  unfold BlockController.call_order, BlockController.call_order_fuel.
  rewrite Hmem. rewrite (visit_append set_order Hperm); cbn [fst snd].
  2: { set_solver. }
  2: { intros c (blocks & Hin & Hcall)%call_graph_callee.
       destruct (decide (c = "main")) as [->|Hne]; [set_solver|].
       specialize (Hnocall c blocks Hin Hne).
       apply Exists_exists in Hcall as (iq & Hiq & Hcall).
       rewrite Forall_forall in Hnocall. by destruct (Hnocall iq Hiq). }
  destruct (visit_rest_spec set_order Hperm _ K Hknown
              (S (length func_blocks)) func_blocks.*1
              ([] ++ ["main"], {["main"]} ∪ ∅))
    as ((new & Ho & _) & _).
  - apply Forall_forall. intros f Hf. subst K. by apply elem_of_list_to_set.
  - cbn [snd].
    assert (size (K ∖ ({["main"]} ∪ ∅)) ≤ length func_blocks); [|lia].
    etransitivity; [apply (subseteq_size _ K); set_solver|].
    subst K. etransitivity; [apply size_list_to_set_le|].
    by rewrite length_fmap.
  - unfold visit_rest in Ho. rewrite Ho. by exists new.
Qed.

Lemma call_order_main_at_front_witness :
  ∃ rest,
    BlockController.call_order elements
      [("f", [take 2 two_functions]); ("main", [drop 2 two_functions])]
    = "main" :: rest.
Proof.
  apply (call_order_main_at_front elements).
  - done.
  - by apply (bool_decide_unpack _).
  - intros f blocks Hin Hne.
    apply elem_of_cons in Hin as [[= -> ->]|Hin];
      [by apply (bool_decide_unpack _)|].
    apply list_elem_of_singleton in Hin as [= -> ->]. done.
Defined.

(** ** The functions and their slices *)

Section split_entries.
Import BlockController.

Lemma index_to_pos_is_Some (quads : list iquad) (t : Z) :
  is_Some (index_to_pos quads !! t) ↔ t ∈ quads.*1.
Proof.
  split.
  - intros [p (q & Hq)%index_to_pos_Some].
    apply list_elem_of_fmap. exists (t, q). split; [done|].
    by eapply list_elem_of_lookup_2.
  - induction quads as [|[i q] quads IH] using rev_ind.
    { by intros ?%elem_of_nil. }
    rewrite fmap_app, index_to_pos_snoc. cbn.
    destruct (decide (i = t)) as [->|Hne].
    + rewrite lookup_insert_eq. by eauto.
    + rewrite lookup_insert_ne by done.
      intros [?|Hin]%elem_of_app; [by apply IH|].
      by apply list_elem_of_singleton in Hin.
Qed.

(** The blocks of the functions, in the order of their entries: each
    function runs from its entry to the entry of the next. *)
Fixpoint function_slices (quads : list iquad) (index_map : gmap Z nat)
    (entries : list (string * Z)) : list (string * list block) :=
  match entries with
  | [] => []
  | (func_name, start_idx) :: rest =>
      (func_name,
       _block_split
         (slice quads (index_map !!! start_idx)
            match rest with
            | [] => length quads
            | (_, next_idx) :: _ => index_map !!! next_idx
            end))
      :: function_slices quads index_map rest
  end.

Lemma dict_get_app_None {K V} `{EqDecision K} (k : K) (d d' : list (K * V)) :
  dict_get k d = None → dict_get k (d ++ d') = dict_get k d'.
Proof.
  induction d as [|[k' v'] d IH]; [done|]. cbn. case_decide; [done|]. apply IH.
Qed.

Lemma dict_set_fresh {K V} `{EqDecision K} (k : K) (v : V) (d : list (K * V)) :
  dict_get k d = None → dict_set k v d = d ++ [(k, v)].
Proof.
  induction d as [|[k' v'] d IH]; [done|]. cbn. case_decide; [done|].
  intros Hd. by rewrite IH.
Qed.

Lemma dict_get_not_key {K V} `{EqDecision K} (k : K) (d : list (K * V)) :
  k ∉ d.*1 → dict_get k d = None.
Proof.
  induction d as [|[k' v'] d IH]; [done|]. cbn. intros Hnin.
  case_decide as Hk; [subst; destruct Hnin; by left|].
  apply IH. intros ?. apply Hnin. by right.
Qed.

Lemma dict_get_NoDup {K V} `{EqDecision K} (k : K) (v : V) (d : list (K * V)) :
  NoDup d.*1 → (k, v) ∈ d → dict_get k d = Some v.
Proof.
  induction d as [|[k' v'] d IH]; [by intros _ ?%elem_of_nil|].
  cbn. intros [Hk Hnd]%NoDup_cons [[= -> ->]|Hin]%elem_of_cons.
  - by rewrite decide_True.
  - rewrite decide_False; [by apply IH|].
    intros ->. apply Hk. apply list_elem_of_fmap. by exists (k, v).
Qed.

Lemma function_slices_keys quads im entries :
  (function_slices quads im entries).*1 = entries.*1.
Proof.
  induction entries as [|[f s] rest IH]; [done|]. cbn. by rewrite IH.
Qed.

Lemma split_entries_Ok quads im entries acc :
  NoDup entries.*1 →
  (∀ f, f ∈ entries.*1 → dict_get f acc = None) →
  (∀ e, e ∈ entries.*2 → is_Some (im !! e)) →
  split_entries quads im entries acc
  = Ok (acc ++ function_slices quads im entries).
Proof.
  revert acc. induction entries as [|[f s] rest IH]; intros acc Hnd Hfresh Him.
  { cbn. by rewrite app_nil_r. }
  cbn [split_entries function_slices].
  apply NoDup_cons in Hnd as [Hf Hnd].
  destruct (Him s) as [sp Hsp]; [by left|].
  rewrite Hsp. cbn. rewrite (lookup_total_correct _ _ _ Hsp).
  assert (match rest with
          | [] => mret (length quads)
          | (_, next_idx) :: _ => or_raise KeyError (im !! next_idx)
          end
          = Ok (match rest with
                | [] => length quads
                | (_, next_idx) :: _ => im !!! next_idx
                end)) as ->.
  { destruct rest as [|[g n] rest']; [done|].
    destruct (Him n) as [np Hnp]; [right; by left|].
    rewrite Hnp. cbn. by rewrite (lookup_total_correct _ _ _ Hnp). }
  cbn. rewrite dict_set_fresh by (apply Hfresh; by left).
  rewrite IH; [by rewrite <- app_assoc|done|..].
  - intros g Hg. rewrite dict_get_app_None by (apply Hfresh; by right).
    cbn. case_decide; [by subst|done].
  - intros e He. apply Him. by right.
Qed.

Lemma split_entries_Raise quads im entries acc :
  Exists (λ e : string * Z, im !! e.2 = None) entries →
  split_entries quads im entries acc = Raise KeyError.
Proof.
  revert acc. induction entries as [|[f s] rest IH]; intros acc Hex.
  { by apply Exists_nil in Hex. }
  cbn [split_entries].
  destruct (im !! s) as [sp|] eqn:Hsp; [|done]. cbn.
  apply Exists_cons in Hex as [Hs|Hex]; [cbn in Hs; congruence|].
  destruct rest as [|[g n] rest']; [by apply Exists_nil in Hex|].
  destruct (im !! n) as [np|] eqn:Hnp; [|done]. cbn. by apply IH.
Qed.

Lemma function_slices_lookup quads im entries k f start :
  NoDup entries.*1 → entries !! k = Some (f, start) →
  dict_get f (function_slices quads im entries)
  = Some (_block_split
            (slice quads (im !!! start)
               match entries !! S k with
               | Some (_, next_idx) => im !!! next_idx
               | None => length quads
               end)).
Proof.
  revert k. induction entries as [|[g s] rest IH]; intros k Hnd Hk; [done|].
  apply NoDup_cons in Hnd as [Hg Hnd]. cbn [function_slices dict_get].
  destruct k as [|k].
  - injection Hk as -> ->. rewrite decide_True by done.
    by destruct rest as [|[? ?] ?].
  - cbn in Hk. rewrite decide_False.
    + by apply IH.
    + intros ->. apply Hg. apply list_elem_of_fmap. exists (f, start).
      split; [done|]. by eapply list_elem_of_lookup_2.
Qed.
End split_entries.

Lemma function_slices_split quads im entries f blocks :
  (f, blocks) ∈ function_slices quads im entries →
  ∃ qs, blocks = BlockController._block_split qs.
Proof.
  induction entries as [|[g s] rest IH]; [by intros ?%elem_of_nil|].
  cbn [function_slices]. intros [[= -> ->]|Hin]%elem_of_cons; [by eexists|].
  by apply IH.
Qed.

Lemma split_all_functions_Ok (set_order : gset string → list string)
    (quads : list iquad) (func_entries : list (string * Z)) :
  (∀ s, set_order s ≡ₚ elements s) →
  NoDup func_entries.*1 →
  (∀ e, e ∈ func_entries.*2 → e ∈ quads.*1) →
  let fb := function_slices quads (BlockController.index_to_pos quads)
              (BlockController.sorted_entries func_entries) in
  ∃ r,
    BlockController._split_all_functions set_order quads func_entries = Ok r
    ∧ NoDup r.*1
    ∧ (∀ f, f ∈ r.*1 ↔ f ∈ func_entries.*1)
    ∧ ∀ f blocks, (f, blocks) ∈ r → dict_get f fb = Some blocks.
Proof.
  intros Hperm Hnd Hidx fb.
  set (sorted := BlockController.sorted_entries func_entries) in *.
  assert (NoDup sorted.*1) as Hnd'.
  { subst sorted. by rewrite sorted_entries_perm. }
  unfold BlockController._split_all_functions. fold sorted.
  rewrite (split_entries_Ok _ _ _ []); [|done|done|].
  2: { intros e He. apply index_to_pos_is_Some, Hidx.
       subst sorted. by rewrite sorted_entries_perm in He. }
  cbn [app]. cbn. fold fb.
  destruct (call_order_fuel_spec set_order Hperm fb (S (length fb)))
    as (Hnd_order & Hin_order & _); [lia|].
  fold (BlockController.call_order set_order fb) in Hnd_order, Hin_order.
  assert (fb.*1 = sorted.*1) as Hkeys by apply function_slices_keys.
  assert (∀ f, f ∈ BlockController.call_order set_order fb →
            is_Some (dict_get f fb)) as Hfound.
  { intros f ([g blocks] & Heq & Hin)%Hin_order%list_elem_of_fmap.
    cbn in Heq. subst g. by eapply dict_get_elem_of. }
  assert (∀ order, (∀ f, f ∈ order → is_Some (dict_get f fb)) →
    ∃ r, mapM (M := result_of) (λ f,
           blocks ← or_raise KeyError (dict_get f fb); mret (f, blocks))
           order = Ok r
      ∧ r.*1 = order
      ∧ ∀ f blocks, (f, blocks) ∈ r → dict_get f fb = Some blocks) as HmapM.
  { induction order as [|f order IH]; intros Hall.
    { exists []. split; [done|]. split; [done|]. by intros ? ? ?%elem_of_nil. }
    destruct (Hall f) as [blocks Hblocks]; [by left|].
    destruct IH as (r & Hr & Hkeys' & Hget); [intros g Hg; apply Hall; by right|].
    exists ((f, blocks) :: r). cbn. rewrite Hblocks. cbn. rewrite Hr. cbn.
    split; [done|]. split; [by rewrite Hkeys'|].
    intros g b [[= -> ->]|Hin]%elem_of_cons; [done|by apply Hget]. }
  destruct (HmapM _ Hfound) as (r & Hr & Hkeys' & Hget).
  exists r. split; [done|]. rewrite Hkeys'. split; [done|]. split; [|done].
  intros f. rewrite Hin_order, Hkeys. subst sorted.
  by rewrite sorted_entries_perm.
Qed.

(** When the functions have distinct names and every entry is the index of
    a quadruple, [_split_all_functions] returns: its result holds exactly the
    functions of the entries, in the call order, and the blocks of every
    function are non-empty and make up the quadruples from the function's
    entry to the entry of the next function, or to the end for the last
    one.  When an entry is not the index of any quadruple, it raises a
    [KeyError]. *)
Theorem split_all_functions_slices (set_order : gset string → list string)
    (quads : list iquad) (func_entries : list (string * Z)) :
  (∀ s, set_order s ≡ₚ elements s) →
  NoDup func_entries.*1 →
  let sorted := BlockController.sorted_entries func_entries in
  let pos (idx : Z) : nat := BlockController.index_to_pos quads !!! idx in
  ((∀ e, e ∈ func_entries.*2 → e ∈ quads.*1) →
   ∃ func_blocks,
     BlockController._split_all_functions set_order quads func_entries
       = Ok func_blocks
     ∧ func_blocks.*1 ≡ₚ func_entries.*1
     ∧ ∀ k f start, sorted !! k = Some (f, start) →
         ∃ blocks,
           dict_get f func_blocks = Some blocks
           ∧ Forall (λ b, b ≠ []) blocks
           ∧ concat blocks
             = slice quads (pos start)
                 match sorted !! S k with
                 | Some (_, next_idx) => pos next_idx
                 | None => length quads
                 end)
  ∧ ((∃ e, e ∈ func_entries.*2 ∧ e ∉ quads.*1) →
     BlockController._split_all_functions set_order quads func_entries
       = Raise KeyError).
Proof.
  intros Hperm Hnd sorted pos.
  assert (NoDup sorted.*1) as Hnd'.
  { subst sorted. by rewrite sorted_entries_perm. }
  split.
  - intros Hidx.
    destruct (split_all_functions_Ok set_order quads func_entries Hperm Hnd
                Hidx) as (r & Hr & Hndr & Hin & Hget).
    exists r. split; [done|]. split.
    { by apply NoDup_Permutation. }
    intros k f start Hk.
    pose proof (function_slices_lookup quads
                  (BlockController.index_to_pos quads) sorted k f start
                  Hnd' Hk) as Hslice.
    assert (f ∈ r.*1) as Hfr.
    { apply Hin. rewrite <- (sorted_entries_perm func_entries).
      apply list_elem_of_fmap. exists (f, start). split; [done|].
      by eapply list_elem_of_lookup_2. }
    apply list_elem_of_fmap in Hfr as ([f' blocks] & Heq & Hin'). cbn in Heq.
    subst f'. pose proof (Hget f blocks Hin') as Hget'.
    exists blocks. split.
    { by apply dict_get_NoDup. }
    fold sorted in Hget'. rewrite Hslice in Hget'. injection Hget' as <-.
    apply block_split_nonempty.
  - intros (e & He & Hmissing).
    unfold BlockController._split_all_functions. fold sorted.
    rewrite split_entries_Raise; [done|].
    apply Exists_exists.
    apply list_elem_of_fmap in He as ([f s] & -> & Hin).
    exists (f, s). split; [subst sorted; by rewrite sorted_entries_perm|].
    cbn. destruct (BlockController.index_to_pos quads !! s) eqn:Hs; [|done].
    destruct Hmissing. apply index_to_pos_is_Some. by eauto.
Qed.

Lemma split_all_functions_slices_witness :
  ∃ func_blocks,
    BlockController._split_all_functions elements two_functions
      [("f", 1%Z); ("main", 3%Z)] = Ok func_blocks
    ∧ func_blocks.*1 ≡ₚ ["f"; "main"].
Proof.
  destruct (split_all_functions_slices elements two_functions
              [("f", 1%Z); ("main", 3%Z)] (λ s, reflexivity (elements s)))
    as [Hok _].
  { by apply (bool_decide_unpack _). }
  destruct Hok as (fb & Hrun & Hkeys & _).
  { intros e He. cbn in He.
    apply elem_of_cons in He as [-> | He];
      [by apply (bool_decide_unpack _); vm_compute|].
    apply list_elem_of_singleton in He as ->.
    by apply (bool_decide_unpack _); vm_compute. }
  exists fb. split; [exact Hrun|exact Hkeys].
Defined.

(** ** Frames, for every scope *)

Section frames.
Import FunctionStack.

(** What the loop of [build_frame] keeps true of its state. *)
Definition layout_ok (l0 l : layout) (symbols : list Symbol) : Prop :=
  param_num l = param_num l0 + length (parameters symbols)
  ∧ local_num l = local_num l0 + length (locals symbols)
  ∧ length (params l) = length (params l0) + length (parameters symbols)
  ∧ length (local_vars l)
    = length (local_vars l0) + length (locals symbols).

Lemma add_symbol_counts (l : layout) (s : Symbol) :
  layout_ok l (add_symbol (-4) l s) [s].
Proof.
  unfold layout_ok, add_symbol, parameters, locals. cbn [omap list_omap].
  destruct (kind s); cbn; rewrite ?length_app; cbn; lia.
Qed.

Lemma fold_add_symbol_counts (symbols : list Symbol) (l : layout) :
  layout_ok l (fold_left (add_symbol (-4)) symbols l) symbols.
Proof.
  revert l. induction symbols as [|s symbols IH]; intros l.
  { unfold layout_ok. cbn. lia. }
  cbn [fold_left]. specialize (IH (add_symbol (-4) l s)).
  pose proof (add_symbol_counts l s) as Hs.
  unfold layout_ok, parameters, locals in *. cbn [omap list_omap] in *.
  destruct (kind s); cbn in *; lia.
Qed.

(** The slots lie between the bounds that the numbers of parameters and
    locals give, at multiples of four, and no local is in memory. *)
Definition slots_ok (l : layout) : Prop :=
  Forall (λ p : string * Z,
    (-4 * Z.of_nat (param_num l) - 8 ≤ p.2 ≤ -12)%Z ∧ (4 | p.2)%Z) (params l)
  ∧ Forall (λ v : string * Z * bool,
      (-4 * Z.of_nat (param_num l) - 4 * Z.of_nat (local_num l) - 12
       ≤ v.1.2 ≤ -16)%Z ∧ (4 | v.1.2)%Z ∧ v.2 = false) (local_vars l).

Lemma add_symbol_slots (l : layout) (s : Symbol) :
  slots_ok l → slots_ok (add_symbol (-4) l s).
Proof.
  intros [Hp Hl]. unfold slots_ok, add_symbol.
  destruct (kind s); cbn [param_num local_num params local_vars];
    [|
     |by split|by split].
  - split.
    + apply Forall_app. split.
      * eapply Forall_impl; [exact Hp|]. intros [x o] [? ?]. cbn in *.
        split; [lia|done].
      * constructor; [|constructor]. cbn. split; [lia|].
        exists (- Z.of_nat (S (param_num l)) - 2)%Z. lia.
    + eapply Forall_impl; [exact Hl|]. intros [[x o] b] (? & ? & ?). cbn in *.
      split; [lia|done].
  - split; [done|]. apply Forall_app. split.
    + eapply Forall_impl; [exact Hl|]. intros [[x o] b] (? & ? & ?). cbn in *.
      split; [lia|done].
    + constructor; [|constructor]. cbn. split; [lia|]. split; [|done].
      exists (- Z.of_nat (param_num l) - Z.of_nat (S (local_num l)) - 3)%Z.
      lia.
Qed.

Lemma fold_add_symbol_slots (symbols : list Symbol) (l : layout) :
  slots_ok l → slots_ok (fold_left (add_symbol (-4)) symbols l).
Proof.
  revert l. induction symbols as [|s symbols IH]; intros l Hl; [done|].
  cbn [fold_left]. by apply IH, add_symbol_slots.
Qed.

Lemma frame_of_name func_name old_sp symbols :
  FunctionStackFrame.name (frame_of func_name old_sp symbols) = func_name.
Proof. done. Qed.

Lemma get_frame_app frames frames' name :
  get_frame (frames ++ frames') name
  = match get_frame frames name with
    | Some frame => Some frame
    | None => get_frame frames' name
    end.
Proof.
  unfold get_frame. induction frames as [|fr frames IH]; [done|]. cbn.
  by destruct (String.eqb _ _).
Qed.
End frames.

(** Whatever the scope holds and in whatever order, the frame counts its
    parameter and variable symbols, has the size [4 * (P + L) + 20], and
    every slot lies inside it, at a multiple of four between
    [-(size - 8)] and [-12], clear of the words at [-4] and [-8]; no local
    is marked as being in memory. *)
Theorem frame_slots_inside (func_name : string) (old_sp : Z)
    (symbols : list Symbol) :
  let frame := FunctionStack.frame_of func_name old_sp symbols in
  let P := length (parameters symbols) in
  let L := length (locals symbols) in
  FunctionStackFrame.param_num frame = P
  ∧ FunctionStackFrame.local_num frame = L
  ∧ length (FunctionStackFrame.params frame) = P
  ∧ length (FunctionStackFrame.local_vars frame) = L
  ∧ FunctionStackFrame.size frame = (4 * (Z.of_nat P + Z.of_nat L) + 20)%Z
  ∧ Forall (λ offset,
      (- (FunctionStackFrame.size frame - 8) ≤ offset ≤ -12)%Z
      ∧ (4 | offset)%Z) (frame_offsets frame)
  ∧ Forall (λ v : string * Z * bool, v.2 = false)
      (FunctionStackFrame.local_vars frame).
Proof.
  intros frame P L.
  pose proof (fold_add_symbol_counts symbols (FunctionStack.mkLayout 0 0 [] []))
    as (Hpn & Hln & Hpl & Hll).
  destruct (fold_add_symbol_slots symbols (FunctionStack.mkLayout 0 0 [] []))
    as [Hp Hl]; [split; constructor|].
  cbn in Hpn, Hln, Hpl, Hll.
  assert (FunctionStackFrame.size frame
          = (4 * (Z.of_nat P + Z.of_nat L) + 20)%Z) as Hsize.
  { unfold FunctionStackFrame.size. subst frame P L. unfold FunctionStack.frame_of.
    cbn [FunctionStackFrame.param_num FunctionStackFrame.local_num].
    rewrite Hpn, Hln. lia. }
  do 4 (split; [done|]). split; [done|]. split.
  - rewrite Hsize. unfold frame_offsets. apply Forall_app. split.
    + apply Forall_fmap. eapply Forall_impl; [exact Hp|].
      intros [x o] [Hb ?]. cbn in *. split; [|done].
      rewrite Hpn in Hb. subst P L. lia.
    + apply Forall_fmap. eapply Forall_impl; [exact Hl|].
      intros [[x o] b] (Hb & ? & ?). cbn in *. split; [|done].
      rewrite Hpn, Hln in Hb. subst P L. lia.
  - eapply Forall_impl; [exact Hl|]. by intros [[x o] b] (? & ? & ?).
Qed.

(** [build_frame] raises exactly when the function has no scope, and then
    an [AttributeError]; otherwise it appends a frame of the function's name
    whose [old_sp] is the size of the frame built before it (0 for the
    first).  [get_frame] then finds the new frame under the function's name
    unless an earlier frame has that name, in which case it keeps finding
    the earlier one; the frames of the other names are found as before. *)
Theorem build_frame_get_frame (symbolTable : SymbolTable)
    (frames : list FunctionStackFrame.t) (func_name : string) :
  match FunctionStack.build_frame symbolTable frames func_name with
  | Ok (frame, frames') =>
      (∃ symbols, find_scope symbolTable func_name = Some symbols
         ∧ frame = FunctionStack.frame_of func_name
                     (default 0%Z (FunctionStackFrame.size <$> last frames))
                     symbols)
      ∧ frames' = frames ++ [frame]
      ∧ FunctionStack.get_frame frames' func_name
        = Some (default frame (FunctionStack.get_frame frames func_name))
      ∧ ∀ g, g ≠ func_name →
          FunctionStack.get_frame frames' g = FunctionStack.get_frame frames g
  | Raise e =>
      e = AttributeError "symbols" ∧ find_scope symbolTable func_name = None
  end.
Proof.
  unfold FunctionStack.build_frame.
  destruct (find_scope symbolTable func_name) as [symbols|]; [|done]. cbn.
  split. { exists symbols. split; [done|]. by destruct (last frames). }
  split; [done|]. split.
  - rewrite get_frame_app.
    destruct (FunctionStack.get_frame frames func_name); [done|].
    unfold FunctionStack.get_frame. cbn. by rewrite String.eqb_refl.
  - intros g Hg. rewrite get_frame_app.
    destruct (FunctionStack.get_frame frames g); [done|].
    unfold FunctionStack.get_frame. cbn.
    destruct (String.eqb_spec func_name g); [by subst|done].
Qed.

Section memflag.

Lemma set_memflag_find (v w : string) (b : bool)
    (vars : list (string * Z * bool)) :
  List.find (λ x : string * Z * bool, String.eqb x.1.1 w)
    (FunctionStackFrame.set_memflag v b vars)
  = (λ x : string * Z * bool,
       if String.eqb v w then (x.1, b) else x)
    <$> List.find (λ x : string * Z * bool, String.eqb x.1.1 w) vars.
Proof.
  induction vars as [|[[x o] c] vars IH]; [done|].
  cbn [FunctionStackFrame.set_memflag List.find].
  destruct (String.eqb x v) eqn:Hxv; cbn [List.find fst snd].
  - apply String.eqb_eq in Hxv as ->.
    destruct (String.eqb v w) eqn:Hvw; [done|].
    by destruct (List.find _ vars).
  - destruct (String.eqb x w) eqn:Hxw; [|apply IH].
    apply String.eqb_eq in Hxw as ->. by rewrite String.eqb_sym, Hxv.
Qed.
End memflag.

(** Setting the flag of a variable and reading it back: a local reads the
    flag that was set; the flags of the other variables, every offset and
    the size of the frame stay as they were. *)
Theorem memflag_round_trip (frame : FunctionStackFrame.t) (v : string)
    (b : bool) :
  let frame' := FunctionStackFrame.set_var_memflag frame v b in
  (is_Some (FunctionStackFrame.get_var_offset frame v) →
   FunctionStackFrame.if_var_in_memory frame' v = b)
  ∧ (∀ w, FunctionStackFrame.get_var_offset frame' w
          = FunctionStackFrame.get_var_offset frame w)
  ∧ (∀ w, w ≠ v →
       FunctionStackFrame.if_var_in_memory frame' w
       = FunctionStackFrame.if_var_in_memory frame w)
  ∧ FunctionStackFrame.size frame' = FunctionStackFrame.size frame
  ∧ FunctionStackFrame.name frame' = FunctionStackFrame.name frame
  ∧ FunctionStackFrame.params frame' = FunctionStackFrame.params frame.
Proof.
  intros frame'. subst frame'.
  unfold FunctionStackFrame.get_var_offset, FunctionStackFrame.if_var_in_memory,
    FunctionStackFrame.set_var_memflag.
  cbn [FunctionStackFrame.local_vars]. split; [|split; [|split]].
  - intros [o Ho]. rewrite set_memflag_find, String.eqb_refl.
    destruct (List.find _ _) as [[[x o'] c]|]; [done|done].
  - intros w. rewrite set_memflag_find.
    destruct (List.find _ _) as [[[x o'] c]|]; [|done]. cbn.
    by destruct (String.eqb v w).
  - intros w Hw. rewrite set_memflag_find.
    destruct (String.eqb_spec v w); [by subst|].
    by destruct (List.find _ _) as [[[x o'] c]|].
  - done.
Qed.

Lemma memflag_round_trip_witness :
  FunctionStackFrame.if_var_in_memory
    (FunctionStackFrame.set_var_memflag
       (FunctionStack.frame_of "g" 0 sample_scope) "y" true) "y" = true.
Proof.
  apply (memflag_round_trip (FunctionStack.frame_of "g" 0 sample_scope)
           "y" true).
  eexists. by vm_compute.
Defined.

(** ** The register allocator: invariants and the choice of the victim *)

Section position_order.

Lemma string_compare_refl (s : string) : String.compare s s = Eq.
Proof.
  pose proof (String.compare_antisym s s) as H.
  by destruct (String.compare s s).
Qed.

Lemma string_lt_trans (a b c : string) :
  String.compare a b = Lt → String.compare b c = Lt → String.compare a c = Lt.
Proof.
  intros Hab Hbc. apply OrderedTypeEx.String_as_OT.cmp_lt.
  eapply OrderedTypeEx.String_as_OT.lt_trans;
    by apply OrderedTypeEx.String_as_OT.cmp_lt.
Qed.

Lemma position_compare_Lt (p q : position) :
  position_compare p q = Lt ↔
  String.compare p.1.1 q.1.1 = Lt
  ∨ (p.1.1 = q.1.1 ∧ (p.1.2 < q.1.2 ∨ (p.1.2 = q.1.2 ∧ p.2 < q.2))).
Proof.
  unfold position_compare.
  destruct (String.compare p.1.1 q.1.1) eqn:Hs.
  - apply String.compare_eq_iff in Hs.
    destruct (Nat.compare_spec p.1.2 q.1.2) as [Hb|Hb|Hb].
    + rewrite Nat.compare_lt_iff. naive_solver lia.
    + naive_solver.
    + split; [done|]. naive_solver lia.
  - naive_solver.
  - split; [done|]. intros [?|[Heq _]]; [done|].
    rewrite Heq, string_compare_refl in Hs. done.
Qed.

Lemma position_compare_antisym (p q : position) :
  position_compare q p = CompOpp (position_compare p q).
Proof.
  unfold position_compare. rewrite (String.compare_antisym q.1.1 p.1.1).
  destruct (String.compare p.1.1 q.1.1); cbn; [|done..].
  rewrite (Nat.compare_antisym p.1.2 q.1.2).
  destruct (Nat.compare p.1.2 q.1.2); cbn; [|done..].
  apply Nat.compare_antisym.
Qed.

Lemma position_ltb_trans (p q r : position) :
  position_ltb p q = true → position_ltb q r = true → position_ltb p r = true.
Proof.
  unfold position_ltb.
  destruct (position_compare p q) eqn:Hpq; try done.
  destruct (position_compare q r) eqn:Hqr; try done.
  intros _ _. apply position_compare_Lt in Hpq, Hqr.
  assert (position_compare p r = Lt) as ->; [|done].
  apply position_compare_Lt.
  destruct Hpq as [Hpq|[Hpq Hpq']], Hqr as [Hqr|[Hqr Hqr']].
  - left. by eapply string_lt_trans.
  - left. by rewrite <- Hqr.
  - left. by rewrite Hpq.
  - right. split; [congruence|]. lia.
Qed.

Lemma position_ltb_irrefl (p : position) : position_ltb p p = false.
Proof.
  unfold position_ltb. pose proof (position_compare_antisym p p) as H.
  by destruct (position_compare p p).
Qed.
End position_order.

Section victim.
Import MemController.

(** Every key scanned so far is used again, and none later than [pf]. *)
Definition none_later (self : t) (cur_pos : position) (pf : position)
    (keys : list (string * operand)) : Prop :=
  ∀ k, k ∈ keys →
    ∃ p', next_use self cur_pos k.2 = Some p' ∧ position_ltb pf p' = false.

Lemma scan_victim_furthest self cur_pos bindings victim farthest seen v :
  match farthest with
  | None => victim = None ∧ seen = []
  | Some pf =>
      ∃ vk, victim = Some vk ∧ vk ∈ seen
        ∧ next_use self cur_pos vk.2 = Some pf
        ∧ none_later self cur_pos pf seen
  end →
  scan_victim self cur_pos bindings victim farthest = Some v →
  v ∈ seen ++ bindings.*1
  ∧ ∀ p, next_use self cur_pos v.2 = Some p →
      none_later self cur_pos p (seen ++ bindings.*1).
Proof.
  revert victim farthest seen.
  induction bindings as [|[[af av] r] bindings IH];
    intros victim farthest seen Hinv.
  - cbn [scan_victim]. intros ->. rewrite app_nil_r.
    destruct farthest as [pf|]; [|by destruct Hinv].
    destruct Hinv as (vk & [= <-] & Hin & Hnext & Hall).
    split; [done|]. intros p Hp. rewrite Hnext in Hp. by injection Hp as <-.
  - cbn [scan_victim]. fold (next_use self cur_pos av).
    change ((((af, av), r) :: bindings).*1) with ((af, av) :: bindings.*1).
    replace (seen ++ (af, av) :: bindings.*1)
      with ((seen ++ [(af, av)]) ++ bindings.*1)
      by (by rewrite <- app_assoc).
    destruct (next_use self cur_pos av) as [nu|] eqn:Hnu.
    + destruct (match farthest with
                | None => true
                | Some farthest => position_ltb farthest nu
                end) eqn:Hupd.
      * apply IH. exists (af, av). split; [done|].
        split; [apply elem_of_app; right; by left|]. split; [done|].
        intros k [Hk|Hk]%elem_of_app.
        -- destruct farthest as [pf|];
             [|destruct Hinv as [_ ->]; by apply elem_of_nil in Hk].
           destruct Hinv as (vk & _ & _ & _ & Hall).
           destruct (Hall k Hk) as (p' & Hp' & Hle). exists p'.
           split; [done|].
           destruct (position_ltb nu p') eqn:Hlt; [|done].
           by rewrite (position_ltb_trans pf nu p') in Hle.
        -- apply list_elem_of_singleton in Hk as ->. exists nu.
           split; [done|apply position_ltb_irrefl].
      * destruct farthest as [pf|]; [|done].
        destruct Hinv as (vk & -> & Hin & Hnext & Hall).
        apply IH. exists vk. split; [done|].
        split; [apply elem_of_app; by left|]. split; [done|].
        intros k [Hk|Hk]%elem_of_app; [by apply Hall|].
        apply list_elem_of_singleton in Hk as ->. by exists nu.
    + intros [= <-]. split.
      * apply elem_of_app. left. apply elem_of_app. right. by left.
      * intros p Hp. cbn in Hp. congruence.
Qed.

Lemma NoDup_filter_lookup {A} (P : A → Prop) `{∀ x, Decision (P x)}
    (l : list A) (i j : nat) (x : A) :
  NoDup (filter P l) → l !! i = Some x → l !! j = Some x → P x → i = j.
Proof.
  revert i j. induction l as [|y l IH]; intros i j Hnd Hi Hj HP; [done|].
  rewrite filter_cons in Hnd.
  assert (NoDup (filter P l) ∧ (P y → y ∉ filter P l)) as [Hnd' Hy].
  { case_decide; [by apply NoDup_cons in Hnd as [? ?]|done]. }
  destruct i as [|i], j as [|j]; cbn in *; [done| | |f_equal; by eapply IH].
  - injection Hi as ->. destruct (Hy HP).
    apply list_elem_of_filter. split; [done|]. by eapply list_elem_of_lookup_2.
  - injection Hj as ->. destruct (Hy HP).
    apply list_elem_of_filter. split; [done|]. by eapply list_elem_of_lookup_2.
Qed.

Lemma dict_del_split {K V} `{EqDecision K} (k : K) (v : V) (d : list (K * V)) :
  dict_get k d = Some v →
  ∃ d1 d2, d = d1 ++ (k, v) :: d2 ∧ dict_del k d = d1 ++ d2.
Proof.
  induction d as [|[k' v'] d IH]; [done|]. cbn. case_decide as Hk.
  - intros [= ->]. subst. by exists [], d.
  - intros (d1 & d2 & -> & ->)%IH. by exists ((k', v') :: d1), d2.
Qed.

Lemma dict_get_del_None {K V} `{EqDecision K} (k k' : K) (d : list (K * V)) :
  dict_get k d = None → dict_get k (dict_del k' d) = None.
Proof.
  induction d as [|[k0 v0] d IH]; [done|]. cbn.
  case_decide; [done|]. case_decide; cbn; [done|].
  by rewrite decide_False by done.
Qed.

Lemma pool_consistent_perm (self self' : t) :
  (rvalues self').*2 ≡ₚ (rvalues self).*2 →
  usedregs self ⊆ usedregs self' →
  pool_consistent self → pool_consistent self'.
Proof.
  intros Hperm Hsub [Hnd Hused]. split.
  - by rewrite Hperm.
  - intros r Hr Hpool. apply Hsub, Hused; [|done]. by rewrite <- Hperm.
Qed.
End victim.

Lemma alloc_reg_pool_consistent (self : MemController.t)
    (varname : operand) (cur_pos : position) (code : list instr)
    (reg : string) (self' : MemController.t) (code' : list instr) :
  pool_consistent self →
  MemController.alloc_reg self varname cur_pos code = Ok (reg, self', code') →
  pool_consistent self'.
Proof.
  intros Hinv Hrun.
  revert Hrun. unfold MemController.alloc_reg.
  remember MemController.valregs as pool eqn:Hpool.
  destruct (dict_get _ (MemController.rvalues self)) as [r0|] eqn:Hkey.
  { intros [= _ <- _]. done. }
  destruct (filter _ pool) as [|r0 free] eqn:Hfree.
  + destruct (MemController.select_victim self cur_pos) as [[vf vv]|] eqn:Hv;
      [|done].
    destruct (select_victim_bound _ _ _ Hv) as [r0 Hr0].
    unfold or_raise, mbind, result_bind, mret, result_ret. rewrite Hr0.
    destruct (MemController.spill _ _ _ _ _ _) as [frames code0].
    intros [= _ <- _].
    destruct (dict_del_split _ _ _ Hr0) as (d1 & d2 & Hd & Hdel).
    eapply pool_consistent_perm; [| |exact Hinv];
      cbn [MemController.rvalues MemController.usedregs].
    * rewrite dict_set_fresh by by apply dict_get_del_None.
      rewrite Hdel, Hd, !fmap_app, !fmap_cons. cbn [snd fmap list_fmap].
      rewrite <- app_assoc. apply Permutation_app_head.
      by rewrite <- Permutation_cons_append.
    * intros x Hx. destruct (decide (x = r0)); set_solver.
  + intros [= _ <- _].
    assert (r0 ∈ filter (λ r, r ∉ MemController.usedregs self) pool) as Hin
      by (rewrite Hfree; by left).
    apply list_elem_of_filter in Hin as [Hunused Hin]. subst pool.
    destruct Hinv as [Hnd Hused]. split;
      cbn [MemController.rvalues MemController.usedregs].
    * rewrite dict_set_fresh by done.
      rewrite fmap_app, filter_app. cbn [fmap list_fmap snd].
      rewrite filter_cons, decide_True by done. rewrite filter_nil.
      apply NoDup_app. split; [done|]. split; [|apply NoDup_singleton].
      intros x [Hx Hpool]%list_elem_of_filter ->%list_elem_of_singleton.
      apply Hunused. by apply Hused.
    * rewrite dict_set_fresh by done. rewrite fmap_app.
      intros x [Hx|Hx]%elem_of_app Hpool; [|set_solver].
      apply elem_of_union. right. by apply Hused.
Qed.

Lemma pool_consistent_inj (self : MemController.t) :
  pool_consistent self →
  ∀ i j k1 k2 r,
    MemController.rvalues self !! i = Some (k1, r) →
    MemController.rvalues self !! j = Some (k2, r) →
    r ∈ MemController.varregs → i = j.
Proof.
  intros [Hnd _] i j k1 k2 r Hi Hj Hr.
  apply (NoDup_filter_lookup _ _ i j r Hnd); [..|done];
    by rewrite list_lookup_fmap, ?Hi, ?Hj.
Qed.

(** [alloc_reg] keeps the pool consistent: afterwards no two bindings hold
    the same register of the pool, and every bound register of the pool is
    marked as used. *)
Theorem alloc_reg_keeps_pool_consistent (self : MemController.t)
    (varname : operand) (cur_pos : position) (code : list instr)
    (reg : string) (self' : MemController.t) (code' : list instr) :
  pool_consistent self →
  MemController.alloc_reg self varname cur_pos code = Ok (reg, self', code') →
  pool_consistent self'
  ∧ ∀ i j k1 k2 r,
      MemController.rvalues self' !! i = Some (k1, r) →
      MemController.rvalues self' !! j = Some (k2, r) →
      r ∈ MemController.varregs → i = j.
Proof.
  intros Hinv Hrun.
  pose proof (alloc_reg_pool_consistent _ _ _ _ _ _ _ Hinv Hrun) as Hinv'.
  split; [done|]. by apply pool_consistent_inj.
Qed.

Lemma alloc_reg_keeps_pool_consistent_witness :
  ∃ reg self' code',
    MemController.alloc_reg spilling (OStr "t") ("f", 0, 1) []
      = Ok (reg, self', code')
    ∧ pool_consistent self'.
Proof.
  eexists _, _, _. split; [by vm_compute|].
  refine (proj1 (alloc_reg_keeps_pool_consistent spilling (OStr "t")
            ("f", 0, 1) [] _ _ _ _ _)).
  - split; [apply (bool_decide_unpack _); by vm_compute|].
    intros r _ Hr. change (r ∈ (list_to_set MemController.varregs : gset string)).
    by apply elem_of_list_to_set.
  - by vm_compute.
Defined.

(** The victim of an eviction is a bound key.  If it is used again at or
    after the current position, then so is every bound key, and none of
    them has its next use later than the victim: the victim is the key whose
    next use is furthest.  Put the other way round, as soon as some bound
    key is not used again, the victim is one that is not used again. *)
Theorem select_victim_furthest (self : MemController.t) (cur_pos : position)
    (victim : string * operand) :
  MemController.select_victim self cur_pos = Some victim →
  (∃ reg, (victim, reg) ∈ MemController.rvalues self)
  ∧ ∀ p, next_use self cur_pos victim.2 = Some p →
      ∀ key reg, (key, reg) ∈ MemController.rvalues self →
        ∃ p', next_use self cur_pos key.2 = Some p'
          ∧ position_ltb p p' = false.
Proof.
  intros Hv.
  destruct (scan_victim_furthest self cur_pos (MemController.rvalues self)
              None None [] victim) as [Hin Hall]; [done|done|].
  cbn [app] in Hin, Hall. split.
  - apply list_elem_of_fmap in Hin as ([k reg] & -> & Hin). by exists reg.
  - intros p Hp key reg Hkey. apply (Hall p Hp key).
    apply list_elem_of_fmap. by exists (key, reg).
Qed.

Lemma select_victim_furthest_witness :
  MemController.select_victim spilling ("f", 0, 1)
    = Some ("f", OStr "v17")
  ∧ ∃ p', next_use spilling ("f", 0, 1) (OStr "v3") = Some p'
      ∧ position_ltb ("f", 0, 19) p' = false.
Proof.
  assert (MemController.select_victim spilling ("f", 0, 1)
          = Some ("f", OStr "v17")) as Hv by (by vm_compute).
  split; [done|].
  destruct (select_victim_furthest spilling ("f", 0, 1) ("f", OStr "v17") Hv)
    as [_ Hall].
  apply (Hall ("f", 0, 19) ltac:(by vm_compute) ("f", OStr "v3") "$t3").
  by apply (bool_decide_unpack _).
Defined.

Section spill.
Import MemController.

Lemma get_frame_name frames name frame :
  FunctionStack.get_frame frames name = Some frame →
  FunctionStackFrame.name frame = name.
Proof.
  unfold FunctionStack.get_frame. intros [_ Hn]%find_some.
  by apply String.eqb_eq.
Qed.

Lemma get_frame_set_frame frames name new g :
  FunctionStackFrame.name new = name →
  FunctionStack.get_frame (FunctionStack.set_frame name new frames) g
  = if decide (g = name)
    then (λ _, new) <$> FunctionStack.get_frame frames name
    else FunctionStack.get_frame frames g.
Proof.
  intros Hnew. unfold FunctionStack.get_frame.
  induction frames as [|fr frames IH]; cbn.
  { by case_decide. }
  destruct (String.eqb_spec (FunctionStackFrame.name fr) name) as [Hfr|Hfr].
  - cbn. rewrite Hnew. case_decide as Hg.
    + subst g. by rewrite String.eqb_refl.
    + destruct (String.eqb_spec name g); [by subst|].
      destruct (String.eqb_spec (FunctionStackFrame.name fr) g); [congruence|].
      done.
  - cbn. rewrite IH. case_decide as Hg.
    + subst g. by destruct (String.eqb_spec (FunctionStackFrame.name fr) name).
    + done.
Qed.
End spill.

(** When the pool is exhausted and the victim is a local of the current
    function that is used again later and has a slot, [alloc_reg] stores the
    victim's register to that slot, marks the victim as being in memory and
    hands the register to the new key.  When the victim belongs to another
    function or is not used again later in the current one, nothing is
    stored and no frame changes. *)
Theorem eviction_spills_live_local (self : MemController.t)
    (varname : operand) (cur_pos : position) (code : list instr)
    (victim_func : string) (victim : string) :
  let func_name := cur_pos.1.1 in
  dict_get (func_name, varname) (MemController.rvalues self) = None →
  pool_exhausted self →
  MemController.select_victim self cur_pos
    = Some (victim_func, OStr victim) →
  ∃ reg self' code',
    MemController.alloc_reg self varname cur_pos code
      = Ok (reg, self', code')
    ∧ dict_get (victim_func, OStr victim) (MemController.rvalues self)
      = Some reg
    ∧ dict_get (func_name, varname) (MemController.rvalues self') = Some reg
    ∧ (∀ frame offset,
         victim_func = func_name →
         victim ∈ MemController.get_live_vars_after self cur_pos →
         FunctionStack.get_frame (MemController.function_stack self)
           func_name = Some frame →
         FunctionStackFrame.get_var_offset frame victim = Some offset →
         code' = code ++ [Sw reg offset "$sp"]
         ∧ ∃ frame',
             FunctionStack.get_frame (MemController.function_stack self')
               func_name = Some frame'
             ∧ FunctionStackFrame.if_var_in_memory frame' victim = true
             ∧ FunctionStackFrame.get_var_offset frame' victim = Some offset)
    ∧ (victim_func ≠ func_name
       ∨ victim ∉ MemController.get_live_vars_after self cur_pos →
       code' = code
       ∧ MemController.function_stack self'
         = MemController.function_stack self).
Proof.
  intros func_name Hkey Hfull Hvictim.
  destruct (select_victim_bound _ _ _ Hvictim) as [reg Hreg].
  unfold MemController.alloc_reg. fold func_name. rewrite Hkey.
  unfold pool_exhausted in Hfull. rewrite Hfull, Hvictim.
  unfold or_raise, mbind, result_bind, mret, result_ret. rewrite Hreg.
  destruct (MemController.spill self cur_pos victim_func (OStr victim) reg code)
    as [frames code0] eqn:Hspill.
  exists reg. eexists. exists code0. split; [done|]. split; [done|].
  cbn [MemController.rvalues MemController.function_stack].
  split; [apply dict_get_set|]. unfold MemController.spill in Hspill.
  fold func_name in Hspill. split.
  - intros frame offset -> Hlive Hframe Hoff.
    rewrite String.eqb_refl, bool_decide_eq_true_2 in Hspill by done.
    cbn [andb] in Hspill. rewrite Hframe, Hoff in Hspill.
    injection Hspill as <- <-. split; [done|].
    pose proof (get_frame_name _ _ _ Hframe) as Hname.
    rewrite get_frame_set_frame by done.
    rewrite decide_True, Hframe by done. cbn. eexists. split; [done|].
    unfold FunctionStackFrame.if_var_in_memory,
      FunctionStackFrame.get_var_offset, FunctionStackFrame.set_var_memflag
      in *. cbn [FunctionStackFrame.local_vars].
    rewrite set_memflag_find, String.eqb_refl.
    destruct (List.find _ (FunctionStackFrame.local_vars frame))
      as [[[x o] c]|]; [|discriminate Hoff].
    cbn [fmap option_fmap option_map fst snd default] in Hoff |- *.
    injection Hoff as ->. by split.
  - intros Hnot.
    assert (String.eqb victim_func func_name
            && bool_decide
                 (victim ∈ MemController.get_live_vars_after self cur_pos)
            = false) as Hcond.
    { apply andb_false_iff. destruct Hnot as [Hne|Hnl].
      - left. by apply String.eqb_neq.
      - right. by apply bool_decide_eq_false. }
    rewrite Hcond in Hspill. by injection Hspill as <- <-.
Qed.

Lemma eviction_spills_live_local_witness :
  ∃ reg self' code',
    MemController.alloc_reg spilling (OStr "t") ("f", 0, 1) []
      = Ok (reg, self', code')
    ∧ code' = [] ++ [Sw reg (-84) "$sp"].
Proof.
  destruct (eviction_spills_live_local spilling (OStr "t") ("f", 0, 1) []
              "f" "v17")
    as (reg & self' & code' & Hrun & _ & _ & Hspill & _).
  - by vm_compute.
  - by vm_compute.
  - by vm_compute.
  - exists reg, self', code'. split; [done|].
    apply (Hspill (FunctionStack.frame_of "f" 0 eighteen_locals) (-84)%Z).
    + done.
    + by apply (bool_decide_unpack _).
    + by vm_compute.
    + by vm_compute.
Defined.

(** ** Code generation: what every quadruple keeps *)

Section foldlM.
Context {A B : Type}.

Lemma foldlM_invariant (f : A → B → result_of A) (I : A → A → Prop)
    (l : list B) (a a' : A) :
  (∀ a, I a a) → (∀ a b c, I a b → I b c → I a c) →
  (∀ a x a', x ∈ l → f a x = Ok a' → I a a') →
  foldlM f a l = Ok a' → I a a'.
Proof.
  intros Hrefl Htrans. revert a.
  induction l as [|x l IH]; intros a Hstep; cbn [foldlM].
  { by intros [= <-]. }
  destruct (f a x) as [a1|] eqn:Hfx; [|done].
  unfold mbind, result_bind. intros Hrest.
  eapply Htrans; [eapply Hstep; [by left|done]|].
  apply IH; [|done]. intros a0 y a0' Hy. apply Hstep. by right.
Qed.
End foldlM.

Section quad_step.
Import AimCodeGenerator.
Variable block_controller : BlockController.t.

(** What the steps of the generator keep: a relation between the
    controller before and after that [alloc_reg], the binding of an
    argument register, a new frame and the rebasing of a parameter
    respect. *)
Variable R : MemController.t → MemController.t → Prop.
Hypothesis R_refl : ∀ mc, R mc mc.
Hypothesis R_trans : ∀ a b c, R a b → R b c → R a c.
Hypothesis R_alloc : ∀ mc v pos code reg mc' code',
  MemController.alloc_reg mc v pos code = Ok (reg, mc', code') → R mc mc'.
Hypothesis R_param : ∀ mc key reg,
  reg ∈ MemController.pararegs → R mc (set_rvalue key reg mc).

Lemma alloc_reg_code mc v pos code reg mc' code' :
  MemController.alloc_reg mc v pos code = Ok (reg, mc', code') →
  ∃ extra, code' = code ++ extra
    ∧ Forall (line_ok block_controller) extra.
Proof.
  unfold MemController.alloc_reg.
  remember MemController.valregs as pool eqn:Hpool.
  destruct (dict_get _ (MemController.rvalues mc)) as [r0|].
  { intros [= _ _ <-]. exists []. by rewrite app_nil_r. }
  destruct (filter _ pool) as [|r0 free].
  2: { intros [= _ _ <-]. exists []. by rewrite app_nil_r. }
  destruct (MemController.select_victim mc pos) as [[vf vv]|]; [|done].
  unfold or_raise, mbind, result_bind, mret, result_ret.
  destruct (dict_get _ _) as [r0|]; [|done].
  destruct (MemController.spill _ _ _ _ _ _) as [frames code0] eqn:Hspill.
  intros [= _ _ <-]. unfold MemController.spill in Hspill.
  destruct vv as [victim| |];
    try (injection Hspill as _ <-; exists []; by rewrite app_nil_r).
  destruct (_ && _);
    [|injection Hspill as _ <-; exists []; by rewrite app_nil_r].
  destruct (FunctionStack.get_frame _ _) as [frame|];
    [|injection Hspill as _ <-; exists []; by rewrite app_nil_r].
  destruct (FunctionStackFrame.get_var_offset _ _) as [offset|];
    [|injection Hspill as _ <-; exists []; by rewrite app_nil_r].
  injection Hspill as _ <-. eexists. split; [done|]. by repeat constructor.
Qed.

(** The relation with the lines that are added. *)
Definition step (st st' : MemController.t * list instr) : Prop :=
  R st.1 st'.1
  ∧ ∃ extra, st'.2 = st.2 ++ extra ∧ Forall (line_ok block_controller) extra.

Lemma step_refl st : step st st.
Proof. split; [done|]. exists []. by rewrite app_nil_r. Qed.

Lemma step_trans st1 st2 st3 : step st1 st2 → step st2 st3 → step st1 st3.
Proof.
  intros [HR1 (e1 & He1 & Hl1)] [HR2 (e2 & He2 & Hl2)].
  split; [by eapply R_trans|]. exists (e1 ++ e2).
  split; [by rewrite He2, He1, app_assoc|]. by apply Forall_app.
Qed.

Lemma step_lines mc code extra :
  Forall (line_ok block_controller) extra → step (mc, code) (mc, code ++ extra).
Proof. intros Hl. split; [apply R_refl|]. by exists extra. Qed.

Lemma alloc_step v pos st reg st' :
  alloc v pos st = Ok (reg, st') → step st st'.
Proof.
  unfold alloc.
  destruct (MemController.alloc_reg _ _ _ _) as [[[r mc'] code']|] eqn:Hrun;
    [|done].
  cbn. intros [= _ <-]. split; [by eapply R_alloc|].
  by eapply alloc_reg_code.
Qed.

Lemma reload_ok mc func_name var reg :
  Forall (line_ok block_controller) (reload mc func_name var reg).
Proof.
  unfold reload. destruct (frame_of mc func_name) as [frame|]; [|done].
  destruct (FunctionStackFrame.if_var_in_memory _ _); [|done].
  destruct (FunctionStackFrame.get_var_offset _ _); by repeat constructor.
Qed.

Lemma live_slots_ok line mc frame func_name live_vars :
  (∀ r o b, line_ok block_controller (line r o b)) →
  Forall (line_ok block_controller)
    (live_slots line mc frame func_name live_vars).
Proof.
  intros Hline. unfold live_slots. apply Forall_forall.
  intros i (var & _ & Hi)%list_elem_of_omap.
  destruct (frame ≫= _) as [offset|]; [|done]. cbn in Hi.
  injection Hi as <-. apply Hline.
Qed.

Lemma call_to_code_ok quad cur_pos mc :
  Forall (line_ok block_controller) (call_to_code quad cur_pos mc).
Proof.
  unfold call_to_code.
  repeat (apply Forall_app; split);
    try (apply live_slots_ok; done);
    try (destruct (frame_of _ _));
    repeat (apply Forall_app; split);
    try (apply live_slots_ok; done);
    by repeat constructor.
Qed.

Lemma get_scope_by_index_valid o f b :
  BlockController.get_scope_by_index block_controller o
    = Ok (Some f, Some b) →
  valid_target block_controller (f, b).
Proof.
  unfold BlockController.get_scope_by_index.
  destruct (BlockController.func_entries block_controller); [done|].
  destruct o as [|index|]; [done| |done].
  destruct (BlockController.enclosing_function _ _) as [func_name|]; [|done].
  destruct (dict_get func_name _) as [blocks|] eqn:Hblocks; [|done].
  cbn. intros [= -> Hfind].
  destruct (list_find _ blocks) as [[b' blk]|] eqn:Hlf; [|done].
  cbn in Hfind. injection Hfind as ->.
  apply list_find_Some in Hlf as (Hb & _). exists blocks.
  split; [done|]. by eapply lookup_lt_Some.
Qed.

Lemma jump_target_valid quad t :
  jump_target block_controller quad = Ok t →
  valid_target block_controller t.
Proof.
  unfold jump_target.
  destruct (BlockController.get_scope_by_index _ _) as [[[f|] [b|]]|] eqn:Hs;
    try done.
  cbn. intros [= <-]. by eapply get_scope_by_index_valid.
Qed.

Ltac alloc_in H :=
  match type of H with
  | context [alloc ?v ?p ?st] =>
      let E := fresh "Halloc" in
      destruct (alloc v p st) as [[? [? ?]]|] eqn:E;
      [apply alloc_step in E|discriminate H];
      cbn [mbind result_bind mret result_ret] in H
  end.

Lemma param_to_code_step quad cur_pos mc mc' lines :
  param_to_code quad cur_pos mc = Ok (mc', lines) → step (mc, []) (mc', lines).
Proof.
  unfold param_to_code. intros H.
  destruct (result quad) as [res| |]; try done.
  destruct (first_digit res) as [[[|n]|]|];
    cbn [mbind result_bind] in H; try done.
  destruct (4 <? S n); [done|].
  destruct (MemController.pararegs !! (S n - 1)) as [target|] eqn:Htarget;
    [|done].
  apply list_elem_of_lookup_2 in Htarget.
  cbn [or_raise mbind result_bind mret result_ret] in H.
  destruct (arg1 quad) as [a|z|] eqn:Harg; [| |done].
  - alloc_in H. injection H as <- <-.
    eapply step_trans; [exact Halloc|]. split; cbn [fst snd].
    + by apply R_param.
    + eexists. split; [done|]. by repeat constructor.
  - injection H as <- <-. split; cbn [fst snd]; [by apply R_param|].
    eexists. split; [done|]. by repeat constructor.
Qed.

Lemma binop_to_code_step inst quad cur_pos mc mc' lines :
  binop_to_code inst quad cur_pos mc = Ok (mc', lines) →
  step (mc, []) (mc', lines).
Proof.
  unfold binop_to_code. intros H. alloc_in H.
  eapply step_trans; [exact Halloc|]. clear Halloc.
  destruct (arg1 quad) as [v1|a|], (arg2 quad) as [v2|b|]; try done.
  - alloc_in H. alloc_in H. injection H as <- <-.
    eapply step_trans; [exact Halloc|].
    eapply step_trans; [exact Halloc0|]. apply step_lines.
    repeat (apply Forall_app; split); try apply reload_ok.
    by repeat constructor.
  - destruct (_ && _); [done|]. alloc_in H. injection H as <- <-.
    eapply step_trans; [exact Halloc|]. apply step_lines.
    repeat (apply Forall_app; split); try apply reload_ok;
      by repeat constructor.
  - destruct (_ && _); [done|]. alloc_in H. injection H as <- <-.
    eapply step_trans; [exact Halloc|]. apply step_lines.
    repeat (apply Forall_app; split); try apply reload_ok;
      by repeat constructor.
  - destruct (_ && _); [done|]. cbn [fst snd] in H. injection H as <- <-.
    apply step_lines. by repeat constructor.
Qed.

Lemma assign_to_code_step quad cur_pos mc mc' lines :
  assign_to_code quad cur_pos mc = Ok (mc', lines) →
  step (mc, []) (mc', lines).
Proof.
  unfold assign_to_code. intros H.
  destruct (arg1 quad) as [a|z|]; [| |done].
  - destruct (String.eqb a "$ret_reg").
    + alloc_in H. injection H as <- <-.
      eapply step_trans; [exact Halloc|]. apply step_lines.
      by repeat constructor.
    + alloc_in H. alloc_in H. injection H as <- <-.
      eapply step_trans; [exact Halloc|].
      eapply step_trans; [apply step_lines, reload_ok|].
      eapply step_trans; [exact Halloc0|]. apply step_lines.
      by repeat constructor.
  - alloc_in H. injection H as <- <-.
    eapply step_trans; [exact Halloc|]. apply step_lines.
    by repeat constructor.
Qed.

Lemma return_to_code_step index quad cur_pos mc mc' lines :
  return_to_code block_controller index quad cur_pos mc = Ok (mc', lines) →
  step (mc, []) (mc', lines).
Proof.
  unfold return_to_code. intros H.
  destruct (BlockController.get_scope_by_index _ _) as [scope|]; [|done].
  cbn [mbind result_bind mret result_ret] in H.
  case_bool_decide.
  { injection H as <- <-. apply (step_lines _ []). by repeat constructor. }
  destruct (arg1 quad) as [a|z|].
  - alloc_in H. injection H as <- <-.
    eapply step_trans; [exact Halloc|]. apply step_lines.
    by repeat constructor.
  - injection H as <- <-. apply (step_lines _ []). by repeat constructor.
  - injection H as <- <-. apply (step_lines _ []). by repeat constructor.
Qed.

(** Every quadruple keeps the relation, and its lines are neither labels
    nor jumps to blocks that do not exist. *)
Lemma quad_to_code_step iq cur_pos mc mc' lines :
  quad_to_code block_controller iq cur_pos mc = Ok (mc', lines) →
  step (mc, []) (mc', lines).
Proof.
  destruct iq as [index quad]. unfold quad_to_code. intros H.
  destruct (String.eqb (op quad) "param"); [by eapply param_to_code_step|].
  destruct (String.eqb (op quad) "call").
  { injection H as <- <-.
    apply (step_lines mc [] (call_to_code quad cur_pos mc)), call_to_code_ok. }
  destruct (op_inst (op quad)) as [inst|]; [by eapply binop_to_code_step|].
  destruct (String.eqb (op quad) "j").
  { destruct (jump_target _ _) as [[f b]|] eqn:Hj; [|done].
    cbn [mbind result_bind mret result_ret] in H. injection H as <- <-.
    apply (step_lines _ []). constructor; [|constructor].
    by apply jump_target_valid in Hj. }
  destruct (String.eqb (op quad) "jnz").
  { alloc_in H.
    destruct (jump_target _ _) as [[f b]|] eqn:Hj; [|done].
    cbn [mbind result_bind mret result_ret] in H. injection H as <- <-.
    eapply step_trans; [exact Halloc|]. apply step_lines.
    constructor; [|constructor]. by apply jump_target_valid in Hj. }
  destruct (String.eqb (op quad) "="); [by eapply assign_to_code_step|].
  destruct (String.eqb (op quad) "RETURN"); [by eapply return_to_code_step|].
  injection H as <- <-. apply step_refl.
Qed.

(** The lines of a block. *)
Lemma block_to_code_step func_name block_idx blk st st' :
  block_to_code block_controller func_name block_idx blk st = Ok st' →
  step st st'.
Proof.
  unfold block_to_code.
  apply (foldlM_invariant _ step); [apply step_refl|apply step_trans|].
  intros [mc code] [q_idx quad] [mc' code'] _ H.
  destruct (quad_to_code _ _ _ _) as [[mc1 lines]|] eqn:Hq; [|done].
  cbn [mbind result_bind mret result_ret] in H. injection H as <- <-.
  apply quad_to_code_step in Hq as [HR (extra & Hextra & Hok)].
  cbn [fst snd app] in *. subst extra. split; [done|]. by exists lines.
Qed.

Hypothesis R_frame : ∀ mc frame,
  R mc (MemController.mk (MemController.rvalues mc)
          (MemController.usedregs mc) (MemController.var_use_pos mc)
          (MemController.function_stack mc ++ [frame])).
Hypothesis R_rebase : ∀ mc func_name p, R mc (rebase_param func_name mc p).

(** The lines of the blocks of a function, each after its label. *)
Definition labelled (func_name : string) (k : nat)
    (bodies : list (list instr)) : list instr :=
  concat (imap (λ i body, BlockLabel func_name (k + i) :: body) bodies).

Lemma blocks_to_code_step func_name k blocks mc code mc' code' :
  foldlM (λ '(mc, code) '(block_idx, block),
    block_to_code block_controller func_name block_idx block
      (mc, code ++ [BlockLabel func_name block_idx]))
    (mc, code) (imap (λ i x, (k + i, x)) blocks) = Ok (mc', code') →
  R mc mc'
  ∧ ∃ bodies, length bodies = length blocks
      ∧ Forall (Forall (line_ok block_controller)) bodies
      ∧ code' = code ++ labelled func_name k bodies.
Proof.
  revert k mc code. induction blocks as [|blk blocks IH]; intros k mc code.
  { cbn. intros [= <- <-]. split; [done|]. exists [].
    unfold labelled. cbn. by rewrite app_nil_r. }
  cbn [imap foldlM]. rewrite Nat.add_0_r.
  destruct (block_to_code _ _ _ _ _) as [[mc1 code1]|] eqn:Hblk; [|done].
  unfold mbind, result_bind. intros Hrest.
  apply block_to_code_step in Hblk as [HR1 (body & Hbody & Hok)].
  cbn [fst snd] in HR1, Hbody.
  erewrite imap_ext in Hrest; [apply (IH (S k)) in Hrest|];
    [|intros i x _; cbn; f_equal; lia].
  destruct Hrest as [HR2 (bodies & Hlen & Hoks & ->)].
  split; [by eapply R_trans|]. exists (body :: bodies).
  split; [cbn; by rewrite Hlen|]. split; [by constructor|].
  rewrite Hbody. unfold labelled. cbn [imap concat].
  rewrite Nat.add_0_r, <- !app_assoc. cbn [app]. do 4 f_equal.
  apply imap_ext. intros i x _. cbn. do 2 f_equal. lia.
Qed.

Lemma fold_rebase_step func_name params mc :
  R mc (fold_left (rebase_param func_name) params mc).
Proof.
  revert mc. induction params as [|p params IH]; intros mc; [done|].
  cbn [fold_left]. eapply R_trans; [apply R_rebase|apply IH].
Qed.

Lemma function_to_code_step symbolTable self func_name blocks self' :
  function_to_code block_controller symbolTable self (func_name, blocks)
    = Ok self' →
  R (mem_controller self) (mem_controller self')
  ∧ ∃ bodies, length bodies = length blocks
      ∧ Forall (Forall (line_ok block_controller)) bodies
      ∧ code self' = code self
                     ++ FuncLabel func_name :: labelled func_name 0 bodies.
Proof.
  unfold function_to_code. intros H.
  destruct (FunctionStack.build_frame _ _ _) as [[frame frames]|] eqn:Hframe;
    [|done].
  cbn [mbind result_bind mret result_ret] in H.
  match type of H with
  | context [foldlM ?f ?a ?l] => destruct (foldlM f a l) as [[mc1 code1]|] eqn:Hfold
  end; [|done].
  cbn [mbind result_bind mret result_ret] in H. injection H as <-.
  cbn [mem_controller code].
  apply (blocks_to_code_step func_name 0) in Hfold as [HR (bodies & ? & ? & ->)].
  split.
  - eapply R_trans; [|exact HR]. eapply R_trans; [|apply fold_rebase_step].
    unfold FunctionStack.build_frame in Hframe.
    destruct (find_scope _ _); [|done]. cbn in Hframe.
    injection Hframe as <- <-. apply R_frame.
  - exists bodies. do 2 (split; [done|]). by rewrite <- app_assoc.
Qed.

Lemma lines_ok_labels (body : list instr) :
  Forall (line_ok block_controller) body →
  block_labels body = [] ∧ func_labels body = []
  ∧ Forall (valid_target block_controller) (jump_targets body).
Proof.
  unfold block_labels, func_labels, jump_targets.
  induction 1 as [|i body Hi _ (IH1 & IH2 & IH3)]; [done|].
  cbn [omap list_omap]. rewrite IH1, IH2.
  destruct i; cbn in Hi |- *; try done; by repeat constructor.
Qed.

Lemma labelled_labels func_name k (bodies : list (list instr)) :
  Forall (Forall (line_ok block_controller)) bodies →
  block_labels (labelled func_name k bodies)
    = (λ i, (func_name, k + i)) <$> seq 0 (length bodies)
  ∧ func_labels (labelled func_name k bodies) = []
  ∧ Forall (valid_target block_controller)
      (jump_targets (labelled func_name k bodies)).
Proof.
  intros Hok. revert k.
  induction Hok as [|body bodies Hbody _ IH]; intros k; [done|].
  unfold labelled in *. cbn [imap concat length seq fmap list_fmap].
  destruct (lines_ok_labels body Hbody) as (Hb1 & Hb2 & Hb3).
  specialize (IH (S k)) as (IH1 & IH2 & IH3).
  erewrite (imap_ext _ ((λ i b, BlockLabel func_name (k + i) :: b) ∘ S))
    in IH1, IH2, IH3; [|intros i x _; cbn; do 2 f_equal; lia..].
  unfold block_labels, func_labels, jump_targets in *.
  cbn [omap list_omap app]. rewrite !omap_app, Hb1, Hb2, IH1, IH2.
  rewrite Nat.add_0_r. cbn [app]. split; [|split; [done|]].
  - f_equal. rewrite <- fmap_S_seq, <- list_fmap_compose.
    apply list_fmap_ext. intros i x _. cbn. f_equal. lia.
  - by apply Forall_app.
Qed.

Lemma functions_to_code_step symbolTable (fb : list (string * list block))
    self self' :
  foldlM (function_to_code block_controller symbolTable) self fb = Ok self' →
  R (mem_controller self) (mem_controller self')
  ∧ ∃ rest, code self' = code self ++ rest
      ∧ block_labels rest = expected_labels fb
      ∧ func_labels rest = fb.*1
      ∧ Forall (valid_target block_controller) (jump_targets rest).
Proof.
  revert self. induction fb as [|[f blocks] fb IH]; intros self.
  { cbn. intros [= <-]. split; [done|]. exists []. by rewrite app_nil_r. }
  cbn [foldlM].
  destruct (function_to_code _ _ _ _) as [self1|] eqn:Hf; [|done].
  unfold mbind, result_bind. intros Hrest.
  apply function_to_code_step in Hf as [HR1 (bodies & Hlen & Hok & Hcode)].
  apply IH in Hrest as [HR2 (rest & Hcode' & Hbl & Hfl & Hjt)].
  split; [by eapply R_trans|].
  destruct (labelled_labels f 0 bodies Hok) as (Hl1 & Hl2 & Hl3).
  exists (FuncLabel f :: labelled f 0 bodies ++ rest).
  split. { rewrite Hcode', Hcode, <- app_assoc. done. }
  unfold block_labels, func_labels, jump_targets, expected_labels in *.
  cbn [omap list_omap fmap list_fmap concat fst snd].
  rewrite !omap_app, Hl1, Hl2, Hbl, Hfl, Hlen.
  split; [done|]. split; [done|]. by apply Forall_app.
Qed.

Lemma generate_code_step symbolTable self self' :
  generate_code block_controller symbolTable self = Ok self' →
  R (mem_controller self) (mem_controller self')
  ∧ ∃ rest,
      code self'
      = code self
        ++ [Directive ".data"; Blank; Directive ".text";
            Directive ".globl main"; Blank] ++ rest
      ∧ block_labels rest
        = expected_labels (BlockController.func_blocks block_controller)
      ∧ func_labels rest = (BlockController.func_blocks block_controller).*1
      ∧ Forall (valid_target block_controller) (jump_targets rest).
Proof.
  unfold generate_code.
  intros [HR (rest & Hcode & ?)]%functions_to_code_step.
  split; [done|]. exists rest. split; [|done].
  cbn [code] in Hcode. by rewrite Hcode, <- app_assoc.
Qed.
End quad_step.

Section labels.
Variable block_controller : BlockController.t.

Lemma valid_target_expected (t : string * nat) :
  valid_target block_controller t →
  t ∈ expected_labels (BlockController.func_blocks block_controller).
Proof.
  intros (blocks & Hget & Hlt). apply dict_get_Some in Hget.
  unfold expected_labels. apply elem_of_concat.
  exists ((λ i, (t.1, i)) <$> seq 0 (length blocks)). split.
  - apply list_elem_of_fmap. exists t.2. split; [by destruct t|].
    apply elem_of_seq. lia.
  - apply list_elem_of_fmap. by exists (t.1, blocks).
Qed.
End labels.

(** The code that [generate_code] makes from scratch begins with the five
    lines of the header; its function labels are the functions in the call
    order, its block labels are one per block of every function, in order;
    and every [j] and [bne] it holds names one of these block labels: no
    jump of the generated code is left without its label. *)
Theorem generated_jumps_have_labels (block_controller : BlockController.t)
    (symbolTable : SymbolTable) (res : AimCodeGenerator.t) :
  AimCodeGenerator.generate_code block_controller symbolTable
    (AimCodeGenerator.init block_controller) = Ok res →
  take 5 (AimCodeGenerator.code res)
    = [Directive ".data"; Blank; Directive ".text"; Directive ".globl main";
       Blank]
  ∧ func_labels (AimCodeGenerator.code res)
    = (BlockController.func_blocks block_controller).*1
  ∧ block_labels (AimCodeGenerator.code res)
    = expected_labels (BlockController.func_blocks block_controller)
  ∧ ∀ t, t ∈ jump_targets (AimCodeGenerator.code res) →
      t ∈ block_labels (AimCodeGenerator.code res).
Proof.
  intros Hrun.
  apply (generate_code_step block_controller (λ _ _, True)) in Hrun
    as [_ (rest & Hcode & Hbl & Hfl & Hjt)]; try done.
  cbn [AimCodeGenerator.code AimCodeGenerator.init app] in Hcode.
  rewrite Hcode. cbn [take]. split; [done|].
  change (func_labels (?a :: ?b :: ?c :: ?d :: ?e :: rest))
    with (func_labels rest).
  change (block_labels (?a :: ?b :: ?c :: ?d :: ?e :: rest))
    with (block_labels rest).
  change (jump_targets (?a :: ?b :: ?c :: ?d :: ?e :: rest))
    with (jump_targets rest).
  do 2 (split; [done|]). intros t Ht. rewrite Hbl.
  apply valid_target_expected. rewrite Forall_forall in Hjt. by apply Hjt.
Qed.

(** The code of [early_return] as the body of [main]. *)
Lemma generated_jumps_have_labels_witness :
  ∃ block_controller res,
    AimCodeGenerator.generate_code block_controller early_return_symbols
      (AimCodeGenerator.init block_controller) = Ok res
    ∧ jump_targets (AimCodeGenerator.code res) = [("main", 2); ("main", 3)]
    ∧ ∀ t, t ∈ jump_targets (AimCodeGenerator.code res) →
        t ∈ block_labels (AimCodeGenerator.code res).
Proof.
  destruct (BlockController._initialize_analysis elements early_return
              early_return_symbols) as [bc|] eqn:Hbc;
    [|by vm_compute in Hbc].
  exists bc. vm_compute in Hbc. injection Hbc as <-.
  match goal with
  | |- ∃ res, AimCodeGenerator.generate_code ?bc ?st ?i = _ ∧ _ =>
      destruct (AimCodeGenerator.generate_code bc st i) as [res|] eqn:Hres;
        [|by vm_compute in Hres]
  end.
  exists res. split; [done|].
  split; [|by apply (generated_jumps_have_labels _ _ _ Hres)].
  vm_compute in Hres. by injection Hres as <-.
Defined.

Section pool.
Import MemController.

Lemma filter_submseteq {A} (P : A → Prop) `{∀ x, Decision (P x)}
    (l k : list A) :
  l ⊆+ k → filter P l ⊆+ filter P k.
Proof.
  induction 1 as [|x l k _ IH|x y l|x l k _ IH|l k m _ IH1 _ IH2].
  - done.
  - rewrite !filter_cons. case_decide; [by constructor|done].
  - rewrite !filter_cons. repeat case_decide; try done. by constructor.
  - rewrite filter_cons. case_decide; [by constructor|done].
  - by etransitivity.
Qed.

Lemma NoDup_submseteq_l {A} (l k : list A) : l ⊆+ k → NoDup k → NoDup l.
Proof.
  intros (k' & Hk)%submseteq_Permutation. rewrite Hk.
  by intros (? & _)%NoDup_app.
Qed.

Lemma pool_consistent_sub (self self' : t) (extra : list string) :
  Forall (λ r, r ∉ varregs) extra →
  (rvalues self').*2 ⊆+ extra ++ (rvalues self).*2 →
  usedregs self ⊆ usedregs self' →
  pool_consistent self → pool_consistent self'.
Proof.
  intros Hextra Hsub Hused [Hnd Hin].
  assert (filter (λ r, r ∈ varregs) (extra ++ (rvalues self).*2)
          = filter (λ r, r ∈ varregs) (rvalues self).*2) as Hfilter.
  { rewrite filter_app. 
    assert (filter (λ r, r ∈ varregs) extra = []) as ->; [|done].
    clear -Hextra. induction Hextra as [|r extra Hr _ IH]; [done|].
    by rewrite filter_cons, decide_False. }
  split.
  - eapply NoDup_submseteq_l; [|exact Hnd]. rewrite <- Hfilter.
    by apply filter_submseteq.
  - intros r Hr Hpool. apply Hused, Hin; [|done].
    pose proof (elem_of_submseteq _ _ r Hr Hsub) as [Hr'|Hr']%elem_of_app;
      [|done].
    rewrite Forall_forall in Hextra. by destruct (Hextra r Hr').
Qed.

Lemma dict_set_values_sub {K V} `{EqDecision K} (k : K) (v : V)
    (d : list (K * V)) :
  (dict_set k v d).*2 ⊆+ v :: d.*2.
Proof.
  induction d as [|[k' v'] d IH]; cbn; [done|]. case_decide; cbn.
  - constructor. by apply submseteq_cons.
  - rewrite (Permutation_swap v' v). by constructor.
Qed.

Lemma pararegs_not_pool (r : string) : r ∈ pararegs → r ∉ varregs.
Proof.
  unfold pararegs, ARG_REGS. intros Hr.
  repeat (apply elem_of_cons in Hr as [-> | Hr];
          [by apply (bool_decide_unpack _)|]).
  by apply elem_of_nil in Hr.
Qed.

Lemma set_rvalue_pool_consistent (mc : t) (key : string * operand)
    (reg : string) :
  reg ∈ pararegs → pool_consistent mc →
  pool_consistent (AimCodeGenerator.set_rvalue key reg mc).
Proof.
  intros Hreg. apply (pool_consistent_sub _ _ [reg]).
  - constructor; [by apply pararegs_not_pool|constructor].
  - apply dict_set_values_sub.
  - done.
Qed.

Lemma find_first_key (p : string) (d : list ((string * operand) * string))
    (key : string * operand) (temp : string) :
  List.find (λ b : (string * operand) * string, String.eqb b.1.1 p) d
    = Some (key, temp) →
  dict_get key d = Some temp.
Proof.
  induction d as [|[k v] d IH]; [done|]. cbn.
  destruct (String.eqb_spec k.1 p) as [Hk|Hk].
  - intros [= -> ->]. by rewrite decide_True.
  - intros Hfind. rewrite decide_False; [by apply IH|].
    intros ->. apply find_some in Hfind as [_ Hp]. cbn in Hp.
    by apply String.eqb_eq in Hp.
Qed.

Lemma rebase_param_pool_consistent (func_name : string) (mc : t)
    (p : nat * (string * Z)) :
  pool_consistent mc →
  pool_consistent (AimCodeGenerator.rebase_param func_name mc p).
Proof.
  unfold AimCodeGenerator.rebase_param.
  destruct (List.find _ (rvalues mc)) as [[key temp]|] eqn:Hfind; [|done].
  apply find_first_key in Hfind.
  apply (pool_consistent_sub _ _ []); [constructor| |done].
  cbn [rvalues app].
  set (d' := dict_set (func_name, OStr p.2.1) temp (rvalues mc)).
  assert (dict_get key d' = Some temp) as Hget.
  { subst d'. destruct (decide (key = (func_name, OStr p.2.1))) as [->|Hne].
    - apply dict_get_set.
    - by rewrite dict_get_set_ne. }
  destruct (dict_del_split _ _ _ Hget) as (d1 & d2 & Hd' & ->).
  apply (submseteq_app_inv_l _ _ [temp]). cbn [app].
  etransitivity; [|apply (dict_set_values_sub (func_name, OStr p.2.1))].
  fold d'. rewrite Hd', !fmap_app, fmap_cons. cbn [snd].
  by rewrite Permutation_middle.
Qed.
End pool.

(** Code generation keeps the pool consistent: a quadruple that is
    translated in a consistent state leaves a consistent state, and so does
    the whole of [generate_code] run from scratch.  Two keys never hold the
    same register of [$t0]-[$t9], [$s0]-[$s7] at the same time. *)
Theorem code_generation_keeps_pool_consistent
    (block_controller : BlockController.t) :
  (∀ iq cur_pos mc mc' lines,
     pool_consistent mc →
     AimCodeGenerator.quad_to_code block_controller iq cur_pos mc
       = Ok (mc', lines) →
     pool_consistent mc')
  ∧ ∀ symbolTable res,
      AimCodeGenerator.generate_code block_controller symbolTable
        (AimCodeGenerator.init block_controller) = Ok res →
      pool_consistent (AimCodeGenerator.mem_controller res)
      ∧ ∀ i j k1 k2 r,
          MemController.rvalues (AimCodeGenerator.mem_controller res) !! i
            = Some (k1, r) →
          MemController.rvalues (AimCodeGenerator.mem_controller res) !! j
            = Some (k2, r) →
          r ∈ MemController.varregs → i = j.
Proof.
  set (R := λ mc mc' : MemController.t,
              pool_consistent mc → pool_consistent mc').
  assert (∀ mc, R mc mc) as Hrefl by (intros mc Hmc; exact Hmc).
  assert (∀ a b c, R a b → R b c → R a c) as Htrans
    by (intros a b c Hab Hbc Ha; apply Hbc, Hab, Ha).
  assert (∀ mc v pos code reg mc' code',
    MemController.alloc_reg mc v pos code = Ok (reg, mc', code') → R mc mc')
    as Halloc.
  { intros mc v pos code reg mc' code' Hrun Hmc.
    by eapply alloc_reg_pool_consistent. }
  assert (∀ mc key reg, reg ∈ MemController.pararegs →
            R mc (AimCodeGenerator.set_rvalue key reg mc)) as Hparam.
  { intros mc key reg Hreg Hmc. by apply set_rvalue_pool_consistent. }
  split.
  - intros iq cur_pos mc mc' lines Hmc Hrun.
    apply (quad_to_code_step block_controller R Hrefl Htrans Halloc Hparam)
      in Hrun as [HR _].
    by apply HR.
  - intros symbolTable res Hrun.
    apply (generate_code_step block_controller R Hrefl Htrans Halloc Hparam)
      in Hrun as [HR _].
    + assert (pool_consistent (AimCodeGenerator.mem_controller res)) as Hres.
      { apply HR. split; [constructor|]. by intros r ?%elem_of_nil. }
      split; [done|]. by apply pool_consistent_inj.
    + intros mc frame Hmc. exact Hmc.
    + intros mc func_name p Hmc. by apply rebase_param_pool_consistent.
Qed.

Lemma code_generation_keeps_pool_consistent_witness :
  ∃ block_controller res,
    AimCodeGenerator.generate_code block_controller two_functions_symbols
      (AimCodeGenerator.init block_controller) = Ok res
    ∧ pool_consistent (AimCodeGenerator.mem_controller res).
Proof.
  destruct (BlockController._initialize_analysis elements two_functions
              two_functions_symbols) as [bc|] eqn:Hbc;
    [|by vm_compute in Hbc].
  exists bc. vm_compute in Hbc. injection Hbc as <-.
  match goal with
  | |- ∃ res, AimCodeGenerator.generate_code ?bc ?st ?i = _ ∧ _ =>
      destruct (AimCodeGenerator.generate_code bc st i) as [res|] eqn:Hres;
        [|by vm_compute in Hres]
  end.
  exists res. split; [done|].
  by apply (code_generation_keeps_pool_consistent _) in Hres as [? _].
Defined.

Section frames_kept.

Lemma frame_kept_refl frame : frame_kept frame frame.
Proof. by repeat split. Qed.

Lemma frame_kept_trans f1 f2 f3 :
  frame_kept f1 f2 → frame_kept f2 f3 → frame_kept f1 f3.
Proof.
  intros (Hn1 & Hs1 & Hp1 & Hv1) (Hn2 & Hs2 & Hp2 & Hv2).
  split; [congruence|]. split; [congruence|]. split; [congruence|].
  intros v. destruct (Hv1 v) as [Ho1 Hm1], (Hv2 v) as [Ho2 Hm2].
  split; [congruence|auto].
Qed.

Lemma frames_kept_refl frames : frames_kept frames frames.
Proof. intros g frame Hg. exists frame. split; [done|apply frame_kept_refl]. Qed.

Lemma frames_kept_trans fs1 fs2 fs3 :
  frames_kept fs1 fs2 → frames_kept fs2 fs3 → frames_kept fs1 fs3.
Proof.
  intros H12 H23 g f1 Hg. destruct (H12 g f1 Hg) as (f2 & Hg2 & Hk12).
  destruct (H23 g f2 Hg2) as (f3 & Hg3 & Hk23). exists f3.
  split; [done|]. by eapply frame_kept_trans.
Qed.

Lemma set_var_memflag_kept frame v :
  frame_kept frame (FunctionStackFrame.set_var_memflag frame v true).
Proof.
  do 3 (split; [done|]). intros w.
  unfold FunctionStackFrame.get_var_offset, FunctionStackFrame.if_var_in_memory,
    FunctionStackFrame.set_var_memflag.
  cbn [FunctionStackFrame.local_vars]. rewrite set_memflag_find.
  destruct (List.find _ (FunctionStackFrame.local_vars frame))
    as [[[x o] c]|]; [|done].
  cbn. by destruct (String.eqb v w).
Qed.

Lemma alloc_reg_frames_kept mc v pos code reg mc' code' :
  MemController.alloc_reg mc v pos code = Ok (reg, mc', code') →
  frames_kept (MemController.function_stack mc)
    (MemController.function_stack mc').
Proof.
  unfold MemController.alloc_reg.
  remember MemController.valregs as pool eqn:Hpool.
  destruct (dict_get _ (MemController.rvalues mc)) as [r0|].
  { intros [= _ <- _]. apply frames_kept_refl. }
  destruct (filter _ pool) as [|r0 free].
  2: { intros [= _ <- _]. apply frames_kept_refl. }
  destruct (MemController.select_victim mc pos) as [[vf vv]|]; [|done].
  unfold or_raise, mbind, result_bind, mret, result_ret.
  destruct (dict_get _ _) as [r0|]; [|done].
  destruct (MemController.spill _ _ _ _ _ _) as [frames code0] eqn:Hspill.
  intros [= _ <- _]. cbn [MemController.function_stack].
  unfold MemController.spill in Hspill.
  destruct vv as [victim| |];
    try (injection Hspill as <- _; apply frames_kept_refl).
  destruct (_ && _); [|injection Hspill as <- _; apply frames_kept_refl].
  destruct (FunctionStack.get_frame _ _) as [frame|] eqn:Hframe;
    [|injection Hspill as <- _; apply frames_kept_refl].
  destruct (FunctionStackFrame.get_var_offset _ _) as [offset|];
    [|injection Hspill as <- _; apply frames_kept_refl].
  injection Hspill as <- _. intros g fr Hg.
  rewrite get_frame_set_frame by by apply get_frame_name in Hframe.
  case_decide as Hgv.
  - subst g. rewrite Hframe in Hg |- *. injection Hg as <-. cbn.
    eexists. split; [done|]. apply set_var_memflag_kept.
  - exists fr. split; [done|apply frame_kept_refl].
Qed.
End frames_kept.

(** Translating a quadruple never moves a slot, never changes the size of a
    frame and never clears a memory flag: every frame that [get_frame] found
    before is found afterwards, with the same size and the same offsets, and
    a variable that was marked as being in memory still is.  So the check
    that the branches of the binary operators and of [=] make before they
    use a variable operand ([if_var_in_memory], here [reload]) still gives
    the [lw] from the variable's slot.  (The [jnz], [RETURN] and [param]
    branches make no such check.) *)
Theorem quad_to_code_keeps_frames (block_controller : BlockController.t)
    (iq : iquad) (cur_pos : position) (mc mc' : MemController.t)
    (lines : list instr) :
  AimCodeGenerator.quad_to_code block_controller iq cur_pos mc
    = Ok (mc', lines) →
  ∀ g frame,
    FunctionStack.get_frame (MemController.function_stack mc) g
      = Some frame →
    ∃ frame',
      FunctionStack.get_frame (MemController.function_stack mc') g
        = Some frame'
      ∧ FunctionStackFrame.size frame' = FunctionStackFrame.size frame
      ∧ ∀ v,
          FunctionStackFrame.get_var_offset frame' v
          = FunctionStackFrame.get_var_offset frame v
          ∧ (FunctionStackFrame.if_var_in_memory frame v = true →
             FunctionStackFrame.if_var_in_memory frame' v = true
             ∧ ∀ reg, AimCodeGenerator.reload mc' g v reg
                      = match FunctionStackFrame.get_var_offset frame v with
                        | Some offset => [Lw reg offset "$sp"]
                        | None => []
                        end).
Proof.
  intros Hrun g frame Hg.
  apply (quad_to_code_step block_controller
           (λ mc mc', frames_kept (MemController.function_stack mc)
                        (MemController.function_stack mc')))
    in Hrun as [HR _].
  - cbn [fst snd] in HR.
    destruct (HR g frame Hg) as (frame' & Hg' & _ & Hsize & _ & Hv).
    exists frame'. split; [done|]. split; [done|]. intros v.
    destruct (Hv v) as [Hoff Hmem]. split; [done|]. intros Hin.
    split; [by apply Hmem|]. intros reg.
    unfold AimCodeGenerator.reload, AimCodeGenerator.frame_of.
    by rewrite Hg', (Hmem Hin), Hoff.
  - intros ?. apply frames_kept_refl.
  - intros a b c. apply frames_kept_trans.
  - intros. by eapply alloc_reg_frames_kept.
  - intros. apply frames_kept_refl.
Qed.

Lemma quad_to_code_keeps_frames_witness :
  ∃ mc' lines frame',
    AimCodeGenerator.quad_to_code (BlockController.mk [] [] [] [] [] [])
      (9%Z, mkQuad "=" (OInt 1) ONone (OStr "t")) ("f", 0, 1) spilling
      = Ok (mc', lines)
    ∧ FunctionStack.get_frame (MemController.function_stack mc') "f"
      = Some frame'
    ∧ FunctionStackFrame.size frame' = 92%Z.
Proof.
  destruct (AimCodeGenerator.quad_to_code (BlockController.mk [] [] [] [] [] [])
              (9%Z, mkQuad "=" (OInt 1) ONone (OStr "t")) ("f", 0, 1) spilling)
    as [[mc' lines]|] eqn:Hrun; [|by vm_compute in Hrun].
  destruct (quad_to_code_keeps_frames _ _ _ _ _ _ Hrun "f"
              (FunctionStack.frame_of "f" 0 eighteen_locals) eq_refl)
    as (frame' & Hg & Hsize & _).
  exists mc', lines, frame'. split; [done|]. split; [done|].
  rewrite Hsize. by vm_compute.
Defined.

(** ** Arithmetic, unknown operators and use positions *)

Section binop.
Import AimCodeGenerator.

(** After an allocation the table is not empty, so that the next one
    cannot fail. *)
Lemma alloc_reg_again (mc : MemController.t) (v w : operand)
    (pos : position) (code code2 : list instr) reg mc' code' :
  MemController.alloc_reg mc v pos code = Ok (reg, mc', code') →
  ∃ r, MemController.alloc_reg mc' w pos code2 = Ok r.
Proof.
  intros Hrun. pose proof (alloc_reg_cases mc v pos code) as H1.
  rewrite Hrun in H1. cbn zeta in H1. destruct H1 as (_ & _ & _ & Hget & _).
  pose proof (alloc_reg_cases mc' w pos code2) as H2. cbn zeta in H2.
  destruct (MemController.alloc_reg mc' w pos code2) as [r|e]; [by eauto|].
  destruct H2 as (_ & Hnil & _). by rewrite Hnil in Hget.
Qed.

Lemma alloc_reg_first (mc : MemController.t) (v : operand)
    (pos : position) (code : list instr) :
  ¬ (MemController.rvalues mc = [] ∧ pool_exhausted mc) →
  ∃ r, MemController.alloc_reg mc v pos code = Ok r.
Proof.
  intros Hstate. pose proof (alloc_reg_cases mc v pos code) as H.
  cbn zeta in H.
  destruct (MemController.alloc_reg mc v pos code) as [r|e]; [by eauto|].
  destruct H as (_ & ? & ?). by destruct Hstate.
Qed.
End binop.

(** The check of the divisor covers the constant divisor only, and covers
    it whatever the dividend is: the division of a variable by the constant
    0 raises a [ValueError] when the code is generated.  A constant divisor
    other than 0 is accepted: the division of two constants is folded into
    one [li] of the quotient rounded down, and the division of a variable by
    a constant emits a [div] after loading the constant.  (The allocation of
    a register fails only in a state without any binding and without a free
    register.) *)
Theorem division_by_constant (block_controller : BlockController.t)
    (index : Z) (quad : Quadruple) (cur_pos : position)
    (mc : MemController.t) :
  op quad = "/" →
  ¬ (MemController.rvalues mc = [] ∧ pool_exhausted mc) →
  let run :=
    AimCodeGenerator.quad_to_code block_controller (index, quad) cur_pos mc in
  (∀ x, arg1 quad = OStr x → arg2 quad = OInt 0 →
     run = Raise (ValueError "除0异常: 除数不能为0"))
  ∧ (∀ a b, arg1 quad = OInt a → arg2 quad = OInt b → b ≠ 0%Z →
       ∃ reg mc' spill,
         MemController.alloc_reg mc (result quad) cur_pos []
           = Ok (reg, mc', spill)
         ∧ run = Ok (mc', spill ++ [Li reg (ImmInt (a `div` b))]))
  ∧ (∀ x b, arg1 quad = OStr x → arg2 quad = OInt b → b ≠ 0%Z →
       ∃ mc' lines result_reg var_reg,
         run = Ok (mc', lines)
         ∧ drop (length lines - 2) lines
           = [Li result_reg (ImmInt b);
              Op3 "div" result_reg var_reg result_reg]).
Proof.
  intros Hop Hstate run. subst run. rewrite quad_to_code_division by done.
  unfold AimCodeGenerator.binop_to_code, AimCodeGenerator.alloc. cbn [fst snd].
  destruct (alloc_reg_first mc (result quad) cur_pos [] Hstate)
    as [[[reg mc1] code1] Hrun].
  rewrite Hrun. cbn [mbind result_bind mret result_ret fst snd].
  split; [|split].
  - intros x -> ->. rewrite Hop. done.
  - intros a b -> -> Hb. rewrite Hop.
    assert ((b =? 0)%Z = false) as -> by by apply Z.eqb_neq.
    cbn [andb String.eqb]. exists reg, mc1, code1. split; [done|].
    unfold AimCodeGenerator.calc. by cbn.
  - intros x b -> -> Hb. rewrite Hop.
    assert ((b =? 0)%Z = false) as -> by by apply Z.eqb_neq.
    rewrite andb_false_r.
    destruct (alloc_reg_again mc (result quad) (OStr x) cur_pos [] code1
                _ _ _ Hrun) as [[[var_reg mc2] code2] Hrun2].
    rewrite Hrun2. cbn [mbind result_bind mret result_ret fst snd].
    eexists mc2, _, reg, var_reg. split; [done|].
    rewrite (app_assoc code2).
    generalize (code2 ++ AimCodeGenerator.reload mc2 cur_pos.1.1 x var_reg).
    intros pre. cbn [app]. rewrite length_app. cbn [length].
    replace (length pre + 2 - 2) with (length pre) by lia.
    apply drop_app_length.
Qed.

Lemma division_by_constant_witness :
  AimCodeGenerator.quad_to_code (BlockController.mk [] [] [] [] [] [])
    (9%Z, mkQuad "/" (OStr "x") (OInt 0) (OStr "t")) ("main", 0, 0)
    (MemController.init [])
  = Raise (ValueError "除0异常: 除数不能为0").
Proof.
  refine (proj1 (division_by_constant (BlockController.mk [] [] [] [] [] [])
            9%Z (mkQuad "/" (OStr "x") (OInt 0) (OStr "t")) ("main", 0, 0)
            (MemController.init []) eq_refl _) "x" eq_refl eq_refl).
  intros [_ Hfull]. by vm_compute in Hfull.
Defined.

(** A quadruple whose operator is none of those that [quad_to_code] knows
    is not rejected: it is passed over, with no line and no change of the
    controller. *)
Theorem quad_to_code_unknown_op (block_controller : BlockController.t)
    (index : Z) (quad : Quadruple) (cur_pos : position)
    (mc : MemController.t) :
  op quad ∉ ["param"; "call"; "+"; "-"; "*"; "/"; "<"; "<="; ">"; ">=";
             "=="; "!="; "j"; "jnz"; "="; "RETURN"] →
  AimCodeGenerator.quad_to_code block_controller (index, quad) cur_pos mc
  = Ok (mc, []).
Proof.
  intros Hop. rewrite !not_elem_of_cons in Hop.
  destruct Hop as (H1 & H2 & H3 & H4 & H5 & H6 & H7 & H8 & H9 & H10 & H11
                   & H12 & H13 & H14 & H15 & H16 & _).
  apply String.eqb_neq in H1, H2, H3, H4, H5, H6, H7, H8, H9, H10, H11, H12,
    H13, H14, H15, H16.
  unfold AimCodeGenerator.quad_to_code, AimCodeGenerator.op_inst.
  by rewrite H1, H2, H3, H4, H5, H6, H7, H8, H9, H10, H11, H12, H13, H14,
    H15, H16.
Qed.

Lemma quad_to_code_unknown_op_witness :
  AimCodeGenerator.quad_to_code (BlockController.mk [] [] [] [] [] [])
    (9%Z, mkQuad "%" (OStr "x") (OInt 2) (OStr "t")) ("main", 0, 0)
    (MemController.init [])
  = Ok (MemController.init [], []).
Proof.
  apply quad_to_code_unknown_op. by apply (bool_decide_unpack _).
Defined.

(** ** Error codes and the text of an exception *)

(** The classes of the error codes agree with one another: a code is not
    fatal exactly when its category is the limitation one, which is the case
    of [PARAM_LIMIT], [DEPRECATED_FEATURE] and [RECURSION_DEPTH] only; every
    code has a prefix and a description of its own; [GENERAL_ERROR] alone
    has no named category; and no two codes have the same value. *)
Theorem error_code_classes (c : ErrorCode.t) :
  (ErrorCode.is_fatal c = false
   ↔ ErrorCode.get_category (ErrorCode.value c) = "Limitation")
  ∧ (ErrorCode.is_fatal c = false
     ↔ c = ErrorCode.PARAM_LIMIT ∨ c = ErrorCode.DEPRECATED_FEATURE
       ∨ c = ErrorCode.RECURSION_DEPTH)
  ∧ (ErrorCode.get_category (ErrorCode.value c) = "Unknown"
     ↔ c = ErrorCode.GENERAL_ERROR)
  ∧ ErrorCode.category_prefix c ≠ ""
  ∧ is_Some (ErrorCode.descriptions c)
  ∧ ∀ c', ErrorCode.value c = ErrorCode.value c' → c = c'.
Proof.
  split; [|split; [|split; [|split; [|split]]]].
  - destruct c; by vm_compute.
  - destruct c; vm_compute; split; try done; try (by eauto);
      by intros [?|[?|?]].
  - destruct c; by vm_compute.
  - destruct c; by vm_compute.
  - destruct c; by eexists.
  - intros c'. destruct c, c'; by vm_compute.
Qed.


(** ** The use positions *)

Section use_positions.
Import AimCodeGenerator.

(** The positions recorded for [v]. *)
Definition uses_of (v : string) (d : list (string * list position))
  : list position :=
  default [] (dict_get v d).

Lemma add_use_spec pos d o v p :
  p ∈ uses_of v (add_use pos d o) ↔
  p ∈ uses_of v d ∨ (o = OStr v ∧ v ≠ "" ∧ p = pos).
Proof.
  unfold add_use, uses_of. destruct o as [s| |]; [|naive_solver..].
  cbn [truthy]. destruct (String.eqb_spec s "") as [->|Hs]; cbn [negb].
  { naive_solver. }
  destruct (decide (s = v)) as [->|Hne].
  - rewrite dict_get_set. cbn [default from_option id].
    rewrite elem_of_app, list_elem_of_singleton. naive_solver.
  - rewrite dict_get_set_ne by done. naive_solver.
Qed.

Lemma quad_uses_spec pos d (q : Quadruple) v p :
  p ∈ uses_of v
        (add_use pos (add_use pos (add_use pos d (arg1 q)) (arg2 q))
           (result q)) ↔
  p ∈ uses_of v d ∨ (mentions q v ∧ v ≠ "" ∧ p = pos).
Proof. rewrite !add_use_spec. unfold mentions. naive_solver. Qed.

Lemma block_uses_spec f bi (blk : block) d v p :
  p ∈ uses_of v
        (fold_left (λ d (q : nat * iquad),
           fold_left (add_use (f, bi, q.1))
             [arg1 q.2.2; arg2 q.2.2; result q.2.2] d) (enumerate blk) d) ↔
  p ∈ uses_of v d
  ∨ (v ≠ "" ∧ ∃ qi iq, blk !! qi = Some iq ∧ mentions iq.2 v
       ∧ p = (f, bi, qi)).
Proof.
  induction blk as [|iq blk IH] using rev_ind.
  { cbn. split; [by left|]. by intros [?|(_ & qi & iq & ? & _)]. }
  rewrite enumerate_snoc, fold_left_app. cbn [fold_left fst snd].
  rewrite quad_uses_spec, IH. split.
  - intros [[?|(Hv & qi & iq' & Hq & Hm & ->)]|(Hm & Hv & ->)]; [by left|..].
    + right. split; [done|]. exists qi, iq'. split; [|done].
      rewrite lookup_app_l; [done|]. by eapply lookup_lt_Some.
    + right. split; [done|]. exists (length blk), iq. split; [|done].
      by rewrite lookup_app_r, Nat.sub_diag.
  - intros [?|(Hv & qi & iq' & Hq & Hm & ->)]; [by left; left|].
    destruct (decide (qi < length blk)) as [Hlt|Hge].
    + left. right. split; [done|]. exists qi, iq'.
      by rewrite lookup_app_l in Hq.
    + assert (qi = length blk) as ->.
      { apply lookup_lt_Some in Hq. rewrite length_app in Hq. simpl in Hq. lia. }
      rewrite lookup_app_r, Nat.sub_diag in Hq by done. injection Hq as <-.
      by right.
Qed.

Lemma function_uses_spec f (blocks : list block) d v p :
  p ∈ uses_of v
        (fold_left (λ d (b : nat * block),
           fold_left (λ d (q : nat * iquad),
             fold_left (add_use (f, b.1, q.1))
               [arg1 q.2.2; arg2 q.2.2; result q.2.2] d) (enumerate b.2) d)
           (enumerate blocks) d) ↔
  p ∈ uses_of v d
  ∨ (v ≠ "" ∧ ∃ bi blk qi iq, blocks !! bi = Some blk ∧ blk !! qi = Some iq
       ∧ mentions iq.2 v ∧ p = (f, bi, qi)).
Proof.
  induction blocks as [|blk blocks IH] using rev_ind.
  { cbn. split; [by left|]. by intros [?|(_ & bi & ? & ? & ? & ? & _)]. }
  rewrite enumerate_snoc, fold_left_app.
  match goal with
  | |- context [fold_left ?g [?x] ?a] =>
      change (fold_left g [x] a) with (g a x)
  end.
  cbn beta. cbn [fst snd].
  rewrite block_uses_spec, IH. split.
  - intros [[?|(Hv & bi & blk' & qi & iq & Hb & Hq & Hm & ->)]
           |(Hv & qi & iq & Hq & Hm & ->)]; [by left|..].
    + right. split; [done|]. exists bi, blk', qi, iq. split; [|done].
      rewrite lookup_app_l; [done|]. by eapply lookup_lt_Some.
    + right. split; [done|]. exists (length blocks), blk, qi, iq.
      split; [|done]. by rewrite lookup_app_r, Nat.sub_diag.
  - intros [?|(Hv & bi & blk' & qi & iq & Hb & Hq & Hm & ->)];
      [by left; left|].
    destruct (decide (bi < length blocks)) as [Hlt|Hge].
    + left. right. split; [done|]. exists bi, blk', qi, iq.
      by rewrite lookup_app_l in Hb.
    + assert (bi = length blocks) as ->.
      { apply lookup_lt_Some in Hb. rewrite length_app in Hb. simpl in Hb. lia. }
      rewrite lookup_app_r, Nat.sub_diag in Hb by done. injection Hb as <-.
      right. split; [done|]. by exists qi, iq.
Qed.

Lemma program_uses_spec (fb : list (string * list block)) d v p :
  p ∈ uses_of v
        (fold_left (λ d (f : string * list block),
           fold_left (λ d (b : nat * block),
             fold_left (λ d (q : nat * iquad),
               fold_left (add_use (f.1, b.1, q.1))
                 [arg1 q.2.2; arg2 q.2.2; result q.2.2] d)
               (enumerate b.2) d)
             (enumerate f.2) d) fb d) ↔
  p ∈ uses_of v d
  ∨ (v ≠ "" ∧ ∃ f blocks bi blk qi iq, (f, blocks) ∈ fb
       ∧ blocks !! bi = Some blk ∧ blk !! qi = Some iq
       ∧ mentions iq.2 v ∧ p = (f, bi, qi)).
Proof.
  revert d. induction fb as [|[f blocks] fb IH]; intros d.
  { cbn. split; [by left|].
    by intros [?|(_ & ? & ? & ? & ? & ? & ? & ?%elem_of_nil & _)]. }
  match goal with
  | |- context [fold_left ?g (?x :: ?l) ?a] =>
      change (fold_left g (x :: l) a) with (fold_left g l (g a x))
  end.
  cbn beta. cbn [fst snd].
  rewrite IH, function_uses_spec. split.
  - intros [[?|(Hv & bi & blk & qi & iq & ? & ? & ? & ->)]
           |(Hv & f' & blocks' & bi & blk & qi & iq & Hin & ? & ? & ? & ->)];
      [by left|right..].
    + split; [done|]. exists f, blocks, bi, blk, qi, iq. split; [by left|done].
    + split; [done|]. exists f', blocks', bi, blk, qi, iq.
      split; [by right|done].
  - intros [?|(Hv & f' & blocks' & bi & blk & qi & iq & Hin & ? & ? & ? & ->)];
      [by left; left|].
    apply elem_of_cons in Hin as [[= -> ->]|Hin].
    + left. right. split; [done|]. by exists bi, blk, qi, iq.
    + right. split; [done|]. by exists f', blocks', bi, blk, qi, iq.
Qed.
End use_positions.

(** The use positions that the allocator works with are exact: a position
    is recorded for a name exactly when the quadruple at that position has
    the name as an operand or as its result, the empty name apart. *)
Theorem var_use_pos_exact (func_blocks : list (string * list block))
    (v : string) (f : string) (bi qi : nat) :
  (f, bi, qi)
    ∈ default [] (dict_get v (AimCodeGenerator.build_var_use_pos func_blocks))
  ↔ v ≠ ""
    ∧ ∃ blocks blk iq, (f, blocks) ∈ func_blocks
        ∧ blocks !! bi = Some blk ∧ blk !! qi = Some iq ∧ mentions iq.2 v.
Proof.
  unfold AimCodeGenerator.build_var_use_pos.
  pose proof (program_uses_spec func_blocks [] v (f, bi, qi)) as H.
  unfold uses_of in H. rewrite H. split.
  - intros [?%elem_of_nil|(Hv & f' & blocks & bi' & blk & qi' & iq & Hin
                            & Hb & Hq & Hm & [= -> -> ->])]; [done|].
    split; [done|]. by exists blocks, blk, iq.
  - intros (Hv & blocks & blk & iq & Hin & Hb & Hq & Hm). right.
    split; [done|]. by exists f, blocks, bi, blk, qi, iq.
Qed.

(** ** The analysis as a whole *)

Section initialize.
Import BlockController.

Lemma mapM_keys {A K V} (g : A → result_of (K * V)) (key : A → K)
    (l : list A) :
  (∀ x, x ∈ l → ∃ v, g x = Ok (key x, v)) →
  ∃ r, mapM g l = Ok r ∧ r.*1 = key <$> l
    ∧ Forall2 (λ x y, g x = Ok y) l r.
Proof.
  induction l as [|x l IH]; intros Hall.
  { exists []. by repeat split. }
  destruct (Hall x) as [v Hv]; [by left|].
  destruct IH as (r & Hr & Hkeys & Hall2); [intros y Hy; apply Hall; by right|].
  exists ((key x, v) :: r). cbn. rewrite Hv. cbn. rewrite Hr. cbn.
  split; [done|]. split; [by rewrite Hkeys|]. by constructor.
Qed.

Lemma mapM_raises {A B} (g : A → result_of B) (l : list A) (e : exn) :
  (∀ x, x ∈ l → (∃ y, g x = Ok y) ∨ g x = Raise e) →
  (∃ x, x ∈ l ∧ g x = Raise e) →
  mapM g l = Raise e.
Proof. apply mapM_result_Raise. Qed.

Lemma dict_get_key {K V} `{EqDecision K} (k : K) (d : list (K * V)) :
  k ∈ d.*1 → is_Some (dict_get k d).
Proof.
  intros ([k' v] & -> & Hin)%list_elem_of_fmap. by eapply dict_get_elem_of.
Qed.

Lemma Forall2_elem_of_l {A B} (P : A → B → Prop) (l : list A) (k : list B)
    (x : A) :
  Forall2 P l k → x ∈ l → ∃ y, y ∈ k ∧ P x y.
Proof.
  induction 1 as [|x' y' l k Hxy _ IH]; [by intros ?%elem_of_nil|].
  intros [->|Hin]%elem_of_cons.
  - exists y'. split; [by left|done].
  - destruct (IH Hin) as (y & ? & ?). exists y. split; [by right|done].
Qed.
End initialize.

(** The analysis of a program succeeds when the functions that the symbol
    table declares with an entry have distinct names, each has a scope, and
    each entry is the index of a quadruple: the controller then holds the
    blocks, a CFG and the liveness sets for exactly these functions.  When a
    function has no scope the analysis raises an [AttributeError]. *)
Theorem initialize_analysis_succeeds (set_order : gset string → list string)
    (quads : list iquad) (symbolTable : SymbolTable) :
  (∀ s, set_order s ≡ₚ elements s) →
  let entries := BlockController._get_function_entry symbolTable in
  (NoDup entries.*1 →
   (∀ f, f ∈ entries.*1 → is_Some (find_scope symbolTable f)) →
   (∀ e, e ∈ entries.*2 → e ∈ quads.*1) →
   ∃ bc,
     BlockController._initialize_analysis set_order quads symbolTable = Ok bc
     ∧ BlockController.quads bc = quads
     ∧ BlockController.func_entries bc = entries
     ∧ (BlockController.func_vars bc).*1 = entries.*1
     ∧ NoDup (BlockController.func_blocks bc).*1
     ∧ (∀ f, f ∈ (BlockController.func_blocks bc).*1 ↔ f ∈ entries.*1)
     ∧ (BlockController.func_cfgs bc).*1
       = (BlockController.func_blocks bc).*1
     ∧ (BlockController.live_vars bc).*1
       = (BlockController.func_blocks bc).*1)
  ∧ ((∃ f, f ∈ entries.*1 ∧ find_scope symbolTable f = None) →
     BlockController._initialize_analysis set_order quads symbolTable
       = Raise (AttributeError "symbols")).
Proof.
  intros Hperm entries. unfold BlockController._initialize_analysis.
  fold entries. unfold BlockController._get_function_vars. split.
  - intros Hnd Hscopes Hidx.
    destruct (mapM_keys
                (λ '(func_name, _),
                   symbols ← or_raise (AttributeError "symbols")
                               (find_scope symbolTable func_name);
                   mret (func_name, BlockController.collect_vars symbols))
                fst entries) as (fv & -> & Hfv & _).
    { intros [f e] Hin.
      destruct (Hscopes f) as [symbols Hs].
      { apply list_elem_of_fmap. by exists (f, e). }
      rewrite Hs. by eexists. }
    cbn [mbind result_bind].
    destruct (split_all_functions_Ok set_order quads entries Hperm Hnd Hidx)
      as (fb & -> & Hndfb & Hinfb & Hget).
    cbn [mbind result_bind].
    assert (∀ f blocks, (f, blocks) ∈ fb → Forall (λ b, b ≠ []) blocks)
      as Hnonempty.
    { intros f blocks Hin. apply Hget, dict_get_Some in Hin.
      apply function_slices_split in Hin as [qs ->].
      apply block_split_nonempty. }
    destruct (mapM_keys
                (λ '(f_name, blocks),
                   cfg ← BlockController._build_cfg blocks; mret (f_name, cfg))
                fst fb) as (cfgs & -> & Hcfgs & Hall).
    { intros [f blocks] Hin.
      destruct (build_cfg_Ok blocks (Hnonempty f blocks Hin))
        as (cfg & -> & _). by eexists. }
    cbn [mbind result_bind].
    destruct (mapM_keys
                (λ '(f_name, blocks),
                   cfg ← or_raise KeyError (dict_get f_name cfgs);
                   vars ← or_raise KeyError (dict_get f_name fv);
                   sets ← or_raise IndexError
                            (BlockController._live_variable_analysis
                               blocks cfg vars);
                   mret (f_name, sets))
                fst fb) as (lv & -> & Hlv & _).
    { intros [f blocks] Hin.
      destruct (Forall2_elem_of_l _ _ _ _ Hall Hin) as ([f' cfg] & Hc & Hrun).
      pose proof (Hnonempty f blocks Hin) as Hne.
      destruct (build_cfg_Ok blocks Hne) as (cfg' & Hcfg' & Hlen & Hsucc).
      rewrite Hcfg' in Hrun. cbn in Hrun. injection Hrun as <- <-.
      rewrite (dict_get_NoDup f cfg' cfgs); [|by rewrite Hcfgs|done].
      cbn [or_raise mbind result_bind].
      destruct (dict_get_key f fv) as [vars ->].
      { rewrite Hfv. apply Hinfb. apply list_elem_of_fmap.
        by exists (f, blocks). }
      cbn [or_raise mbind result_bind].
      destruct (live_analysis_Some blocks cfg' vars) as (ins & outs & -> & _).
      { by apply build_cfg_ok. }
      by eexists. }
    cbn [mbind result_bind mret result_ret].
    eexists. split; [done|]. cbn.
    repeat split; try done; by apply Hinfb.
  - intros (f & Hf & Hnone).
    rewrite (mapM_raises _ _ (AttributeError "symbols")); [done| |].
    + intros [g e] _. destruct (find_scope symbolTable g); cbn; by eauto.
    + apply list_elem_of_fmap in Hf as ([g e] & -> & Hin).
      exists (g, e). split; [done|]. cbn in Hnone. by rewrite Hnone.
Qed.

Lemma initialize_analysis_succeeds_witness :
  ∃ bc,
    BlockController._initialize_analysis elements two_functions
      two_functions_symbols = Ok bc
    ∧ BlockController.quads bc = two_functions.
Proof.
  destruct (initialize_analysis_succeeds elements two_functions
              two_functions_symbols (λ s, reflexivity (elements s)))
    as [Hok _].
  destruct Hok as (bc & Hrun & Hquads & _).
  - by apply (bool_decide_unpack _).
  - apply Forall_forall. repeat constructor; by eexists.
  - apply Forall_forall. by apply (bool_decide_unpack _).
  - exists bc. split; [exact Hrun|exact Hquads].
Defined.

(** ** Blocks are basic *)

Lemma StronglySorted_lt_lookup (l : list nat) (i j a b : nat) :
  StronglySorted lt l → i < j → l !! i = Some a → l !! j = Some b → a < b.
Proof.
  intros Hs. revert i j. induction Hs as [|x l Hs IH Hall]; intros i j Hij Hi Hj.
  { done. }
  destruct j as [|j]; [lia|]. cbn in Hj. destruct i as [|i].
  - cbn in Hi. injection Hi as ->. rewrite Forall_forall in Hall.
    apply Hall. by eapply list_elem_of_lookup_2.
  - cbn in Hi. apply (IH i j); [lia|done..].
Qed.

Lemma next_start_le (leaders : list nat) (k s x : nat) :
  StronglySorted lt leaders → leaders !! k = Some s → x ∈ leaders → s < x →
  ∃ e, leaders !! S k = Some e ∧ e ≤ x.
Proof.
  intros Hs Hk [j Hj]%list_elem_of_lookup_1 Hsx.
  assert (k < j) as Hkj.
  { destruct (decide (k < j)) as [|Hge]; [done|].
    destruct (decide (j = k)) as [->|Hne].
    - rewrite Hk in Hj. injection Hj as ->. lia.
    - pose proof (StronglySorted_lt_lookup leaders j k x s Hs) as Hlt.
      specialize (Hlt ltac:(lia) Hj Hk). lia. }
  destruct (decide (j = S k)) as [->|Hne]; [by exists x|].
  destruct (lookup_lt_is_Some_2 leaders (S k)) as [e He].
  { apply lookup_lt_Some in Hj. lia. }
  exists e. split; [done|].
  pose proof (StronglySorted_lt_lookup leaders (S k) j e x Hs) as Hlt.
  specialize (Hlt ltac:(lia) He Hj). lia.
Qed.

Lemma slice_lookup {A} (l : list A) (s e k : nat) (x : A) :
  slice l s e !! k = Some x → l !! (s + k) = Some x ∧ k < e - s.
Proof.
  unfold slice. intros [Hk Hlt]%lookup_take_Some.
  by rewrite lookup_drop in Hk.
Qed.

Lemma slice_length_le {A} (l : list A) (s e : nat) :
  length (slice l s e) ≤ e - s ∧ length (slice l s e) ≤ length l - s.
Proof. unfold slice. rewrite length_take, length_drop. lia. Qed.

Lemma block_split_elem (quads : list iquad) (b : block) :
  b ∈ BlockController._block_split quads →
  ∃ k s, BlockController.sorted_starts quads !! k = Some s
    ∧ b = slice quads s
            (default (length quads)
               (BlockController.sorted_starts quads !! S k)).
Proof.
  intros Hb. assert (quads ≠ []) as Hne.
  { intros ->. by apply elem_of_nil in Hb. }
  destruct (block_split_cuts quads Hne) as (_ & _ & Hlen & Hblk).
  apply list_elem_of_lookup_1 in Hb as [k Hk].
  destruct (lookup_lt_is_Some_2 (BlockController.sorted_starts quads) k)
    as [s Hs].
  { rewrite <- Hlen. by eapply lookup_lt_Some. }
  exists k, s. split; [done|].
  specialize (Hblk k s Hs). rewrite Hk in Hblk. by injection Hblk.
Qed.

(** The blocks of [_block_split] are basic blocks.  A jump with a target can
    only be the last quadruple of its block, whatever the slice; and when
    the indices of the slice are distinct, the target of a jump, if it is in
    the slice, is the first quadruple of a block. *)
Theorem blocks_are_basic (quads : list iquad) :
  (∀ b k iq,
     b ∈ BlockController._block_split quads → b !! k = Some iq →
     BlockController.is_jump iq.2 = true → result iq.2 ≠ ONone →
     length b = S k)
  ∧ (NoDup quads.*1 →
     ∀ i q t,
       (i, q) ∈ quads → BlockController.is_jump q = true →
       result q = OInt t → t ∈ quads.*1 →
       ∃ b q', b ∈ BlockController._block_split quads
         ∧ head b = Some (t, q')).
Proof.
  split.
  - intros b k [i q] Hb Hk Hjump Hres. cbn [snd] in *.
    destruct (block_split_elem quads b Hb) as (k0 & s & Hs & ->).
    pose proof (lookup_lt_Some _ _ _ Hk) as Hlen.
    apply slice_lookup in Hk as [Hp Hlt].
    pose proof (lookup_lt_Some _ _ _ Hp) as Hpn.
    pose proof (slice_length_le quads s
                  (default (length quads)
                     (BlockController.sorted_starts quads !! S k0)))
      as [Hle1 Hle2].
    destruct (decide (s + k + 1 < length quads)) as [Hin|Hlast]; [|lia].
    assert (s + k + 1 ∈ BlockController.sorted_starts quads) as Hstart.
    { apply sorted_starts_elem, block_starts_spec. right.
      exists (s + k), i, q. repeat split; [done..|]. by right. }
    destruct (next_start_le _ k0 s (s + k + 1) (sorted_starts_sorted quads)
                Hs Hstart) as (e & He & Hle); [lia|].
    rewrite He in *. cbn [default from_option id] in *. lia.
  - intros Hnd i q t Hin Hjump Hres Ht.
    assert (quads ≠ []) as Hne.
    { intros ->. by apply elem_of_nil in Hin. }
    apply list_elem_of_fmap in Ht as ([t' q'] & -> & Ht). cbn [fst].
    apply list_elem_of_lookup_1 in Ht as [p Hp].
    apply list_elem_of_lookup_1 in Hin as [j Hj].
    assert (p ∈ BlockController.sorted_starts quads) as Hstart.
    { apply sorted_starts_elem, block_starts_spec. right.
      exists j, i, q. repeat split; [done..|by rewrite Hres|].
      left. exists t'. split; [done|]. by eapply index_to_pos_NoDup. }
    apply list_elem_of_lookup_1 in Hstart as [k Hk].
    destruct (block_split_cuts quads Hne) as (_ & Hnonempty & _ & Hblk).
    specialize (Hblk k p Hk).
    remember (slice quads p
                (default (length quads)
                   (BlockController.sorted_starts quads !! S k))) as b eqn:Heq.
    assert (b ≠ []) as Hb.
    { rewrite Forall_forall in Hnonempty. apply Hnonempty.
      by eapply list_elem_of_lookup_2. }
    destruct b as [|x b']; [done|].
    assert (slice quads p
              (default (length quads)
                 (BlockController.sorted_starts quads !! S k)) !! 0 = Some x)
      as Hx by (by rewrite <- Heq).
    apply slice_lookup in Hx as [Hx _]. rewrite Nat.add_0_r, Hp in Hx.
    injection Hx as <-.
    exists ((t', q') :: b'), q'. split; [by eapply list_elem_of_lookup_2|done].
Qed.

Lemma blocks_are_basic_witness :
  length [(3, mkQuad "=" (OInt 1) ONone (OStr "x"));
          (4, mkQuad "jnz" (OStr "x") ONone (OInt 6))]%Z = 2
  ∧ ∃ b q', b ∈ BlockController._block_split sample_slice
      ∧ head b = Some (6%Z, q').
Proof.
  destruct (blocks_are_basic sample_slice) as [Hlast Hfirst]. split.
  - apply (Hlast _ 1 (4, mkQuad "jnz" (OStr "x") ONone (OInt 6))%Z).
    + vm_compute. by left.
    + reflexivity.
    + reflexivity.
    + discriminate.
  - apply (Hfirst ltac:(by apply (bool_decide_unpack _)) 4%Z
             (mkQuad "jnz" (OStr "x") ONone (OInt 6)) 6%Z).
    + vm_compute. right. by left.
    + reflexivity.
    + reflexivity.
    + by apply (bool_decide_unpack _).
Defined.
